(** * Clementine: the tag reader client ([src/core/tagreaderclient.cpp])

    A shallow embedding of [TagReaderClient] and of the [BroadcastReply]
    class declared next to it, together with the properties of the
    request/reply protocol that the design document states about them.

    The client talks to a pool of worker processes.  Every request yields
    a reply object that lives on the heap and is resolved later, when the
    answer of a worker arrives; Qt signals connect the resolution of one
    object to code of another.  The embedding keeps that shape: a [World]
    holds the heap of reply objects, the signal connections, the replies
    the pool still waits for, and the responses that are still to arrive;
    the member functions are state transformers over it. *)

From stdpp Require Import base decidable option list gmap strings.
From Stdlib Require Import ZArith Lia Ascii.

(** ** Collaborators outside the file

    [Song], the protobuf [SongMetadata], [QImage] and [QUrl] are used by
    the client through a handful of member functions only.  They are kept
    abstract: every definition and theorem below holds for any
    implementation of them. *)

Class Externals := {
  Song : Type;
  SongMetadata : Type;
  QImage : Type;
  (** the metadata of a freshly built protobuf message *)
  SongMetadata_default : SongMetadata;
  (** [Song::ToProtobuf(pb)] fills the metadata message it is given *)
  ToProtobuf : Song -> SongMetadata -> SongMetadata;
  (** [Song::InitFromProtobuf(pb)] overwrites the song it is called on *)
  InitFromProtobuf : SongMetadata -> Song -> Song;
  (** [song.url().toLocalFile()] *)
  url_toLocalFile : Song -> string;
  (** a default constructed [QImage] *)
  QImage_null : QImage;
  (** [image.loadFromData(bytes)] replaces the image it is called on *)
  loadFromData : string -> QImage -> QImage;
  (** [QUrl(s).authority()] *)
  authority : string -> string;
  (** [QThread::idealThreadCount()] *)
  idealThreadCount : Z
}.

(** A small implementation of the collaborators, for running the model on
    concrete inputs: a song is its title and its file, an image is the
    bytes it was loaded from, and the authority of [scheme://rest] is
    [rest] up to the first [/], [?] or [#]. *)

Fixpoint drop_scheme (s : string) : option string :=
  match s with
  | String ":"%char (String "/"%char (String "/"%char rest)) => Some rest
  | String _ rest => drop_scheme rest
  | EmptyString => None
  end.

Fixpoint until_path (s : string) : string :=
  match s with
  | String c rest =>
      if bool_decide (c = "/"%char \/ c = "?"%char \/ c = "#"%char)
      then EmptyString else String c (until_path rest)
  | EmptyString => EmptyString
  end.

Definition plain_authority (s : string) : string :=
  match drop_scheme s with
  | Some rest => until_path rest
  | None => EmptyString
  end.

Definition plain_externals : Externals := {|
  Song := string * string;
  SongMetadata := string;
  QImage := option string;
  SongMetadata_default := EmptyString;
  ToProtobuf := fun s _ => fst s;
  InitFromProtobuf := fun md s => (md, snd s);
  url_toLocalFile := snd;
  QImage_null := None;
  loadFromData := fun bytes _ =>
    if bool_decide (bytes = EmptyString) then None else Some bytes;
  authority := plain_authority;
  idealThreadCount := 4%Z
|}.

(** ** Fixed-width integers

    [int] is 32 bits wide and [qint64] is 64 bits wide, both signed; a
    value that leaves the range wraps around. *)

Definition wrap (bits : Z) (x : Z) : Z :=
  ((x + 2 ^ (bits - 1)) mod 2 ^ bits - 2 ^ (bits - 1))%Z.

Definition to_int (x : Z) : Z := wrap 32 x.
Definition to_qint64 (x : Z) : Z := wrap 64 x.

Definition INT_MAX : Z := (2 ^ 31 - 1)%Z.
Definition INT64_MIN : Z := (- 2 ^ 63)%Z.
Definition INT64_MAX : Z := (2 ^ 63 - 1)%Z.

(** A pointer to a reply is its index in the heap; a thread is a number. *)
Abbreviation handle := nat (only parsing).
Abbreviation Thread := nat (only parsing).

Section TagReader.

Context `{Ext : Externals}.

(** ** Messages ([pb::tagreader])

    One record per protobuf message.  A sub-message of [Message] is
    optional; the getter of an absent one answers the default instance,
    as the generated C++ does. *)

Record ReadFileRequest := { ReadFileRequest_filename : string }.
Record ReadFileResponse := { ReadFileResponse_metadata : SongMetadata }.

Record SaveFileRequest := {
  SaveFileRequest_filename : string;
  SaveFileRequest_metadata : SongMetadata
}.
Record SaveFileResponse := { SaveFileResponse_success : bool }.

Record SaveSongStatisticsToFileRequest := {
  SaveSongStatisticsToFileRequest_filename : string;
  SaveSongStatisticsToFileRequest_metadata : SongMetadata
}.
Record SaveSongStatisticsToFileResponse := {
  SaveSongStatisticsToFileResponse_success : bool
}.

Record SaveSongRatingToFileRequest := {
  SaveSongRatingToFileRequest_filename : string;
  SaveSongRatingToFileRequest_metadata : SongMetadata
}.
Record SaveSongRatingToFileResponse := {
  SaveSongRatingToFileResponse_success : bool
}.

Record IsMediaFileRequest := { IsMediaFileRequest_filename : string }.
Record IsMediaFileResponse := { IsMediaFileResponse_success : bool }.

Record LoadEmbeddedArtRequest := { LoadEmbeddedArtRequest_filename : string }.
Record LoadEmbeddedArtResponse := { LoadEmbeddedArtResponse_data : string }.

Record ReadCloudFileRequest := {
  download_url : string;
  title : string;
  size : Z;
  mime_type : string;
  authorisation_header : string
}.

Record NetworkStatisticsRequest := { }.

Record Entry := { url : string; bytes_received : Z }.
Record NetworkStatisticsResponse := { entry : list Entry }.

Record Message := {
  opt_read_file_request : option ReadFileRequest;
  opt_read_file_response : option ReadFileResponse;
  opt_save_file_request : option SaveFileRequest;
  opt_save_file_response : option SaveFileResponse;
  opt_save_song_statistics_to_file_request :
    option SaveSongStatisticsToFileRequest;
  opt_save_song_statistics_to_file_response :
    option SaveSongStatisticsToFileResponse;
  opt_save_song_rating_to_file_request : option SaveSongRatingToFileRequest;
  opt_save_song_rating_to_file_response : option SaveSongRatingToFileResponse;
  opt_is_media_file_request : option IsMediaFileRequest;
  opt_is_media_file_response : option IsMediaFileResponse;
  opt_load_embedded_art_request : option LoadEmbeddedArtRequest;
  opt_load_embedded_art_response : option LoadEmbeddedArtResponse;
  opt_read_cloud_file_request : option ReadCloudFileRequest;
  opt_network_statistics_request : option NetworkStatisticsRequest;
  opt_network_statistics_response : option NetworkStatisticsResponse
}.

(** [pb::tagreader::Message message;] *)
Definition Message_empty : Message := {|
  opt_read_file_request := None;
  opt_read_file_response := None;
  opt_save_file_request := None;
  opt_save_file_response := None;
  opt_save_song_statistics_to_file_request := None;
  opt_save_song_statistics_to_file_response := None;
  opt_save_song_rating_to_file_request := None;
  opt_save_song_rating_to_file_response := None;
  opt_is_media_file_request := None;
  opt_is_media_file_response := None;
  opt_load_embedded_art_request := None;
  opt_load_embedded_art_response := None;
  opt_read_cloud_file_request := None;
  opt_network_statistics_request := None;
  opt_network_statistics_response := None
|}.

(** The getters the client reads replies with. *)
Definition read_file_response (m : Message) : ReadFileResponse :=
  default {| ReadFileResponse_metadata := SongMetadata_default |}
          (opt_read_file_response m).
Definition save_file_response (m : Message) : SaveFileResponse :=
  default {| SaveFileResponse_success := false |} (opt_save_file_response m).
Definition save_song_statistics_to_file_response (m : Message)
  : SaveSongStatisticsToFileResponse :=
  default {| SaveSongStatisticsToFileResponse_success := false |}
          (opt_save_song_statistics_to_file_response m).
Definition save_song_rating_to_file_response (m : Message)
  : SaveSongRatingToFileResponse :=
  default {| SaveSongRatingToFileResponse_success := false |}
          (opt_save_song_rating_to_file_response m).
Definition is_media_file_response (m : Message) : IsMediaFileResponse :=
  default {| IsMediaFileResponse_success := false |}
          (opt_is_media_file_response m).
Definition load_embedded_art_response (m : Message) : LoadEmbeddedArtResponse :=
  default {| LoadEmbeddedArtResponse_data := EmptyString |}
          (opt_load_embedded_art_response m).
Definition network_statistics_response (m : Message)
  : NetworkStatisticsResponse :=
  default {| entry := [] |} (opt_network_statistics_response m).

(** The setters the client fills a request with: [mutable_x()] followed
    by the [set_] calls on the sub-message. *)

Definition set_read_file_request (req : ReadFileRequest)
    (m : Message) : Message :=
  {| opt_read_file_request := Some req;
     opt_read_file_response := opt_read_file_response m;
     opt_save_file_request := opt_save_file_request m;
     opt_save_file_response := opt_save_file_response m;
     opt_save_song_statistics_to_file_request :=
       opt_save_song_statistics_to_file_request m;
     opt_save_song_statistics_to_file_response :=
       opt_save_song_statistics_to_file_response m;
     opt_save_song_rating_to_file_request :=
       opt_save_song_rating_to_file_request m;
     opt_save_song_rating_to_file_response :=
       opt_save_song_rating_to_file_response m;
     opt_is_media_file_request := opt_is_media_file_request m;
     opt_is_media_file_response := opt_is_media_file_response m;
     opt_load_embedded_art_request := opt_load_embedded_art_request m;
     opt_load_embedded_art_response := opt_load_embedded_art_response m;
     opt_read_cloud_file_request := opt_read_cloud_file_request m;
     opt_network_statistics_request := opt_network_statistics_request m;
     opt_network_statistics_response := opt_network_statistics_response m |}.

Definition set_save_file_request (req : SaveFileRequest)
    (m : Message) : Message :=
  {| opt_read_file_request := opt_read_file_request m;
     opt_read_file_response := opt_read_file_response m;
     opt_save_file_request := Some req;
     opt_save_file_response := opt_save_file_response m;
     opt_save_song_statistics_to_file_request :=
       opt_save_song_statistics_to_file_request m;
     opt_save_song_statistics_to_file_response :=
       opt_save_song_statistics_to_file_response m;
     opt_save_song_rating_to_file_request :=
       opt_save_song_rating_to_file_request m;
     opt_save_song_rating_to_file_response :=
       opt_save_song_rating_to_file_response m;
     opt_is_media_file_request := opt_is_media_file_request m;
     opt_is_media_file_response := opt_is_media_file_response m;
     opt_load_embedded_art_request := opt_load_embedded_art_request m;
     opt_load_embedded_art_response := opt_load_embedded_art_response m;
     opt_read_cloud_file_request := opt_read_cloud_file_request m;
     opt_network_statistics_request := opt_network_statistics_request m;
     opt_network_statistics_response := opt_network_statistics_response m |}.

Definition set_save_song_statistics_to_file_request
    (req : SaveSongStatisticsToFileRequest) (m : Message) : Message :=
  {| opt_read_file_request := opt_read_file_request m;
     opt_read_file_response := opt_read_file_response m;
     opt_save_file_request := opt_save_file_request m;
     opt_save_file_response := opt_save_file_response m;
     opt_save_song_statistics_to_file_request := Some req;
     opt_save_song_statistics_to_file_response :=
       opt_save_song_statistics_to_file_response m;
     opt_save_song_rating_to_file_request :=
       opt_save_song_rating_to_file_request m;
     opt_save_song_rating_to_file_response :=
       opt_save_song_rating_to_file_response m;
     opt_is_media_file_request := opt_is_media_file_request m;
     opt_is_media_file_response := opt_is_media_file_response m;
     opt_load_embedded_art_request := opt_load_embedded_art_request m;
     opt_load_embedded_art_response := opt_load_embedded_art_response m;
     opt_read_cloud_file_request := opt_read_cloud_file_request m;
     opt_network_statistics_request := opt_network_statistics_request m;
     opt_network_statistics_response := opt_network_statistics_response m |}.

Definition set_save_song_rating_to_file_request
    (req : SaveSongRatingToFileRequest) (m : Message) : Message :=
  {| opt_read_file_request := opt_read_file_request m;
     opt_read_file_response := opt_read_file_response m;
     opt_save_file_request := opt_save_file_request m;
     opt_save_file_response := opt_save_file_response m;
     opt_save_song_statistics_to_file_request :=
       opt_save_song_statistics_to_file_request m;
     opt_save_song_statistics_to_file_response :=
       opt_save_song_statistics_to_file_response m;
     opt_save_song_rating_to_file_request := Some req;
     opt_save_song_rating_to_file_response :=
       opt_save_song_rating_to_file_response m;
     opt_is_media_file_request := opt_is_media_file_request m;
     opt_is_media_file_response := opt_is_media_file_response m;
     opt_load_embedded_art_request := opt_load_embedded_art_request m;
     opt_load_embedded_art_response := opt_load_embedded_art_response m;
     opt_read_cloud_file_request := opt_read_cloud_file_request m;
     opt_network_statistics_request := opt_network_statistics_request m;
     opt_network_statistics_response := opt_network_statistics_response m |}.

Definition set_is_media_file_request (req : IsMediaFileRequest)
    (m : Message) : Message :=
  {| opt_read_file_request := opt_read_file_request m;
     opt_read_file_response := opt_read_file_response m;
     opt_save_file_request := opt_save_file_request m;
     opt_save_file_response := opt_save_file_response m;
     opt_save_song_statistics_to_file_request :=
       opt_save_song_statistics_to_file_request m;
     opt_save_song_statistics_to_file_response :=
       opt_save_song_statistics_to_file_response m;
     opt_save_song_rating_to_file_request :=
       opt_save_song_rating_to_file_request m;
     opt_save_song_rating_to_file_response :=
       opt_save_song_rating_to_file_response m;
     opt_is_media_file_request := Some req;
     opt_is_media_file_response := opt_is_media_file_response m;
     opt_load_embedded_art_request := opt_load_embedded_art_request m;
     opt_load_embedded_art_response := opt_load_embedded_art_response m;
     opt_read_cloud_file_request := opt_read_cloud_file_request m;
     opt_network_statistics_request := opt_network_statistics_request m;
     opt_network_statistics_response := opt_network_statistics_response m |}.

Definition set_load_embedded_art_request (req : LoadEmbeddedArtRequest)
    (m : Message) : Message :=
  {| opt_read_file_request := opt_read_file_request m;
     opt_read_file_response := opt_read_file_response m;
     opt_save_file_request := opt_save_file_request m;
     opt_save_file_response := opt_save_file_response m;
     opt_save_song_statistics_to_file_request :=
       opt_save_song_statistics_to_file_request m;
     opt_save_song_statistics_to_file_response :=
       opt_save_song_statistics_to_file_response m;
     opt_save_song_rating_to_file_request :=
       opt_save_song_rating_to_file_request m;
     opt_save_song_rating_to_file_response :=
       opt_save_song_rating_to_file_response m;
     opt_is_media_file_request := opt_is_media_file_request m;
     opt_is_media_file_response := opt_is_media_file_response m;
     opt_load_embedded_art_request := Some req;
     opt_load_embedded_art_response := opt_load_embedded_art_response m;
     opt_read_cloud_file_request := opt_read_cloud_file_request m;
     opt_network_statistics_request := opt_network_statistics_request m;
     opt_network_statistics_response := opt_network_statistics_response m |}.

Definition set_read_cloud_file_request (req : ReadCloudFileRequest)
    (m : Message) : Message :=
  {| opt_read_file_request := opt_read_file_request m;
     opt_read_file_response := opt_read_file_response m;
     opt_save_file_request := opt_save_file_request m;
     opt_save_file_response := opt_save_file_response m;
     opt_save_song_statistics_to_file_request :=
       opt_save_song_statistics_to_file_request m;
     opt_save_song_statistics_to_file_response :=
       opt_save_song_statistics_to_file_response m;
     opt_save_song_rating_to_file_request :=
       opt_save_song_rating_to_file_request m;
     opt_save_song_rating_to_file_response :=
       opt_save_song_rating_to_file_response m;
     opt_is_media_file_request := opt_is_media_file_request m;
     opt_is_media_file_response := opt_is_media_file_response m;
     opt_load_embedded_art_request := opt_load_embedded_art_request m;
     opt_load_embedded_art_response := opt_load_embedded_art_response m;
     opt_read_cloud_file_request := Some req;
     opt_network_statistics_request := opt_network_statistics_request m;
     opt_network_statistics_response := opt_network_statistics_response m |}.

Definition set_network_statistics_request (req : NetworkStatisticsRequest)
    (m : Message) : Message :=
  {| opt_read_file_request := opt_read_file_request m;
     opt_read_file_response := opt_read_file_response m;
     opt_save_file_request := opt_save_file_request m;
     opt_save_file_response := opt_save_file_response m;
     opt_save_song_statistics_to_file_request :=
       opt_save_song_statistics_to_file_request m;
     opt_save_song_statistics_to_file_response :=
       opt_save_song_statistics_to_file_response m;
     opt_save_song_rating_to_file_request :=
       opt_save_song_rating_to_file_request m;
     opt_save_song_rating_to_file_response :=
       opt_save_song_rating_to_file_response m;
     opt_is_media_file_request := opt_is_media_file_request m;
     opt_is_media_file_response := opt_is_media_file_response m;
     opt_load_embedded_art_request := opt_load_embedded_art_request m;
     opt_load_embedded_art_response := opt_load_embedded_art_response m;
     opt_read_cloud_file_request := opt_read_cloud_file_request m;
     opt_network_statistics_request := Some req;
     opt_network_statistics_response := opt_network_statistics_response m |}.

(** [a.MergeFrom(b)] on a message whose only field is repeated appends
    the entries of [b] to those of [a]. *)
Definition MergeFrom (a b : NetworkStatisticsResponse)
  : NetworkStatisticsResponse :=
  {| entry := entry a ++ entry b |}.

(** ** Reply objects and the world they live in *)

(** [BroadcastReply] derives from [TagReaderReply] and adds the list of
    member replies it was built over. *)
Inductive ReplyKind :=
| PlainReply
| BroadcastReply (replies_ : list handle).

(** Modelled from the spec: [TagReaderReply] (the message reply class of
    the worker pool library) is declared outside the file.  The spec gives
    a reply a snapshot of the request and a status that is either pending
    or finished with a success flag and a response; the client reads them
    through [is_finished()], [is_successful()] and [message()]. *)
Record Reply := {
  request_message : Message;
  finished_ : bool;
  success_ : bool;
  message : Message;
  kind : ReplyKind
}.

Definition is_finished (r : Reply) : bool := finished_ r.
Definition is_successful (r : Reply) : bool := success_ r.

Definition new_Reply (request : Message) (k : ReplyKind) : Reply :=
  {| request_message := request; finished_ := false; success_ := false;
     message := Message_empty; kind := k |}.

(** The one transition of a reply: pending to finished. *)
Definition resolve (success : bool) (response : Message) (r : Reply) : Reply :=
  {| request_message := request_message r; finished_ := true;
     success_ := success; message := response; kind := kind r |}.

(** What the environment does while the client runs or waits: the pool
    resolves a reply with the response of a worker, or as failed when the
    worker died; a worker becomes ready; a worker fails to start. *)
Inductive Event :=
| Resolved (h : handle) (success : bool) (response : Message)
| WorkerReady
| SpawnFailed.

Inductive Level := Debug | Error.

(** A line written with [qLog]: the items streamed into it. *)
Inductive LogLine :=
| LogText (l : Level) (items : list string)
| LogRequests (l : Level) (requests_by_host : gmap string Z)
| LogBytes (l : Level) (bytes_received_by_host : gmap string Z).

(** What can be connected to the [Finished(bool)] signal of a reply: the
    closure of the broadcast reply [this], or [deleteLater()] of
    [receiver]. *)
Inductive Slot :=
| MemberFinished (this : handle)
| DeleteLater (receiver : handle).

#[global] Instance Slot_eq_dec : EqDecision Slot.
Proof. solve_decision. Defined.

(** The calls the client makes on [worker_pool_]. *)
Inductive PoolCall :=
| SetExecutableName (name : string)
| SetWorkerCount (n : Z)
| PoolStart
| SendMessageCall (m : Message)
| BroadcastMessageCall (m : Message).

Record World := {
  (** every reply object allocated so far; a handle indexes this list *)
  heap : list Reply;
  (** the replies the pool has sent a request for and not yet resolved *)
  pending : list handle;
  (** [(sender, slot)]: [slot] is connected to the [Finished(bool)] signal
      of [sender] *)
  connections : list (handle * Slot);
  (** every emission of a [Finished(bool)] signal, oldest first *)
  emitted : list (handle * bool);
  (** the number of workers that are ready to take a request *)
  ready_workers : nat;
  pool_calls : list PoolCall;
  (** [WorkerFailedToStart()] of the pool is connected to the client's slot *)
  slot_connected : bool;
  (** [TagReaderClient::sInstance] is set *)
  sInstance : bool;
  log : list LogLine;
  (** objects handed to [deleteLater()] *)
  deleted : list handle;
  (** what the environment will do next, in order *)
  future : list Event;
  (** [QThread::currentThread()] and the client's [thread()] *)
  current_thread : Thread;
  object_thread : Thread
}.

Definition with_heap (f : list Reply -> list Reply) (w : World) : World :=
  {| heap := f (heap w); pending := pending w; connections := connections w;
     emitted := emitted w; ready_workers := ready_workers w;
     pool_calls := pool_calls w; slot_connected := slot_connected w;
     sInstance := sInstance w; log := log w; deleted := deleted w;
     future := future w; current_thread := current_thread w;
     object_thread := object_thread w |}.

Definition with_pending (f : list handle -> list handle) (w : World) : World :=
  {| heap := heap w; pending := f (pending w); connections := connections w;
     emitted := emitted w; ready_workers := ready_workers w;
     pool_calls := pool_calls w; slot_connected := slot_connected w;
     sInstance := sInstance w; log := log w; deleted := deleted w;
     future := future w; current_thread := current_thread w;
     object_thread := object_thread w |}.

Definition with_connections
    (f : list (handle * Slot) -> list (handle * Slot)) (w : World)
  : World :=
  {| heap := heap w; pending := pending w; connections := f (connections w);
     emitted := emitted w; ready_workers := ready_workers w;
     pool_calls := pool_calls w; slot_connected := slot_connected w;
     sInstance := sInstance w; log := log w; deleted := deleted w;
     future := future w; current_thread := current_thread w;
     object_thread := object_thread w |}.

Definition with_emitted
    (f : list (handle * bool) -> list (handle * bool)) (w : World) : World :=
  {| heap := heap w; pending := pending w; connections := connections w;
     emitted := f (emitted w); ready_workers := ready_workers w;
     pool_calls := pool_calls w; slot_connected := slot_connected w;
     sInstance := sInstance w; log := log w; deleted := deleted w;
     future := future w; current_thread := current_thread w;
     object_thread := object_thread w |}.

Definition with_ready_workers (f : nat -> nat) (w : World) : World :=
  {| heap := heap w; pending := pending w; connections := connections w;
     emitted := emitted w; ready_workers := f (ready_workers w);
     pool_calls := pool_calls w; slot_connected := slot_connected w;
     sInstance := sInstance w; log := log w; deleted := deleted w;
     future := future w; current_thread := current_thread w;
     object_thread := object_thread w |}.

Definition with_pool_calls (f : list PoolCall -> list PoolCall) (w : World)
  : World :=
  {| heap := heap w; pending := pending w; connections := connections w;
     emitted := emitted w; ready_workers := ready_workers w;
     pool_calls := f (pool_calls w); slot_connected := slot_connected w;
     sInstance := sInstance w; log := log w; deleted := deleted w;
     future := future w; current_thread := current_thread w;
     object_thread := object_thread w |}.

Definition with_client (connected instance : bool) (w : World) : World :=
  {| heap := heap w; pending := pending w; connections := connections w;
     emitted := emitted w; ready_workers := ready_workers w;
     pool_calls := pool_calls w; slot_connected := connected;
     sInstance := instance; log := log w; deleted := deleted w;
     future := future w; current_thread := current_thread w;
     object_thread := object_thread w |}.

Definition with_log (f : list LogLine -> list LogLine) (w : World) : World :=
  {| heap := heap w; pending := pending w; connections := connections w;
     emitted := emitted w; ready_workers := ready_workers w;
     pool_calls := pool_calls w; slot_connected := slot_connected w;
     sInstance := sInstance w; log := f (log w); deleted := deleted w;
     future := future w; current_thread := current_thread w;
     object_thread := object_thread w |}.

Definition with_deleted (f : list handle -> list handle) (w : World) : World :=
  {| heap := heap w; pending := pending w; connections := connections w;
     emitted := emitted w; ready_workers := ready_workers w;
     pool_calls := pool_calls w; slot_connected := slot_connected w;
     sInstance := sInstance w; log := log w; deleted := f (deleted w);
     future := future w; current_thread := current_thread w;
     object_thread := object_thread w |}.

Definition with_future (es : list Event) (w : World) : World :=
  {| heap := heap w; pending := pending w; connections := connections w;
     emitted := emitted w; ready_workers := ready_workers w;
     pool_calls := pool_calls w; slot_connected := slot_connected w;
     sInstance := sInstance w; log := log w; deleted := deleted w;
     future := es; current_thread := current_thread w;
     object_thread := object_thread w |}.

Definition with_threads (cur obj : Thread) (w : World) : World :=
  {| heap := heap w; pending := pending w; connections := connections w;
     emitted := emitted w; ready_workers := ready_workers w;
     pool_calls := pool_calls w; slot_connected := slot_connected w;
     sInstance := sInstance w; log := log w; deleted := deleted w;
     future := future w; current_thread := cur; object_thread := obj |}.

(** A world before the client exists: no worker is ready yet, the program
    runs on thread [cur], and the environment will deliver [es]. *)
Definition initial_world (cur : Thread) (es : list Event) : World :=
  {| heap := []; pending := []; connections := []; emitted := [];
     ready_workers := 0; pool_calls := []; slot_connected := false;
     sInstance := false; log := []; deleted := []; future := es;
     current_thread := cur; object_thread := cur |}.

(** [*h]: the object a handle points to.  Handles come from allocation
    only, so the fallback is never read by the client. *)
Definition deref (w : World) (h : handle) : Reply :=
  default (new_Reply Message_empty PlainReply) (heap w !! h).

(** [emit h->Finished(b)]: the emission is recorded.  What is connected
    to the signal of a pool reply is run by [run_slots] below; to the
    signal of a broadcast reply only the event loop of a wait listens,
    and it looks the emission up in the record. *)
Definition emit_Finished (h : handle) (b : bool) (w : World) : World :=
  with_emitted (fun l => l ++ [(h, b)]) w.

(** The signals [h] has emitted so far. *)
Definition emitted_by (h : handle) (w : World) : list bool :=
  map snd (filter (fun p => bool_decide (fst p = h)) (emitted w)).

(** ** [class BroadcastReply] *)

(** [replies()] *)
Definition replies (w : World) (this : handle) : list handle :=
  match kind (deref w this) with
  | BroadcastReply rs => rs
  | PlainReply => []
  end.

(** [std::count_if(first, last, pred)] over a list of pointers *)
Definition count_if (w : World) (pred : Reply -> bool) (l : list handle)
  : nat :=
  length (filter (fun h => pred (deref w h)) l).

(** [BroadcastReply::IsFinished()] *)
Definition IsFinished (w : World) (this : handle) : bool :=
  let finished := count_if w is_finished (replies w this) in
  Nat.eqb finished (length (replies w this)).

(** The closure the constructor attaches to each member's
    [Finished(bool)]. *)
Definition member_finished (this : handle) (w : World) : World :=
  if IsFinished w this then
    let successes := count_if w is_successful (replies w this) in
    emit_Finished this (Nat.eqb successes (length (replies w this))) w
  else w.

(** [BroadcastReply(request_message, replies)]: the object is allocated
    and, for each member in the order of the list,
    [NewClosure(reply, SIGNAL(Finished(bool)), ...)] connects the closure
    to the member's signal. *)
Definition new_BroadcastReply (request : Message) (rs : list handle)
    (w : World) : handle * World :=
  let this := length (heap w) in
  let w1 :=
    with_heap (fun hp => hp ++ [new_Reply request (BroadcastReply rs)]) w in
  (this,
   with_connections
     (fun cs => cs ++ map (fun r => (r, MemberFinished this)) rs) w1).

(** ** The client's slot for a worker that did not start *)

Definition kWorkerExecutableName : string := "clementine-tagreader".

(** [TagReaderClient::WorkerFailedToStart()] *)
Definition WorkerFailedToStart (w : World) : World :=
  with_log (fun l => l ++
    [LogText Error
       ["The"; kWorkerExecutableName; "executable was not found";
        "in the current directory or on the PATH.  Clementine will";
        "not be able to read music file tags without it."]]) w.

(** ** The environment: responses arrive, workers come and go *)

(** What Qt does when a reply emits [Finished(bool)]: each slot connected
    to the signal is called. *)
Definition run_slot (s : Slot) (w : World) : World :=
  match s with
  | MemberFinished this => member_finished this w
  | DeleteLater receiver => with_deleted (fun l => l ++ [receiver]) w
  end.

(** The slots connected to [sender] run in the order they were connected. *)
Definition run_slots (sender : handle) (w : World) : World :=
  foldl (fun w' c =>
           if bool_decide (fst c = sender) then run_slot (snd c) w' else w')
        w (connections w).

(** Modelled from the spec: the demultiplexer of the worker pool, which is
    outside the file.  A response for a reply the pool still waits for
    removes it from the pending replies, resolves it and emits its
    [Finished(bool)]; a response for anything else is stale and is
    discarded.  A worker that became ready adds to the ready workers, and
    a worker that failed to start makes the pool signal
    [WorkerFailedToStart()]. *)
Definition deliver (e : Event) (w : World) : World :=
  match e with
  | Resolved h success response =>
      if bool_decide (h ∈ pending w) then
        let w1 := with_heap (alter (resolve success response) h) w in
        let w2 := with_pending (filter (fun p => p ≠ h)) w1 in
        run_slots h (emit_Finished h success w2)
      else w
  | WorkerReady => with_ready_workers S w
  | SpawnFailed => if slot_connected w then WorkerFailedToStart w else w
  end.

Definition deliver_all (es : list Event) (w : World) : World :=
  foldl (fun w' e => deliver e w') w es.

(** ** Operations: state, failed assertions and waits that never end *)

Inductive Outcome (A : Type) :=
| Returns (a : A) (w : World)
| AssertionFailed
| WaitsForever.

Arguments Returns {A} a w.
Arguments AssertionFailed {A}.
Arguments WaitsForever {A}.

Definition Op (A : Type) : Type := World -> Outcome A.

Definition ret {A} (a : A) : Op A := fun w => Returns a w.

Definition bind {A B} (c : Op A) (k : A -> Op B) : Op B :=
  fun w =>
    match c w with
    | Returns a w' => k a w'
    | AssertionFailed => AssertionFailed
    | WaitsForever => WaitsForever
    end.

Notation "x <- c1 ;; c2" := (bind c1 (fun x => c2))
  (at level 100, c1 at next level, right associativity).
Notation "c1 ;;; c2" := (bind c1 (fun _ => c2))
  (at level 100, right associativity).

Definition modify (f : World -> World) : Op unit :=
  fun w => Returns tt (f w).

(** [Q_ASSERT(cond)] of a build with assertions *)
Definition Q_ASSERT (cond : World -> bool) : Op unit :=
  fun w => if cond w then Returns tt w else AssertionFailed.

(** [QThread::currentThread() != thread()] *)
Definition not_on_object_thread (w : World) : bool :=
  negb (Nat.eqb (current_thread w) (object_thread w)).

(** [reply->message()] *)
Definition message_of (reply : handle) : Op Message :=
  fun w => Returns (message (deref w reply)) w.

(** [reply->deleteLater()] *)
Definition deleteLater (reply : handle) : Op unit :=
  modify (with_deleted (fun l => l ++ [reply])).

(** ** The worker pool, as the client uses it *)

(** Modelled from the spec: [WorkerPool::SendMessageWithReply] is outside
    the file.  It creates and registers one reply for one ready worker;
    when no worker is ready the reply resolves at once as failed. *)
Definition SendMessageWithReply (m : Message) : Op handle :=
  fun w =>
    let h := length (heap w) in
    let w1 := with_pool_calls (fun l => l ++ [SendMessageCall m]) w in
    if Nat.eqb (ready_workers w) 0 then
      Returns h
        (emit_Finished h false
           (with_heap
              (fun hp => hp ++
                 [resolve false Message_empty (new_Reply m PlainReply)]) w1))
    else
      Returns h
        (with_pending (fun p => p ++ [h])
           (with_heap (fun hp => hp ++ [new_Reply m PlainReply]) w1)).

(** One pending reply per worker, in the order of the workers. *)
Fixpoint send_to_each (workers : nat) (m : Message) (w : World)
  : list handle * World :=
  match workers with
  | O => ([], w)
  | S n =>
      let h := length (heap w) in
      let w1 := with_pending (fun p => p ++ [h])
                  (with_heap (fun hp => hp ++ [new_Reply m PlainReply]) w) in
      let (hs, w2) := send_to_each n m w1 in
      (h :: hs, w2)
  end.

(** Modelled from the spec: [WorkerPool::BroadcastMessageWithReply] is
    outside the file.  It takes the workers that are ready now and sends
    the message to each of them, giving back one reply per worker. *)
Definition BroadcastMessageWithReply (m : Message) : Op (list handle) :=
  fun w =>
    let w1 := with_pool_calls (fun l => l ++ [BroadcastMessageCall m]) w in
    let (hs, w2) := send_to_each (ready_workers w) m w1 in
    Returns hs w2.

(** ** Waiting *)

Fixpoint WaitForSignal_loop (sender : handle) (es : list Event) (w : World)
  : Outcome unit :=
  match es with
  | [] => WaitsForever
  | e :: es' =>
      let w' := deliver e (with_future es' w) in
      if Nat.ltb (length (emitted_by sender w)) (length (emitted_by sender w'))
      then Returns tt w'
      else WaitForSignal_loop sender es' w'
  end.

(** Modelled from the spec: [WaitForSignal(sender, SIGNAL(Finished(bool)))]
    of [core/waitforsignal.h] is outside the file.  It suspends the caller,
    letting the environment go on, until [sender] emits the signal; an
    emission that happened before the wait began is not seen, and when the
    signal never comes the wait never ends. *)
Definition WaitForSignal (sender : handle) : Op unit :=
  fun w => WaitForSignal_loop sender (future w) w.

Fixpoint wait_resolved (reply : handle) (es : list Event) (w : World)
  : Outcome bool :=
  if is_finished (deref w reply) then
    Returns (is_successful (deref w reply)) w
  else
    match es with
    | [] => WaitsForever
    | e :: es' => wait_resolved reply es' (deliver e (with_future es' w))
    end.

(** Modelled from the spec: [TagReaderReply::WaitForFinished()] of the
    base class is outside the file.  It suspends the caller until the
    reply is resolved, at once when it already is, and reports whether the
    reply finished successfully. *)
Definition TagReaderReply_WaitForFinished (reply : handle) : Op bool :=
  fun w => wait_resolved reply (future w) w.

(** [BroadcastReply::WaitForFinished()] *)
Definition BroadcastReply_WaitForFinished (this : handle) : Op bool :=
  WaitForSignal this ;;;
  fun w => Returns (IsFinished w this) w.

(** [reply->WaitForFinished()]: the function is virtual. *)
Definition WaitForFinished (reply : handle) : Op bool :=
  fun w =>
    match kind (deref w reply) with
    | BroadcastReply _ => BroadcastReply_WaitForFinished reply w
    | PlainReply => TagReaderReply_WaitForFinished reply w
    end.

(** ** [class TagReaderClient] *)

(** [DataCommaSizeFromQString(s)]: the UTF-8 bytes of [s]; strings of the
    model are byte strings already. *)
Definition DataCommaSizeFromQString (s : string) : string := s.

(** [TagReaderClient::TagReaderClient(parent)]: the object lives on the
    thread that builds it. *)
Definition TagReaderClient_new : Op unit :=
  modify (fun w =>
    with_threads (current_thread w) (current_thread w)
      (with_client true true
         (with_pool_calls
            (fun l => l ++ [SetExecutableName kWorkerExecutableName;
                            SetWorkerCount idealThreadCount]) w))).

(** [TagReaderClient::Start()] *)
Definition Start : Op unit :=
  modify (with_pool_calls (fun l => l ++ [PoolStart])).

(** [TagReaderClient::ReadFile(filename)] *)
Definition ReadFile (filename : string) : Op handle :=
  let message :=
    set_read_file_request
      {| ReadFileRequest_filename := DataCommaSizeFromQString filename |}
      Message_empty in
  SendMessageWithReply message.

(** [TagReaderClient::SaveFile(filename, metadata)] *)
Definition SaveFile (filename : string) (metadata : Song) : Op handle :=
  let message :=
    set_save_file_request
      {| SaveFileRequest_filename := DataCommaSizeFromQString filename;
         SaveFileRequest_metadata := ToProtobuf metadata SongMetadata_default |}
      Message_empty in
  SendMessageWithReply message.

(** [TagReaderClient::UpdateSongStatistics(metadata)] *)
Definition UpdateSongStatistics (metadata : Song) : Op handle :=
  let message :=
    set_save_song_statistics_to_file_request
      {| SaveSongStatisticsToFileRequest_filename :=
           DataCommaSizeFromQString (url_toLocalFile metadata);
         SaveSongStatisticsToFileRequest_metadata :=
           ToProtobuf metadata SongMetadata_default |}
      Message_empty in
  SendMessageWithReply message.

(** [connect(reply, SIGNAL(Finished(bool)), reply, SLOT(deleteLater()))] *)
Definition connect_deleteLater (reply : handle) : Op unit :=
  modify (with_connections (fun cs => cs ++ [(reply, DeleteLater reply)])).

(** [TagReaderClient::UpdateSongsStatistics(songs)] *)
Fixpoint UpdateSongsStatistics (songs : list Song) : Op unit :=
  match songs with
  | [] => ret tt
  | song :: rest =>
      reply <- UpdateSongStatistics song ;;
      connect_deleteLater reply ;;;
      UpdateSongsStatistics rest
  end.

(** [TagReaderClient::UpdateSongRating(metadata)] *)
Definition UpdateSongRating (metadata : Song) : Op handle :=
  let message :=
    set_save_song_rating_to_file_request
      {| SaveSongRatingToFileRequest_filename :=
           DataCommaSizeFromQString (url_toLocalFile metadata);
         SaveSongRatingToFileRequest_metadata :=
           ToProtobuf metadata SongMetadata_default |}
      Message_empty in
  SendMessageWithReply message.

(** [TagReaderClient::UpdateSongsRating(songs)] *)
Fixpoint UpdateSongsRating (songs : list Song) : Op unit :=
  match songs with
  | [] => ret tt
  | song :: rest =>
      reply <- UpdateSongRating song ;;
      connect_deleteLater reply ;;;
      UpdateSongsRating rest
  end.

(** [TagReaderClient::IsMediaFile(filename)] *)
Definition IsMediaFile (filename : string) : Op handle :=
  let message :=
    set_is_media_file_request
      {| IsMediaFileRequest_filename := DataCommaSizeFromQString filename |}
      Message_empty in
  SendMessageWithReply message.

(** [TagReaderClient::LoadEmbeddedArt(filename)] *)
Definition LoadEmbeddedArt (filename : string) : Op handle :=
  let message :=
    set_load_embedded_art_request
      {| LoadEmbeddedArtRequest_filename := DataCommaSizeFromQString filename |}
      Message_empty in
  SendMessageWithReply message.

(** [TagReaderClient::ReadCloudFile(download_url, title, size, mime_type,
    authorisation_header)]; the url is given in its encoded form. *)
Definition ReadCloudFile (download_url_encoded title_ : string) (size_ : Z)
    (mime_type_ authorisation_header_ : string) : Op handle :=
  let url_string := download_url_encoded in
  let message :=
    set_read_cloud_file_request
      {| download_url := DataCommaSizeFromQString url_string;
         title := DataCommaSizeFromQString title_;
         size := size_;
         mime_type := DataCommaSizeFromQString mime_type_;
         authorisation_header :=
           DataCommaSizeFromQString authorisation_header_ |}
      Message_empty in
  SendMessageWithReply message.

(** [TagReaderClient::GetNetworkStatistics()] *)
Definition GetNetworkStatistics : Op handle :=
  let message :=
    set_network_statistics_request Build_NetworkStatisticsRequest
      Message_empty in
  replies <- BroadcastMessageWithReply message ;;
  fun w => let (this, w') := new_BroadcastReply message replies w in
           Returns this w'.

(** The two counters [GetNetworkStatisticsBlocking] keeps per host:
    [requests_by_host] is a [QMap<QString, int>] and
    [bytes_received_by_host] a [QMap<QString, qint64>]. *)
Definition count_request (host : string) (requests_by_host : gmap string Z)
  : gmap string Z :=
  match requests_by_host !! host with
  | Some n => <[host := to_int (n + 1)%Z]> requests_by_host
  | None => <[host := 1%Z]> requests_by_host
  end.

Definition add_bytes (host : string) (received : Z)
    (bytes_received_by_host : gmap string Z) : gmap string Z :=
  match bytes_received_by_host !! host with
  | Some b => <[host := to_qint64 (b + received)%Z]> bytes_received_by_host
  | None => <[host := to_qint64 received]> bytes_received_by_host
  end.

(** The body of the loop over [response.entry()]. *)
Definition aggregate_entry (acc : gmap string Z * gmap string Z) (e : Entry)
  : gmap string Z * gmap string Z :=
  let host := authority (url e) in
  (count_request host (fst acc), add_bytes host (bytes_received e) (snd acc)).

Definition aggregate (entries : list Entry) : gmap string Z * gmap string Z :=
  foldl aggregate_entry (∅, ∅) entries.

(** The loop that merges the responses of the member replies. *)
Definition merged_response (w : World) (rs : list handle)
  : NetworkStatisticsResponse :=
  foldl (fun response r =>
           MergeFrom response
             (network_statistics_response (message (deref w r))))
        {| entry := [] |} rs.

(** [TagReaderClient::GetNetworkStatisticsBlocking()] *)
Definition GetNetworkStatisticsBlocking : Op unit :=
  reply <- GetNetworkStatistics ;;
  BroadcastReply_WaitForFinished reply ;;;
  deleteLater reply ;;;
  fun w =>
    let response := merged_response w (replies w reply) in
    let stats := aggregate (entry response) in
    Returns tt
      (with_log (fun l => l ++ [LogRequests Debug (fst stats);
                                LogBytes Debug (snd stats)]) w).

(** [TagReaderClient::ReadFileBlocking(filename, song)]; the song behind
    the pointer is passed in and handed back. *)
Definition ReadFileBlocking (filename : string) (song : Song) : Op Song :=
  Q_ASSERT not_on_object_thread ;;;
  reply <- ReadFile filename ;;
  finished <- WaitForFinished reply ;;
  song' <- (if finished : bool then
              m <- message_of reply ;;
              ret (InitFromProtobuf
                     (ReadFileResponse_metadata (read_file_response m)) song)
            else ret song) ;;
  deleteLater reply ;;;
  ret song'.

(** [TagReaderClient::SaveFileBlocking(filename, metadata)] *)
Definition SaveFileBlocking (filename : string) (metadata : Song) : Op bool :=
  Q_ASSERT not_on_object_thread ;;;
  let ret0 := false in
  reply <- SaveFile filename metadata ;;
  finished <- WaitForFinished reply ;;
  ret1 <- (if finished : bool then
             m <- message_of reply ;;
             ret (SaveFileResponse_success (save_file_response m))
           else ret ret0) ;;
  deleteLater reply ;;;
  ret ret1.

(** [TagReaderClient::UpdateSongStatisticsBlocking(metadata)] *)
Definition UpdateSongStatisticsBlocking (metadata : Song) : Op bool :=
  Q_ASSERT not_on_object_thread ;;;
  let ret0 := false in
  reply <- UpdateSongStatistics metadata ;;
  finished <- WaitForFinished reply ;;
  ret1 <- (if finished : bool then
             m <- message_of reply ;;
             ret (SaveSongStatisticsToFileResponse_success
                    (save_song_statistics_to_file_response m))
           else ret ret0) ;;
  deleteLater reply ;;;
  ret ret1.

(** [TagReaderClient::UpdateSongRatingBlocking(metadata)] *)
Definition UpdateSongRatingBlocking (metadata : Song) : Op bool :=
  Q_ASSERT not_on_object_thread ;;;
  let ret0 := false in
  reply <- UpdateSongRating metadata ;;
  finished <- WaitForFinished reply ;;
  ret1 <- (if finished : bool then
             m <- message_of reply ;;
             ret (SaveSongRatingToFileResponse_success
                    (save_song_rating_to_file_response m))
           else ret ret0) ;;
  deleteLater reply ;;;
  ret ret1.

(** [TagReaderClient::IsMediaFileBlocking(filename)] *)
Definition IsMediaFileBlocking (filename : string) : Op bool :=
  Q_ASSERT not_on_object_thread ;;;
  let ret0 := false in
  reply <- IsMediaFile filename ;;
  finished <- WaitForFinished reply ;;
  ret1 <- (if finished : bool then
             m <- message_of reply ;;
             ret (IsMediaFileResponse_success (is_media_file_response m))
           else ret ret0) ;;
  deleteLater reply ;;;
  ret ret1.

(** [TagReaderClient::LoadEmbeddedArtBlocking(filename)] *)
Definition LoadEmbeddedArtBlocking (filename : string) : Op QImage :=
  Q_ASSERT not_on_object_thread ;;;
  let ret0 := QImage_null in
  reply <- LoadEmbeddedArt filename ;;
  finished <- WaitForFinished reply ;;
  ret1 <- (if finished : bool then
             m <- message_of reply ;;
             let data_str :=
               LoadEmbeddedArtResponse_data (load_embedded_art_response m) in
             ret (loadFromData data_str ret0)
           else ret ret0) ;;
  deleteLater reply ;;;
  ret ret1.

End TagReader.

Arguments Returns {Ext A} a w.
Arguments AssertionFailed {Ext A}.
Arguments WaitsForever {Ext A}.

Notation "x <- c1 ;; c2" := (bind c1 (fun x => c2))
  (at level 100, c1 at next level, right associativity).
Notation "c1 ;;; c2" := (bind c1 (fun _ => c2))
  (at level 100, right associativity).

(** ** Vocabulary of the properties *)

Section Vocabulary.

Context `{Ext : Externals}.

(** The entries whose url has authority [host], their number and the
    bytes they received together. *)
Definition entries_of (host : string) (entries : list Entry) : list Entry :=
  filter (fun e => authority (url e) = host) entries.

Definition request_count (host : string) (entries : list Entry) : Z :=
  Z.of_nat (length (entries_of host entries)).

Definition byte_count (host : string) (entries : list Entry) : Z :=
  foldr (fun e s => (bytes_received e + s)%Z) 0%Z (entries_of host entries).

(** All members of a list of replies are finished, or successful. *)
Definition all_finished (w : World) (ms : list handle) : bool :=
  forallb (fun r => is_finished (deref w r)) ms.

Definition all_successful (w : World) (ms : list handle) : bool :=
  forallb (fun r => is_successful (deref w r)) ms.

(** The value the closure of [this] hands to [Finished(bool)]. *)
Definition aggregate_success (w : World) (this : handle) : bool :=
  Nat.eqb (count_if w is_successful (replies w this)) (length (replies w this)).

(** Handles point into the heap: the pool waits for allocated replies
    only, closures belong to allocated broadcast replies, and only
    allocated replies have emitted a signal. *)
Record wf (w : World) : Prop := {
  wf_pending : forall h, h ∈ pending w -> h < length (heap w);
  wf_connections : forall s b,
    (s, MemberFinished b) ∈ connections w -> b < length (heap w);
  wf_emitted : forall h v, (h, v) ∈ emitted w -> h < length (heap w)
}.

(** What holds of the broadcast reply [this] over the members [ms] from
    its construction on, whatever the environment does. *)
Record broadcast_inv (this : handle) (ms : list handle) (w : World) : Prop := {
  inv_kind : kind (deref w this) = BroadcastReply ms;
  inv_nodup : NoDup ms;
  inv_valid : forall m, m ∈ ms -> m < length (heap w);
  inv_this : this ∉ pending w;
  inv_connections : forall s,
    length (filter (fun c => c = (s, MemberFinished this)) (connections w)) =
    length (filter (fun m => m = s) ms);
  inv_pending : forall m,
    m ∈ ms -> (m ∈ pending w <-> is_finished (deref w m) = false);
  inv_emitted :
    emitted_by this w =
    if all_finished w ms && negb (Nat.eqb (length ms) 0)
    then [all_successful w ms] else []
}.

(** The world [GetNetworkStatistics] leaves: one pending reply per ready
    worker, then the broadcast reply over them with its closures. *)
Definition broadcast_world (w : World) : World :=
  let n := ready_workers w in
  let message :=
    set_network_statistics_request Build_NetworkStatisticsRequest
      Message_empty in
  let hs := seq (length (heap w)) n in
  let this := length (heap w) + n in
  with_connections
    (fun cs => cs ++ map (fun r => (r, MemberFinished this)) hs)
    (with_heap (fun hp => hp ++ [new_Reply message (BroadcastReply hs)])
       (with_pending (fun p => p ++ hs)
          (with_heap
             (fun hp => hp ++ replicate n (new_Reply message PlainReply))
             (with_pool_calls
                (fun l => l ++ [BroadcastMessageCall message]) w)))).

(** The blocking form of a request, in the words of the design: check
    that the caller is not on the client's thread, issue the async form,
    wait for the reply, and when the wait reports success extract the
    result from the reply's message, starting from [init]; the reply is
    released afterwards. *)
Definition blocking_form {A : Type} (async : Op handle)
    (extract : Message -> A -> A) (init : A) : Op A :=
  Q_ASSERT not_on_object_thread ;;;
  reply <- async ;;
  finished <- WaitForFinished reply ;;
  result <- (if finished : bool then
               m <- message_of reply ;; ret (extract m init)
             else ret init) ;;
  deleteLater reply ;;;
  ret result.

(** No response for [h] is among the events [es]. *)
Definition no_response_for (h : handle) (es : list Event) : Prop :=
  forall ok resp, Resolved h ok resp ∉ es.

(** The request of the network statistics query: it has no argument. *)
Definition network_statistics_message : Message :=
  set_network_statistics_request Build_NetworkStatisticsRequest Message_empty.



(** The heap grew at its end only and no object changed its class or, for
    a broadcast reply, its member list. *)
Definition kinds_preserved (w w' : World) : Prop :=
  length (heap w) <= length (heap w') /\
  forall h, h < length (heap w) -> kind (deref w' h) = kind (deref w h).

(** Everything that can happen to a world: the environment delivers an
    event, another thread gets to run, or a member function of the
    client or of a reply is called and returns. *)
Inductive step : World -> World -> Prop :=
| step_deliver e w : step w (deliver e w)
| step_thread t w : step w (with_threads t (object_thread w) w)
| step_TagReaderClient_new w w' :
    TagReaderClient_new w = Returns tt w' -> step w w'
| step_Start w w' : Start w = Returns tt w' -> step w w'
| step_ReadFile filename w h w' :
    ReadFile filename w = Returns h w' -> step w w'
| step_SaveFile filename metadata w h w' :
    SaveFile filename metadata w = Returns h w' -> step w w'
| step_UpdateSongStatistics metadata w h w' :
    UpdateSongStatistics metadata w = Returns h w' -> step w w'
| step_UpdateSongsStatistics songs w w' :
    UpdateSongsStatistics songs w = Returns tt w' -> step w w'
| step_UpdateSongRating metadata w h w' :
    UpdateSongRating metadata w = Returns h w' -> step w w'
| step_UpdateSongsRating songs w w' :
    UpdateSongsRating songs w = Returns tt w' -> step w w'
| step_IsMediaFile filename w h w' :
    IsMediaFile filename w = Returns h w' -> step w w'
| step_LoadEmbeddedArt filename w h w' :
    LoadEmbeddedArt filename w = Returns h w' -> step w w'
| step_ReadCloudFile u t sz mt ah w h w' :
    ReadCloudFile u t sz mt ah w = Returns h w' -> step w w'
| step_GetNetworkStatistics w h w' :
    GetNetworkStatistics w = Returns h w' -> step w w'
| step_GetNetworkStatisticsBlocking w w' :
    GetNetworkStatisticsBlocking w = Returns tt w' -> step w w'
| step_ReadFileBlocking filename song w song' w' :
    ReadFileBlocking filename song w = Returns song' w' -> step w w'
| step_SaveFileBlocking filename metadata w b w' :
    SaveFileBlocking filename metadata w = Returns b w' -> step w w'
| step_UpdateSongStatisticsBlocking metadata w b w' :
    UpdateSongStatisticsBlocking metadata w = Returns b w' -> step w w'
| step_UpdateSongRatingBlocking metadata w b w' :
    UpdateSongRatingBlocking metadata w = Returns b w' -> step w w'
| step_IsMediaFileBlocking filename w b w' :
    IsMediaFileBlocking filename w = Returns b w' -> step w w'
| step_LoadEmbeddedArtBlocking filename w image w' :
    LoadEmbeddedArtBlocking filename w = Returns image w' -> step w w'
| step_WaitForFinished reply w b w' :
    WaitForFinished reply w = Returns b w' -> step w w'
| step_deleteLater reply w w' :
    deleteLater reply w = Returns tt w' -> step w w'.

(** Two worlds differ in their log at most. *)
Definition same_but_log (w w' : World) : Prop :=
  heap w' = heap w /\ pending w' = pending w /\
  connections w' = connections w /\ emitted w' = emitted w /\
  ready_workers w' = ready_workers w /\ pool_calls w' = pool_calls w /\
  slot_connected w' = slot_connected w /\ sInstance w' = sInstance w /\
  deleted w' = deleted w /\ future w' = future w /\
  current_thread w' = current_thread w /\ object_thread w' = object_thread w.

(** An operation that returns takes a world with the property [P] to a
    world with the property [P]. *)
Definition preserves {A : Type} (P : World -> Prop) (op : Op A) : Prop :=
  forall w a w', P w -> op w = Returns a w' -> P w'.

(** The sum of a weight [f] over a list of entries, and the values of a
    map of counters added up. *)
Definition entries_total (f : Entry -> Z) (entries : list Entry) : Z :=
  foldr (fun e s => (f e + s)%Z) 0%Z entries.

Definition counters_total (m : gmap string Z) : Z :=
  foldr (fun p s => (snd p + s)%Z) 0%Z (map_to_list m).

(** Two maps of counters merged: a host of both gets the sum, reduced to
    [bits] bits. *)
Definition merge_counters (bits : Z) (m1 m2 : gmap string Z) : gmap string Z :=
  union_with (fun a b => Some (wrap bits (a + b))) m1 m2.

(** How often [h] has been handed to [deleteLater()]. *)
Definition release_count (h : handle) (w : World) : nat :=
  length (filter (fun r => r = h) (deleted w)).

(** Every connected [deleteLater()] slot belongs to an object that is
    allocated. *)
Definition receivers_allocated (w : World) : Prop :=
  forall s r, (s, DeleteLater r) ∈ connections w -> r < length (heap w).

(** The receivers of the [deleteLater()] slots connected to the signal of
    [sender], in the order of the connections. *)
Definition released_on (sender : handle) (cs : list (handle * Slot))
  : list handle :=
  omap (fun c =>
          match snd c with
          | DeleteLater r =>
              if bool_decide (fst c = sender) then Some r else None
          | MemberFinished _ => None
          end) cs.

(** The requests [UpdateSongStatistics] and [UpdateSongRating] build for
    a song. *)
Definition song_statistics_request (metadata : Song) : Message :=
  set_save_song_statistics_to_file_request
    {| SaveSongStatisticsToFileRequest_filename :=
         DataCommaSizeFromQString (url_toLocalFile metadata);
       SaveSongStatisticsToFileRequest_metadata :=
         ToProtobuf metadata SongMetadata_default |}
    Message_empty.

Definition song_rating_request (metadata : Song) : Message :=
  set_save_song_rating_to_file_request
    {| SaveSongRatingToFileRequest_filename :=
         DataCommaSizeFromQString (url_toLocalFile metadata);
       SaveSongRatingToFileRequest_metadata :=
         ToProtobuf metadata SongMetadata_default |}
    Message_empty.

(** What a batch of [requests] leaves of the world [w]: one reply per
    request with the request in it, one single-worker send per request
    in the order of the batch, each reply connected to its own
    [deleteLater()], and nothing else touched: no event consumed, nothing
    released, nothing logged. *)
Record batch_sent (requests : list Message) (w w' : World) : Prop := {
  batch_heap : length (heap w') = length (heap w) + length requests;
  batch_requests : forall i m,
    requests !! i = Some m ->
    request_message (deref w' (length (heap w) + i)) = m /\
    kind (deref w' (length (heap w) + i)) = PlainReply;
  batch_old : forall h, h < length (heap w) -> deref w' h = deref w h;
  batch_pool_calls :
    pool_calls w' = pool_calls w ++ map SendMessageCall requests;
  batch_connections :
    connections w' =
    connections w ++
      map (fun h => (h, DeleteLater h))
          (seq (length (heap w)) (length requests));
  batch_pending :
    pending w' =
    pending w ++
      (if Nat.eqb (ready_workers w) 0 then []
       else seq (length (heap w)) (length requests));
  batch_ready_workers : ready_workers w' = ready_workers w;
  batch_future : future w' = future w;
  batch_deleted : deleted w' = deleted w;
  batch_log : log w' = log w;
  batch_threads :
    current_thread w' = current_thread w /\ object_thread w' = object_thread w
}.

(** What a blocking call that returns leaves of its own reply: one
    request was sent to a single worker, the one reply made for it was
    handed to [deleteLater()] exactly once, and nothing stays connected
    to it. *)
Definition releases_its_reply {A : Type} (op : Op A) (w : World) : Prop :=
  forall a w',
    op w = Returns a w' ->
    let reply := length (heap w) in
    (exists m, pool_calls w' = pool_calls w ++ [SendMessageCall m]) /\
    length (heap w') = S (length (heap w)) /\
    connections w' = connections w /\
    release_count reply w' = S (release_count reply w).

(** The event in which the response [a] for a reply arrives. *)
Definition Resolved_of (a : handle * (bool * Message)) : Event :=
  Resolved (fst a) (fst (snd a)) (snd (snd a)).

End Vocabulary.

(** ** Concrete inputs

    Worlds, events and messages over [plain_externals], on which the
    properties below are run. *)

Section Examples.

#[local] Existing Instance plain_externals.

(** The client is built on thread [0] and started, and three workers
    become ready. *)
Definition three_workers : World :=
  deliver_all [WorkerReady; WorkerReady; WorkerReady]
    (match (TagReaderClient_new ;;; Start) (initial_world 0 []) with
     | Returns _ w => w
     | _ => initial_world 0 []
     end).

(** The client is built and started, and no worker is ready. *)
Definition no_worker : World :=
  match (TagReaderClient_new ;;; Start) (initial_world 0 []) with
  | Returns _ w => w
  | _ => initial_world 0 []
  end.

Definition two_succeed_one_fails : list Event :=
  [Resolved 0 true Message_empty; Resolved 2 false Message_empty;
   Resolved 1 true Message_empty].

Definition example_entries : list Entry :=
  [ {| url := "http://a.com/x"; bytes_received := 100%Z |};
    {| url := "http://a.com/y"; bytes_received := 50%Z |};
    {| url := "http://b.com/z"; bytes_received := 10%Z |} ].

Definition overflowing_entries : list Entry :=
  [ {| url := "http://a.com/x"; bytes_received := (2 ^ 62)%Z |};
    {| url := "http://a.com/y"; bytes_received := (2 ^ 62)%Z |} ].

(** A response that carries one field. *)
Definition statistics_response (entries : list Entry) : Message :=
  {| opt_read_file_request := None; opt_read_file_response := None;
     opt_save_file_request := None; opt_save_file_response := None;
     opt_save_song_statistics_to_file_request := None;
     opt_save_song_statistics_to_file_response := None;
     opt_save_song_rating_to_file_request := None;
     opt_save_song_rating_to_file_response := None;
     opt_is_media_file_request := None; opt_is_media_file_response := None;
     opt_load_embedded_art_request := None;
     opt_load_embedded_art_response := None;
     opt_read_cloud_file_request := None;
     opt_network_statistics_request := None;
     opt_network_statistics_response := Some {| entry := entries |} |}.

Definition save_response (success : bool) : Message :=
  {| opt_read_file_request := None; opt_read_file_response := None;
     opt_save_file_request := None;
     opt_save_file_response := Some {| SaveFileResponse_success := success |};
     opt_save_song_statistics_to_file_request := None;
     opt_save_song_statistics_to_file_response := None;
     opt_save_song_rating_to_file_request := None;
     opt_save_song_rating_to_file_response := None;
     opt_is_media_file_request := None; opt_is_media_file_response := None;
     opt_load_embedded_art_request := None;
     opt_load_embedded_art_response := None;
     opt_read_cloud_file_request := None;
     opt_network_statistics_request := None;
     opt_network_statistics_response := None |}.

Definition read_response (metadata : string) : Message :=
  {| opt_read_file_request := None;
     opt_read_file_response := Some {| ReadFileResponse_metadata := metadata |};
     opt_save_file_request := None; opt_save_file_response := None;
     opt_save_song_statistics_to_file_request := None;
     opt_save_song_statistics_to_file_response := None;
     opt_save_song_rating_to_file_request := None;
     opt_save_song_rating_to_file_response := None;
     opt_is_media_file_request := None; opt_is_media_file_response := None;
     opt_load_embedded_art_request := None;
     opt_load_embedded_art_response := None;
     opt_read_cloud_file_request := None;
     opt_network_statistics_request := None;
     opt_network_statistics_response := None |}.

(** A caller on thread [1], with the response the worker will give. *)
Definition caller (response : Event) : World :=
  with_threads 1 0 (with_future [response] three_workers).

Definition a_song : Song := ("Old title", "/music/a.mp3").

(** The world a call leaves behind. *)
Definition world_of {A} (o : Outcome A) : World :=
  match o with
  | Returns _ w => w
  | _ => initial_world 0 []
  end.

(** Three answers to a statistics query, one per worker and in the order
    of the workers; the second worker's answer is a failure.  They arrive
    in another order. *)
Definition example_answers : list (bool * Message) :=
  [ (true, statistics_response (drop 1 example_entries));
    (false, statistics_response (take 1 example_entries));
    (true, statistics_response []) ].

Definition example_arrivals : list (handle * (bool * Message)) :=
  [ (1, (false, statistics_response (take 1 example_entries)));
    (0, (true, statistics_response (drop 1 example_entries)));
    (2, (true, statistics_response [])) ].

End Examples.

(** ** Properties *)

Section Properties.

Context `{Ext : Externals}.

(** *** Fixed-width arithmetic *)

Lemma wrap_add_l (bits x y : Z) :
  wrap bits (wrap bits x + y) = wrap bits (x + y).
Proof.
  unfold wrap. f_equal.
  replace ((x + 2 ^ (bits - 1)) `mod` 2 ^ bits - 2 ^ (bits - 1)
           + y + 2 ^ (bits - 1))%Z
    with ((x + 2 ^ (bits - 1)) `mod` 2 ^ bits + y)%Z by lia.
  rewrite Zplus_mod_idemp_l. f_equal. lia.
Qed.

Lemma wrap_in_range (bits x : Z) :
  (0 < bits)%Z ->
  (- 2 ^ (bits - 1) <= x < 2 ^ (bits - 1))%Z -> wrap bits x = x.
Proof.
  intros Hb Hx. unfold wrap.
  assert (2 ^ bits = 2 * 2 ^ (bits - 1))%Z as ->.
  { rewrite <- Z.pow_succ_r by lia. f_equal. lia. }
  rewrite Z.mod_small; lia.
Qed.

Lemma to_int_in_range (x : Z) :
  (- 2 ^ 31 <= x <= INT_MAX)%Z -> to_int x = x.
Proof.
  unfold INT_MAX. intros H. apply wrap_in_range; [lia|].
  change (32 - 1)%Z with 31%Z. lia.
Qed.

Lemma to_qint64_in_range (x : Z) :
  (INT64_MIN <= x <= INT64_MAX)%Z -> to_qint64 x = x.
Proof.
  unfold INT64_MIN, INT64_MAX. intros H. apply wrap_in_range; [lia|].
  change (64 - 1)%Z with 63%Z. lia.
Qed.

(** *** The aggregation of the network statistics *)

Lemma aggregate_snoc (es : list Entry) (e : Entry) :
  aggregate (es ++ [e]) = aggregate_entry (aggregate es) e.
Proof. unfold aggregate. by rewrite foldl_app. Qed.

Lemma byte_count_snoc (host : string) (es : list Entry) (e : Entry) :
  byte_count host (es ++ [e]) =
  if decide (authority (url e) = host)
  then (byte_count host es + bytes_received e)%Z else byte_count host es.
Proof.
  unfold byte_count, entries_of. rewrite filter_app.
  rewrite filter_cons, filter_nil.
  destruct (decide (authority (url e) = host)) as [Heq|Hne].
  - generalize (filter (fun e0 : Entry => authority (url e0) = host) es).
    intros l. induction l as [|x l IH]; simpl; [lia|]. rewrite IH. lia.
  - by rewrite app_nil_r.
Qed.

Lemma request_count_snoc (host : string) (es : list Entry) (e : Entry) :
  request_count host (es ++ [e]) =
  if decide (authority (url e) = host)
  then (request_count host es + 1)%Z else request_count host es.
Proof.
  unfold request_count, entries_of. rewrite filter_app, filter_cons, filter_nil.
  destruct (decide _); rewrite length_app; simpl; lia.
Qed.

Lemma request_count_bounds (host : string) (es : list Entry) :
  (0 <= request_count host es <= Z.of_nat (length es))%Z.
Proof.
  unfold request_count, entries_of.
  pose proof (length_filter (fun e => authority (url e) = host) es). lia.
Qed.

(** Whatever the entries are, the two maps hold the count and the sum of
    each host reduced to the width of their value type. *)
Lemma aggregate_lookup (entries : list Entry) (host : string) :
  fst (aggregate entries) !! host =
    (if decide (entries_of host entries = []) then None
     else Some (to_int (request_count host entries))) /\
  snd (aggregate entries) !! host =
    (if decide (entries_of host entries = []) then None
     else Some (to_qint64 (byte_count host entries))).
Proof.
  induction entries as [|e es IH] using rev_ind.
  - split; reflexivity.
  - rewrite aggregate_snoc, request_count_snoc, byte_count_snoc.
    destruct IH as [IHr IHb].
    unfold aggregate_entry, count_request, add_bytes; simpl.
    unfold entries_of in *. rewrite filter_app, filter_cons, filter_nil.
    destruct (decide (authority (url e) = host)) as [Heq|Hne].
    + subst host. rewrite IHr, IHb.
      destruct (decide (filter _ es = [])) as [Hnil|Hcons].
      * rewrite !lookup_insert_eq.
        unfold request_count, byte_count, entries_of. rewrite Hnil. simpl.
        split; reflexivity.
      * rewrite !lookup_insert_eq.
        rewrite !decide_False
          by (intros Habs; by apply app_eq_nil in Habs as [? ?]).
        unfold to_int, to_qint64. by rewrite !wrap_add_l.
    + rewrite app_nil_r.
      split.
      * destruct (fst (aggregate es) !! authority (url e));
          by rewrite lookup_insert_ne.
      * destruct (snd (aggregate es) !! authority (url e));
          by rewrite lookup_insert_ne.
Qed.

(** C2, amended.  When the merged response has at most [INT_MAX] entries
    and the bytes received for every authority add up to a value of
    [qint64], the aggregation of [GetNetworkStatisticsBlocking] gives
    every authority that occurs among the entries a request count equal
    to the number of its entries and a byte count equal to the sum of
    their [bytes_received], and gives an authority that does not occur
    no count at all. *)
Theorem aggregate_counts_and_sums (entries : list Entry) :
  (Z.of_nat (length entries) <= INT_MAX)%Z ->
  (forall host, INT64_MIN <= byte_count host entries <= INT64_MAX)%Z ->
  forall host,
    fst (aggregate entries) !! host =
      (if decide (entries_of host entries = []) then None
       else Some (request_count host entries)) /\
    snd (aggregate entries) !! host =
      (if decide (entries_of host entries = []) then None
       else Some (byte_count host entries)).
Proof.
  intros Hlen Hsum host.
  destruct (aggregate_lookup entries host) as [Hr Hb].
  rewrite Hr, Hb. destruct (decide _); [done|].
  rewrite to_qint64_in_range by apply Hsum.
  rewrite to_int_in_range; [done|].
  pose proof (request_count_bounds host entries). lia.
Qed.

(** *** The broadcast reply *)

Lemma count_if_length (w : World) (p : Reply -> bool) (l : list handle) :
  Nat.eqb (count_if w p l) (length l) = forallb (fun h => p (deref w h)) l.
Proof.
  unfold count_if. induction l as [|a l IH]; [done|].
  rewrite filter_cons. simpl. destruct (p (deref w a)) eqn:Hp; simpl.
  - exact IH.
  - pose proof (length_filter (fun h => p (deref w h)) l).
    apply Nat.eqb_neq. lia.
Qed.

Lemma deref_same_heap (w w' : World) (h : handle) :
  heap w' = heap w -> deref w' h = deref w h.
Proof. unfold deref. by intros ->. Qed.

Lemma replies_same_heap (w w' : World) (h : handle) :
  heap w' = heap w -> replies w' h = replies w h.
Proof. unfold replies. intros H. by rewrite (deref_same_heap _ _ _ H). Qed.

Lemma count_if_same_heap (w w' : World) p l :
  heap w' = heap w -> count_if w' p l = count_if w p l.
Proof. unfold count_if, deref. by intros ->. Qed.

Lemma IsFinished_same_heap (w w' : World) (h : handle) :
  heap w' = heap w -> IsFinished w' h = IsFinished w h.
Proof.
  intros H. unfold IsFinished.
  by rewrite (replies_same_heap _ _ _ H), (count_if_same_heap _ _ _ _ H).
Qed.

Lemma emitted_by_emit (this h : handle) (v : bool) (w : World) :
  emitted_by this (emit_Finished h v w) =
  emitted_by this w ++ (if decide (h = this) then [v] else []).
Proof.
  unfold emitted_by, emit_Finished. simpl.
  rewrite filter_app, map_app. f_equal.
  rewrite filter_cons, filter_nil. simpl.
  destruct (decide (h = this)) as [->|Hne].
  - rewrite decide_True; [done|]. by apply bool_decide_pack.
  - rewrite decide_False; [done|]. intros H. by apply bool_decide_unpack in H.
Qed.

Lemma run_slot_frame (s : Slot) (w : World) :
  heap (run_slot s w) = heap w /\ pending (run_slot s w) = pending w /\
  connections (run_slot s w) = connections w.
Proof.
  destruct s; simpl; [|done]. unfold member_finished.
  by destruct (IsFinished w this).
Qed.

Lemma run_slot_emitted (this : handle) (s : Slot) (w : World) :
  emitted_by this (run_slot s w) =
  emitted_by this w ++
    (if decide (s = MemberFinished this)
     then (if IsFinished w this then [aggregate_success w this] else [])
     else []).
Proof.
  destruct s as [b|r]; simpl.
  - unfold member_finished.
    destruct (decide (MemberFinished b = MemberFinished this)) as [Heq|Hne].
    + inversion Heq; subst b. destruct (IsFinished w this); [|by rewrite app_nil_r].
      rewrite emitted_by_emit. by rewrite decide_True.
    + destruct (IsFinished w b); [|by rewrite app_nil_r].
      rewrite emitted_by_emit. rewrite decide_False; [done|congruence].
  - by rewrite app_nil_r.
Qed.

Lemma run_slots_aux (this sender : handle) (cs : list (handle * Slot))
    (w : World) :
  let w' := foldl (fun w' c =>
           if bool_decide (fst c = sender) then run_slot (snd c) w' else w')
        w cs in
  heap w' = heap w /\ pending w' = pending w /\
  connections w' = connections w /\
  emitted_by this w' =
    emitted_by this w ++
      (if IsFinished w this
       then replicate
              (length (filter (fun c => c = (sender, MemberFinished this)) cs))
              (aggregate_success w this)
       else []).
Proof.
  revert w. induction cs as [|[s sl] cs IH]; intros w.
  - simpl. repeat split; try done.
    destruct (IsFinished w this); by rewrite app_nil_r.
  - rewrite filter_cons. cbn [foldl fst snd].
    case_bool_decide as Hs.
    + subst s.
      destruct (run_slot_frame sl w) as (Hh & Hp & Hc).
      destruct (IH (run_slot sl w)) as (Hh' & Hp' & Hc' & He').
      repeat split; try congruence.
      rewrite He', run_slot_emitted.
      rewrite (IsFinished_same_heap _ _ _ Hh).
      unfold aggregate_success.
      rewrite (replies_same_heap _ _ _ Hh), (count_if_same_heap _ _ _ _ Hh).
      destruct (decide (sl = MemberFinished this)) as [->|Hne].
      * rewrite decide_True by done.
        destruct (IsFinished w this); simpl;
          [by rewrite <- app_assoc | by rewrite !app_nil_r].
      * rewrite decide_False by congruence. by rewrite app_nil_r.
    + rewrite decide_False by congruence. apply IH.
Qed.

Lemma run_slots_spec (this sender : handle) (w : World) :
  heap (run_slots sender w) = heap w /\
  pending (run_slots sender w) = pending w /\
  connections (run_slots sender w) = connections w /\
  emitted_by this (run_slots sender w) =
    emitted_by this w ++
      (if IsFinished w this
       then replicate
              (length (filter (fun c => c = (sender, MemberFinished this))
                              (connections w)))
              (aggregate_success w this)
       else []).
Proof. apply run_slots_aux. Qed.

Lemma broadcast_inv_frame (this : handle) (ms : list handle) (w w' : World) :
  heap w' = heap w -> pending w' = pending w ->
  connections w' = connections w -> emitted w' = emitted w ->
  broadcast_inv this ms w -> broadcast_inv this ms w'.
Proof.
  intros Hh Hp Hc He [].
  split; unfold all_finished, all_successful, emitted_by, deref in *;
    rewrite ?Hh, ?Hp, ?Hc, ?He; done.
Qed.

Lemma NoDup_count (ms : list handle) (s : handle) :
  NoDup ms ->
  length (filter (fun m => m = s) ms) = if decide (s ∈ ms) then 1 else 0.
Proof.
  induction 1 as [|m ms Hm Hnd IH]; [done|].
  rewrite filter_cons. destruct (decide (m = s)) as [->|Hne].
  - simpl. rewrite IH. rewrite decide_False by done.
    rewrite decide_True by left. done.
  - rewrite IH. destruct (decide (s ∈ ms)) as [Hin|Hnin].
    + rewrite decide_True by (by right). done.
    + rewrite decide_False; [done|]. intros [->|?]%elem_of_cons; done.
Qed.

Lemma deref_alter_ne (w w' : World) (f : Reply -> Reply) (h m : handle) :
  heap w' = alter f h (heap w) -> m <> h -> deref w' m = deref w m.
Proof.
  intros Hh Hne. unfold deref. rewrite Hh.
  by rewrite list_lookup_alter_ne.
Qed.

Lemma deref_alter_eq (w w' : World) (f : Reply -> Reply) (h : handle) :
  heap w' = alter f h (heap w) -> h < length (heap w) ->
  deref w' h = f (deref w h).
Proof.
  intros Hh Hlt. unfold deref. rewrite Hh, list_lookup_alter_eq.
  destruct (lookup_lt_is_Some_2 _ _ Hlt) as [r Hr]. by rewrite Hr.
Qed.

Lemma deref_alloc (w w' : World) (r : Reply) :
  heap w' = heap w ++ [r] -> deref w' (length (heap w)) = r.
Proof.
  intros Hh. unfold deref. rewrite Hh.
  rewrite lookup_app_r by lia. by rewrite Nat.sub_diag.
Qed.

Lemma forallb_deref_ext (w w' : World) (p : Reply -> bool) (ms : list handle) :
  (forall m, m ∈ ms -> deref w' m = deref w m) ->
  forallb (fun r => p (deref w' r)) ms = forallb (fun r => p (deref w r)) ms.
Proof.
  induction ms as [|m ms IH]; intros H; [done|]. simpl.
  rewrite H by left. rewrite IH; [done|]. intros; apply H. by right.
Qed.

Lemma IsFinished_all (w : World) (this : handle) (ms : list handle) :
  kind (deref w this) = BroadcastReply ms ->
  IsFinished w this = all_finished w ms.
Proof.
  intros Hk. unfold IsFinished, replies. rewrite Hk. apply count_if_length.
Qed.

Lemma aggregate_success_all (w : World) (this : handle) (ms : list handle) :
  kind (deref w this) = BroadcastReply ms ->
  aggregate_success w this = all_successful w ms.
Proof.
  intros Hk. unfold aggregate_success, replies. rewrite Hk.
  apply count_if_length.
Qed.

Lemma deliver_resolved (h : handle) (ok : bool) (resp : Message) (w : World) :
  h ∈ pending w ->
  deliver (Resolved h ok resp) w =
  run_slots h
    (emit_Finished h ok
       (with_pending (filter (fun p => p <> h))
          (with_heap (alter (resolve ok resp) h) w))).
Proof. intros Hin. simpl. by rewrite bool_decide_eq_true_2. Qed.

Lemma deliver_stale (h : handle) (ok : bool) (resp : Message) (w : World) :
  h ∉ pending w -> deliver (Resolved h ok resp) w = w.
Proof. intros Hin. simpl. by rewrite bool_decide_eq_false_2. Qed.

Lemma deliver_resolved_fields (h : handle) (ok : bool) (resp : Message)
    (w : World) :
  h ∈ pending w ->
  let w' := deliver (Resolved h ok resp) w in
  heap w' = alter (resolve ok resp) h (heap w) /\
  pending w' = filter (fun p => p <> h) (pending w) /\
  connections w' = connections w.
Proof.
  intros Hin w'. subst w'. rewrite deliver_resolved by done.
  match goal with |- context [run_slots h ?x] =>
    destruct (run_slots_spec 0 h x) as (Hh & Hp & Hc & _) end.
  rewrite Hh, Hp, Hc. done.
Qed.

Lemma deliver_broadcast_inv (this : handle) (ms : list handle) (e : Event)
    (w : World) :
  broadcast_inv this ms w -> broadcast_inv this ms (deliver e w).
Proof.
  intros Hinv. destruct e as [h ok resp| |].
  2: { by apply (broadcast_inv_frame this ms w). }
  2: { simpl. destruct (slot_connected w); [|done].
       by apply (broadcast_inv_frame this ms w). }
  destruct (decide (h ∈ pending w)) as [Hin|Hnin].
  2: { by rewrite deliver_stale. }
  destruct (deliver_resolved_fields h ok resp w Hin) as (Hh & Hp & Hc).
  destruct Hinv as [Hk Hnd Hv Ht Hcs Hpd Hem].
  assert (this <> h) as Hth by (intros ->; done).
  set (w' := deliver (Resolved h ok resp) w) in *.
  assert (forall m, m <> h -> deref w' m = deref w m)
    as Hne by (intros m Hm; by apply (deref_alter_ne _ _ _ _ _ Hh)).
  assert (Hk' : kind (deref w' this) = BroadcastReply ms)
    by (rewrite Hne; done).
  split.
  - done.
  - done.
  - intros m Hm. rewrite Hh, length_alter. by apply Hv.
  - rewrite Hp. intros [? ?]%list_elem_of_filter. done.
  - intros s. rewrite Hc. apply Hcs.
  - intros m Hm. rewrite Hp, list_elem_of_filter.
    destruct (decide (m = h)) as [->|Hmh].
    + rewrite (deref_alter_eq _ _ _ _ Hh) by (by apply Hv).
      simpl. split; [intros [? ?]; done|done].
    + rewrite Hne by done. rewrite <- Hpd by done. tauto.
  - pose proof (deliver_resolved h ok resp w Hin) as Hd. fold w' in Hd.
    match type of Hd with _ = run_slots h ?x => set (w3 := x) in * end.
    destruct (run_slots_spec this h w3) as (Hh3 & _ & _ & He3).
    rewrite <- Hd in Hh3, He3.
    rewrite He3. unfold w3 at 1. rewrite emitted_by_emit.
    rewrite decide_False by congruence. rewrite app_nil_r.
    change (emitted_by this (with_pending _ (with_heap _ w)))
      with (emitted_by this w).
    change (connections w3) with (connections w). rewrite Hcs.
    rewrite (NoDup_count ms h Hnd).
    assert (Hk3 : kind (deref w3 this) = BroadcastReply ms).
    { rewrite <- (deref_same_heap w3 _ _ Hh3). exact Hk'. }
    rewrite (IsFinished_all _ _ _ Hk3), (aggregate_success_all _ _ _ Hk3).
    unfold all_finished, all_successful in *.
    rewrite !(forallb_deref_ext w3 w')
      by (intros; by apply deref_same_heap).
    destruct (decide (h ∈ ms)) as [Hhm|Hhm].
    + assert (forallb (fun r => is_finished (deref w r)) ms = false) as Hold.
      { apply not_true_is_false. intros Hall.
        rewrite forallb_forall in Hall.
        apply Hpd in Hin; [|done].
        rewrite Hall in Hin; [done|]. by apply list_elem_of_In. }
      rewrite Hem, Hold. simpl.
      assert (negb (Nat.eqb (length ms) 0) = true) as ->.
      { destruct ms; [by apply elem_of_nil in Hhm|done]. }
      rewrite andb_true_r. by destruct (forallb _ ms).
    + assert (forall m, m ∈ ms -> deref w3 m = deref w m) as Hsame.
      { intros m Hm. apply (deref_alter_ne w w3 (resolve ok resp) h); [done|].
        intros ->; done. }
      rewrite !(forallb_deref_ext w w3) by done.
      rewrite Hem.
      destruct (forallb _ ms); simpl; by rewrite ?app_nil_r.
Qed.

Lemma send_to_each_spec (n : nat) (m : Message) (w : World) :
  send_to_each n m w =
  (seq (length (heap w)) n,
   with_pending (fun p => p ++ seq (length (heap w)) n)
     (with_heap (fun hp => hp ++ replicate n (new_Reply m PlainReply)) w)).
Proof.
  revert w. induction n as [|n IH]; intros w.
  - simpl. f_equal. destruct w; unfold with_pending, with_heap; simpl.
    by rewrite !app_nil_r.
  - cbn [send_to_each]. rewrite IH. cbn [with_pending with_heap heap pending].
    rewrite length_app. simpl.
    replace (length (heap w) + 1) with (S (length (heap w))) by lia.
    f_equal. unfold with_pending, with_heap; simpl.
    rewrite <- !app_assoc. done.
Qed.

Lemma GetNetworkStatistics_spec (w : World) :
  GetNetworkStatistics w =
  Returns (length (heap w) + ready_workers w) (broadcast_world w).
Proof.
  unfold GetNetworkStatistics, bind, BroadcastMessageWithReply.
  rewrite send_to_each_spec. cbn [with_pool_calls heap ready_workers].
  unfold new_BroadcastReply. cbn [with_pending with_heap heap].
  rewrite length_app, length_replicate. done.
Qed.

Lemma filter_map_member (this s : handle) (hs : list handle) :
  length (filter (fun c => c = (s, MemberFinished this))
                 (map (fun r => (r, MemberFinished this)) hs)) =
  length (filter (fun m => m = s) hs).
Proof.
  induction hs as [|h hs IH]; [done|].
  cbn [map]. rewrite !filter_cons.
  destruct (decide (h = s)) as [->|Hne].
  - rewrite decide_True by done. simpl. by rewrite IH.
  - rewrite decide_False by congruence. exact IH.
Qed.

Lemma filter_none {A} (P : A -> Prop) `{forall x, Decision (P x)} (l : list A) :
  (forall x, x ∈ l -> ~ P x) -> filter P l = [].
Proof.
  induction l as [|x l IH]; intros Hl; [done|].
  rewrite filter_cons, decide_False by (apply Hl; left).
  apply IH. intros y Hy. apply Hl. by right.
Qed.

Lemma deref_new_member (w : World) (m : handle) :
  length (heap w) <= m < length (heap w) + ready_workers w ->
  deref (broadcast_world w) m =
  new_Reply (set_network_statistics_request Build_NetworkStatisticsRequest
               Message_empty) PlainReply.
Proof.
  intros Hm. unfold deref, broadcast_world.
  cbn [with_connections with_heap with_pending with_pool_calls heap].
  rewrite lookup_app_l by (rewrite length_app, length_replicate; lia).
  rewrite lookup_app_r by lia.
  rewrite lookup_replicate_2 by lia. done.
Qed.

Lemma deref_new_broadcast (w : World) :
  deref (broadcast_world w) (length (heap w) + ready_workers w) =
  new_Reply (set_network_statistics_request Build_NetworkStatisticsRequest
               Message_empty)
            (BroadcastReply (seq (length (heap w)) (ready_workers w))).
Proof.
  unfold deref, broadcast_world.
  cbn [with_connections with_heap with_pending with_pool_calls heap].
  rewrite lookup_app_r by (rewrite length_app, length_replicate; lia).
  rewrite length_app, length_replicate, Nat.sub_diag. done.
Qed.

Lemma broadcast_world_inv (w : World) :
  wf w ->
  broadcast_inv (length (heap w) + ready_workers w)
                (seq (length (heap w)) (ready_workers w)) (broadcast_world w).
Proof.
  intros [Hp Hc He].
  set (n := ready_workers w). set (a := length (heap w)).
  assert (Hlen : length (heap (broadcast_world w)) = a + n + 1).
  { unfold broadcast_world.
    cbn [with_connections with_heap with_pending with_pool_calls heap].
    rewrite !length_app, length_replicate. simpl. done. }
  assert (Hunf : forall m, m ∈ seq a n ->
            is_finished (deref (broadcast_world w) m) = false).
  { intros m Hm%elem_of_seq. rewrite deref_new_member by (fold a n; lia). done. }
  split.
  - by rewrite deref_new_broadcast.
  - apply NoDup_seq.
  - intros m Hm%elem_of_seq. lia.
  - cbn. intros [Hin|Hin%elem_of_seq]%elem_of_app; [|lia].
    apply Hp in Hin. fold a in Hin. lia.
  - intros s. cbn. rewrite filter_app, length_app.
    fold a n. rewrite filter_map_member.
    assert (filter (fun c => c = (s, MemberFinished (a + n))) (connections w) = [])
      as ->; [|done].
    apply filter_none. intros [s' sl] Hin Heq. inversion Heq; subst s' sl.
    apply Hc in Hin. fold a in Hin. lia.
  - intros m Hm. rewrite (Hunf m Hm). split; [done|intros _].
    cbn. apply elem_of_app. by right.
  - assert (emitted_by (a + n) (broadcast_world w) = []) as ->.
    { unfold emitted_by. cbn. rewrite filter_none; [done|].
      intros [h v] Hin Hb. apply bool_decide_unpack in Hb. simpl in Hb. subst h.
      apply He in Hin. fold a in Hin. lia. }
    destruct n as [|n]; [by rewrite andb_false_r|].
    assert (all_finished (broadcast_world w) (seq a (S n)) = false) as ->; [|done].
    simpl. rewrite Hunf; [done|]. apply elem_of_seq. lia.
Qed.

Lemma deliver_all_snoc (es : list Event) (e : Event) (w : World) :
  deliver_all (es ++ [e]) w = deliver e (deliver_all es w).
Proof. unfold deliver_all. by rewrite foldl_app. Qed.

Lemma deliver_all_broadcast_inv (this : handle) (ms : list handle)
    (es : list Event) (w : World) :
  broadcast_inv this ms w -> broadcast_inv this ms (deliver_all es w).
Proof.
  revert w. induction es as [|e es IH]; intros w Hinv; [done|].
  simpl. apply IH. by apply deliver_broadcast_inv.
Qed.

Lemma all_finished_spec (w : World) (ms : list handle) :
  all_finished w ms = true <->
  forall r, r ∈ ms -> is_finished (deref w r) = true.
Proof.
  unfold all_finished. rewrite forallb_forall.
  split; intros H r Hr; apply H; by apply list_elem_of_In.
Qed.

Lemma deliver_finished_mono (e : Event) (w : World) (r : handle) :
  is_finished (deref w r) = true -> is_finished (deref (deliver e w) r) = true.
Proof.
  intros Hf. destruct e as [h ok resp| |]; [|done|].
  - destruct (decide (h ∈ pending w)) as [Hin|Hnin];
      [|by rewrite deliver_stale].
    destruct (deliver_resolved_fields h ok resp w Hin) as (Hh & _ & _).
    unfold deref in *. rewrite Hh.
    destruct (decide (h = r)) as [->|Hne].
    + rewrite list_lookup_alter_eq. by destruct (heap w !! r).
    + by rewrite list_lookup_alter_ne.
  - simpl. by destruct (slot_connected w).
Qed.

Lemma deliver_deref_not_pending (e : Event) (w : World) (r : handle) :
  r ∉ pending w -> deref (deliver e w) r = deref w r.
Proof.
  intros Hr. destruct e as [h ok resp| |]; [|done|].
  - destruct (decide (h ∈ pending w)) as [Hin|Hnin];
      [|by rewrite deliver_stale].
    destruct (deliver_resolved_fields h ok resp w Hin) as (Hh & _ & _).
    apply (deref_alter_ne _ _ _ _ _ Hh). by intros ->.
  - simpl. by destruct (slot_connected w).
Qed.

Lemma WaitForSignal_loop_no_member (this : handle) (es : list Event)
    (w : World) :
  broadcast_inv this [] w -> WaitForSignal_loop this es w = WaitsForever.
Proof.
  revert w. induction es as [|e es IH]; intros w Hinv; [done|].
  cbn [WaitForSignal_loop].
  assert (broadcast_inv this [] (deliver e (with_future es w))) as Hinv'.
  { apply deliver_broadcast_inv. by apply (broadcast_inv_frame this [] w). }
  rewrite (inv_emitted _ _ _ Hinv), (inv_emitted _ _ _ Hinv').
  rewrite !andb_false_r. cbn [length Nat.ltb Nat.leb].
  by apply IH.
Qed.

Lemma new_BroadcastReply_empty_inv (request : Message) (w : World) :
  wf w ->
  broadcast_inv (length (heap w)) []
                (snd (new_BroadcastReply request [] w)).
Proof.
  intros [Hp Hc He]. cbn [new_BroadcastReply snd map].
  set (w0 := with_connections _ _).
  assert (Hd : deref w0 (length (heap w)) =
               new_Reply request (BroadcastReply [])).
  { by erewrite (deref_alloc w); [|reflexivity]. }
  split.
  - by rewrite Hd.
  - apply NoDup_nil_2.
  - intros m Hm. by apply elem_of_nil in Hm.
  - cbn. intros Hin%Hp. lia.
  - intros s. cbn. rewrite app_nil_r, filter_none; [done|].
    intros [s' sl] Hin Heq. inversion Heq; subst s' sl.
    apply Hc in Hin. lia.
  - intros m Hm. by apply elem_of_nil in Hm.
  - cbn [all_finished forallb length Nat.eqb negb andb].
    unfold emitted_by. cbn. rewrite filter_none; [done|].
    intros [h v] Hin Hb. apply bool_decide_unpack in Hb. simpl in Hb. subst h.
    apply He in Hin. lia.
Qed.

Lemma blocking_form_on_object_thread {A} (async : Op handle)
    (extract : Message -> A -> A) (init : A) (w : World) :
  current_thread w = object_thread w ->
  blocking_form async extract init w = AssertionFailed.
Proof.
  intros Heq. unfold blocking_form, bind, Q_ASSERT, not_on_object_thread.
  by rewrite Heq, Nat.eqb_refl.
Qed.

Lemma blocking_form_returns {A} (async : Op handle)
    (extract : Message -> A -> A) (init : A)
    (w w1 w2 : World) (reply : handle) (finished : bool) :
  not_on_object_thread w = true ->
  async w = Returns reply w1 ->
  WaitForFinished reply w1 = Returns finished w2 ->
  blocking_form async extract init w =
  Returns (if finished then extract (message (deref w2 reply)) init else init)
          (with_deleted (fun l => l ++ [reply]) w2).
Proof.
  intros Hthread Hasync Hwait.
  unfold blocking_form, bind, Q_ASSERT. rewrite Hthread, Hasync, Hwait.
  by destruct finished.
Qed.

Lemma run_slots_proj {B} (proj : World -> B) (sender : handle) (w : World) :
  (forall s w1, proj (run_slot s w1) = proj w1) ->
  proj (run_slots sender w) = proj w.
Proof.
  intros Hslot. unfold run_slots. generalize (connections w).
  intros cs. revert w. induction cs as [|c cs IH]; intros w; [done|].
  cbn [foldl]. rewrite IH. case_bool_decide; [apply Hslot|done].
Qed.

Lemma run_slot_future (s : Slot) (w : World) :
  future (run_slot s w) = future w.
Proof.
  destruct s; simpl; [|done]. unfold member_finished.
  by destruct (IsFinished w this).
Qed.

Lemma deliver_future (e : Event) (w : World) :
  future (deliver e w) = future w.
Proof.
  destruct e as [h ok resp| |]; simpl.
  - case_bool_decide; [|done].
    by rewrite (run_slots_proj future) by apply run_slot_future.
  - done.
  - by destruct (slot_connected w).
Qed.

Lemma deliver_length (e : Event) (w : World) :
  length (heap (deliver e w)) = length (heap w).
Proof.
  destruct e as [h ok resp| |]; [|done|].
  - destruct (decide (h ∈ pending w)) as [Hin|Hnin];
      [|by rewrite deliver_stale].
    destruct (deliver_resolved_fields h ok resp w Hin) as (Hh & _ & _).
    by rewrite Hh, length_alter.
  - simpl. by destruct (slot_connected w).
Qed.

Lemma deliver_other (e : Event) (h : handle) (w : World) :
  no_response_for h [e] -> h ∈ pending w ->
  h ∈ pending (deliver e w) /\ deref (deliver e w) h = deref w h.
Proof.
  intros Hno Hin. destruct e as [h' ok resp| |]; [|done|].
  - assert (h' <> h) as Hne.
    { intros ->. apply (Hno ok resp). by left. }
    destruct (decide (h' ∈ pending w)) as [Hin'|Hnin];
      [|by rewrite deliver_stale].
    destruct (deliver_resolved_fields h' ok resp w Hin') as (Hh & Hp & _).
    split.
    + rewrite Hp. apply list_elem_of_filter. split; [congruence|done].
    + by apply (deref_alter_ne _ _ _ _ _ Hh).
  - simpl. by destruct (slot_connected w).
Qed.

(** The wait on a pending reply lets the environment run until the
    response for the reply arrives. *)
Lemma wait_resolved_arrives (h : handle) (ok : bool) (resp : Message)
    (es1 es2 : list Event) (w : World) :
  h ∈ pending w -> h < length (heap w) ->
  is_finished (deref w h) = false ->
  no_response_for h es1 ->
  exists w',
    wait_resolved h (es1 ++ Resolved h ok resp :: es2) w = Returns ok w' /\
    message (deref w' h) = resp /\ future w' = es2.
Proof.
  revert w. induction es1 as [|e es1 IH]; intros w Hin Hlt Hunf Hno.
  - cbn [app wait_resolved]. rewrite Hunf.
    set (w1 := with_future es2 w).
    assert (Hin1 : h ∈ pending w1) by done.
    destruct (deliver_resolved_fields h ok resp w1 Hin1) as (Hh & _ & _).
    pose proof (deref_alter_eq w1 _ _ h Hh Hlt) as Hd.
    exists (deliver (Resolved h ok resp) w1). split; [|split].
    + destruct es2; cbn [wait_resolved]; rewrite Hd; done.
    + by rewrite Hd.
    + by rewrite deliver_future.
  - cbn [app wait_resolved]. rewrite Hunf.
    set (w1 := with_future (es1 ++ Resolved h ok resp :: es2) w).
    assert (Hin1 : h ∈ pending w1) by done.
    assert (Hno1 : no_response_for h [e]).
    { intros ok' resp' Hel. apply (Hno ok' resp').
      apply list_elem_of_singleton in Hel as ->. by left. }
    destruct (deliver_other e h w1 Hno1 Hin1) as (Hin2 & Hd2).
    apply IH.
    + done.
    + by rewrite deliver_length.
    + by rewrite Hd2.
    + intros ok' resp' Hel. apply (Hno ok' resp'). by right.
Qed.

Lemma SendMessageWithReply_ready (m : Message) (w : World) :
  ready_workers w <> 0 ->
  SendMessageWithReply m w =
  Returns (length (heap w))
    (with_pending (fun p => p ++ [length (heap w)])
       (with_heap (fun hp => hp ++ [new_Reply m PlainReply])
          (with_pool_calls (fun l => l ++ [SendMessageCall m]) w))).
Proof.
  intros Hr. unfold SendMessageWithReply.
  by rewrite (proj2 (Nat.eqb_neq _ _) Hr).
Qed.

Lemma SendMessageWithReply_not_ready (m : Message) (w : World) :
  ready_workers w = 0 ->
  SendMessageWithReply m w =
  Returns (length (heap w))
    (emit_Finished (length (heap w)) false
       (with_heap
          (fun hp => hp ++ [resolve false Message_empty (new_Reply m PlainReply)])
          (with_pool_calls (fun l => l ++ [SendMessageCall m]) w))).
Proof. intros Hr. unfold SendMessageWithReply. by rewrite Hr. Qed.

(** End to end: a worker is ready and its response arrives. *)
Lemma blocking_form_answered {A} (m : Message)
    (extract : Message -> A -> A) (init : A)
    (w : World) (ok : bool) (resp : Message) (es1 es2 : list Event) :
  not_on_object_thread w = true ->
  ready_workers w <> 0 ->
  future w = es1 ++ Resolved (length (heap w)) ok resp :: es2 ->
  no_response_for (length (heap w)) es1 ->
  exists w',
    blocking_form (SendMessageWithReply m) extract init w =
    Returns (if ok then extract resp init else init) w'.
Proof.
  intros Hthread Hready Hfut Hno.
  set (h := length (heap w)) in *.
  pose proof (SendMessageWithReply_ready m w Hready) as Hsend. fold h in Hsend.
  match type of Hsend with _ = Returns _ ?x => set (w1 := x) in * end.
  assert (Hd : deref w1 h = new_Reply m PlainReply) by (by apply deref_alloc).
  destruct (wait_resolved_arrives h ok resp es1 es2 w1) as (w2 & Hwait & Hmsg & _).
  { cbn. apply elem_of_app. right. by left. }
  { cbn. rewrite length_app. simpl. lia. }
  { by rewrite Hd. }
  { done. }
  assert (Hw : WaitForFinished h w1 = Returns ok w2).
  { unfold WaitForFinished. rewrite Hd. cbn [kind new_Reply].
    unfold TagReaderReply_WaitForFinished.
    change (future w1) with (future w). by rewrite Hfut. }
  eexists. rewrite (blocking_form_returns _ _ _ w w1 w2 h ok Hthread Hsend Hw).
  by rewrite Hmsg.
Qed.

(** End to end: no worker is ready; nothing is waited for. *)
Lemma blocking_form_no_worker {A} (m : Message)
    (extract : Message -> A -> A) (init : A) (w : World) :
  not_on_object_thread w = true ->
  ready_workers w = 0 ->
  exists w',
    blocking_form (SendMessageWithReply m) extract init w = Returns init w' /\
    future w' = future w.
Proof.
  intros Hthread Hready.
  set (h := length (heap w)) in *.
  pose proof (SendMessageWithReply_not_ready m w Hready) as Hsend. fold h in Hsend.
  match type of Hsend with _ = Returns _ ?x => set (w1 := x) in * end.
  assert (Hd : deref w1 h = resolve false Message_empty (new_Reply m PlainReply))
    by (by apply deref_alloc).
  assert (Hw : WaitForFinished h w1 = Returns false w1).
  { unfold WaitForFinished. rewrite Hd. cbn [kind resolve new_Reply].
    unfold TagReaderReply_WaitForFinished.
    destruct (future w1); cbn [wait_resolved]; by rewrite Hd. }
  eexists. rewrite (blocking_form_returns _ _ _ w w1 w1 h false Hthread Hsend Hw).
  done.
Qed.

(** *** The blocking wrappers *)

(** Each wrapper is the blocking form of its async function. *)
Lemma ReadFileBlocking_form (filename : string) (song : Song) :
  ReadFileBlocking filename song =
  blocking_form (ReadFile filename)
    (fun m s => InitFromProtobuf
                  (ReadFileResponse_metadata (read_file_response m)) s)
    song.
Proof. reflexivity. Qed.

Lemma SaveFileBlocking_form (filename : string) (metadata : Song) :
  SaveFileBlocking filename metadata =
  blocking_form (SaveFile filename metadata)
    (fun m _ => SaveFileResponse_success (save_file_response m)) false.
Proof. reflexivity. Qed.

Lemma UpdateSongStatisticsBlocking_form (metadata : Song) :
  UpdateSongStatisticsBlocking metadata =
  blocking_form (UpdateSongStatistics metadata)
    (fun m _ => SaveSongStatisticsToFileResponse_success
                  (save_song_statistics_to_file_response m)) false.
Proof. reflexivity. Qed.

Lemma UpdateSongRatingBlocking_form (metadata : Song) :
  UpdateSongRatingBlocking metadata =
  blocking_form (UpdateSongRating metadata)
    (fun m _ => SaveSongRatingToFileResponse_success
                  (save_song_rating_to_file_response m)) false.
Proof. reflexivity. Qed.

Lemma IsMediaFileBlocking_form (filename : string) :
  IsMediaFileBlocking filename =
  blocking_form (IsMediaFile filename)
    (fun m _ => IsMediaFileResponse_success (is_media_file_response m)) false.
Proof. reflexivity. Qed.

Lemma LoadEmbeddedArtBlocking_form (filename : string) :
  LoadEmbeddedArtBlocking filename =
  blocking_form (LoadEmbeddedArt filename)
    (fun m image => loadFromData
                      (LoadEmbeddedArtResponse_data
                         (load_embedded_art_response m)) image)
    QImage_null.
Proof. reflexivity. Qed.

Ltac to_blocking_form :=
  rewrite ?ReadFileBlocking_form, ?SaveFileBlocking_form,
    ?UpdateSongStatisticsBlocking_form, ?UpdateSongRatingBlocking_form,
    ?IsMediaFileBlocking_form, ?LoadEmbeddedArtBlocking_form.

Lemma WaitForSignal_loop_no_assert (sender : handle) (es : list Event)
    (w : World) :
  WaitForSignal_loop sender es w <> AssertionFailed.
Proof.
  revert w. induction es as [|e es IH]; intros w; [done|].
  cbn [WaitForSignal_loop]. by destruct (_ <? _).
Qed.

Lemma GetNetworkStatisticsBlocking_no_assert (w : World) :
  GetNetworkStatisticsBlocking w <> AssertionFailed.
Proof.
  unfold GetNetworkStatisticsBlocking, bind at 1.
  rewrite GetNetworkStatistics_spec.
  unfold bind at 1, BroadcastReply_WaitForFinished, bind at 1, WaitForSignal.
  match goal with |- context [WaitForSignal_loop ?s ?es ?x] =>
    pose proof (WaitForSignal_loop_no_assert s es x) as Hw;
    destruct (WaitForSignal_loop s es x) end; done.
Qed.

(** C4, amended.  Called on the client's own thread, each of the six
    wrappers that wait on a single reply fails its assertion before it
    waits: in every world, also one in which the wait would not end, the
    outcome is the failed assertion.  [GetNetworkStatisticsBlocking]
    makes no such assertion and never fails one. *)
Theorem blocking_wrappers_assert_thread (w : World) :
  current_thread w = object_thread w ->
  (forall filename song, ReadFileBlocking filename song w = AssertionFailed) /\
  (forall filename metadata,
     SaveFileBlocking filename metadata w = AssertionFailed) /\
  (forall metadata,
     UpdateSongStatisticsBlocking metadata w = AssertionFailed) /\
  (forall metadata, UpdateSongRatingBlocking metadata w = AssertionFailed) /\
  (forall filename, IsMediaFileBlocking filename w = AssertionFailed) /\
  (forall filename, LoadEmbeddedArtBlocking filename w = AssertionFailed) /\
  GetNetworkStatisticsBlocking w <> AssertionFailed.
Proof.
  intros Hthread.
  repeat apply conj;
    try (intros; to_blocking_form; by apply blocking_form_on_object_thread).
  apply GetNetworkStatisticsBlocking_no_assert.
Qed.

(** End to end: while a worker is ready and its response [resp] for the
    request arrives with success, every wrapper returns what it extracts
    from [resp]. *)
Corollary blocking_wrappers_answered
    (w : World) (resp : Message) (es1 es2 : list Event) :
  not_on_object_thread w = true ->
  ready_workers w <> 0 ->
  future w = es1 ++ Resolved (length (heap w)) true resp :: es2 ->
  no_response_for (length (heap w)) es1 ->
  (forall filename song, exists w',
     ReadFileBlocking filename song w =
     Returns (InitFromProtobuf
                (ReadFileResponse_metadata (read_file_response resp)) song)
             w') /\
  (forall filename metadata, exists w',
     SaveFileBlocking filename metadata w =
     Returns (SaveFileResponse_success (save_file_response resp)) w') /\
  (forall metadata, exists w',
     UpdateSongStatisticsBlocking metadata w =
     Returns (SaveSongStatisticsToFileResponse_success
                (save_song_statistics_to_file_response resp)) w') /\
  (forall metadata, exists w',
     UpdateSongRatingBlocking metadata w =
     Returns (SaveSongRatingToFileResponse_success
                (save_song_rating_to_file_response resp)) w') /\
  (forall filename, exists w',
     IsMediaFileBlocking filename w =
     Returns (IsMediaFileResponse_success (is_media_file_response resp)) w') /\
  (forall filename, exists w',
     LoadEmbeddedArtBlocking filename w =
     Returns (loadFromData
                (LoadEmbeddedArtResponse_data (load_embedded_art_response resp))
                QImage_null) w').
Proof.
  intros Hthread Hready Hfut Hno.
  repeat apply conj; intros; to_blocking_form;
    unfold ReadFile, SaveFile, UpdateSongStatistics, UpdateSongRating,
      IsMediaFile, LoadEmbeddedArt;
    match goal with
    | |- exists w', blocking_form (SendMessageWithReply ?m) ?ex ?i w = _ =>
        destruct (blocking_form_answered m ex i w true resp es1 es2
                    Hthread Hready Hfut Hno) as [w' Hw'];
        exists w'; exact Hw'
    end.
Qed.

(** End to end: the response for the request arrives as a failure, or no
    worker is ready when the request is made; every wrapper returns its
    default, and in the second case without letting the environment
    run. *)
Corollary blocking_wrappers_refused (w : World) :
  not_on_object_thread w = true ->
  (ready_workers w = 0 \/
   ready_workers w <> 0 /\
   exists es1 resp es2,
     future w = es1 ++ Resolved (length (heap w)) false resp :: es2 /\
     no_response_for (length (heap w)) es1) ->
  (forall filename song, exists w',
     ReadFileBlocking filename song w = Returns song w') /\
  (forall filename metadata, exists w',
     SaveFileBlocking filename metadata w = Returns false w') /\
  (forall metadata, exists w',
     UpdateSongStatisticsBlocking metadata w = Returns false w') /\
  (forall metadata, exists w',
     UpdateSongRatingBlocking metadata w = Returns false w') /\
  (forall filename, exists w',
     IsMediaFileBlocking filename w = Returns false w') /\
  (forall filename, exists w',
     LoadEmbeddedArtBlocking filename w = Returns QImage_null w').
Proof.
  intros Hthread [Hnone|(Hready & es1 & resp & es2 & Hfut & Hno)];
    repeat apply conj; intros; to_blocking_form;
    unfold ReadFile, SaveFile, UpdateSongStatistics, UpdateSongRating,
      IsMediaFile, LoadEmbeddedArt;
    match goal with
    | |- exists w', blocking_form (SendMessageWithReply ?m) ?ex ?i w = _ =>
        first
          [ destruct (blocking_form_no_worker m ex i w Hthread Hnone)
              as (w' & Hw' & _)
          | destruct (blocking_form_answered m ex i w false resp es1 es2
                        Hthread Hready Hfut Hno) as [w' Hw'] ];
        exists w'; exact Hw'
    end.
Qed.

(** C5, amended.  Each of the six blocking wrappers that return a
    result issues its async form, waits for the reply and, when the wait
    reports the reply finished, returns what the matching response field
    of the reply's message holds: the success field for
    [SaveFileBlocking], [UpdateSongStatisticsBlocking],
    [UpdateSongRatingBlocking] and [IsMediaFileBlocking], the song
    initialised from the metadata for [ReadFileBlocking], the image
    loaded from the data for [LoadEmbeddedArtBlocking].  The seventh
    blocking form, [GetNetworkStatisticsBlocking], issues
    [GetNetworkStatistics] and waits for the broadcast reply, but it
    drops the result of the wait and takes nothing from the message of the
    reply: it merges the network statistics responses of the messages of
    the member replies, logs the two maps aggregated from them, and
    returns no result. *)
Theorem blocking_wrappers_extract_response
    (w w1 w2 : World) (reply : handle) :
  not_on_object_thread w = true ->
  WaitForFinished reply w1 = Returns true w2 ->
  let resp := message (deref w2 reply) in
  let w' := with_deleted (fun l => l ++ [reply]) w2 in
  (forall filename song,
     ReadFile filename w = Returns reply w1 ->
     ReadFileBlocking filename song w =
     Returns (InitFromProtobuf
                (ReadFileResponse_metadata (read_file_response resp)) song)
             w') /\
  (forall filename metadata,
     SaveFile filename metadata w = Returns reply w1 ->
     SaveFileBlocking filename metadata w =
     Returns (SaveFileResponse_success (save_file_response resp)) w') /\
  (forall metadata,
     UpdateSongStatistics metadata w = Returns reply w1 ->
     UpdateSongStatisticsBlocking metadata w =
     Returns (SaveSongStatisticsToFileResponse_success
                (save_song_statistics_to_file_response resp)) w') /\
  (forall metadata,
     UpdateSongRating metadata w = Returns reply w1 ->
     UpdateSongRatingBlocking metadata w =
     Returns (SaveSongRatingToFileResponse_success
                (save_song_rating_to_file_response resp)) w') /\
  (forall filename,
     IsMediaFile filename w = Returns reply w1 ->
     IsMediaFileBlocking filename w =
     Returns (IsMediaFileResponse_success (is_media_file_response resp)) w') /\
  (forall filename,
     LoadEmbeddedArt filename w = Returns reply w1 ->
     LoadEmbeddedArtBlocking filename w =
     Returns (loadFromData
                (LoadEmbeddedArtResponse_data (load_embedded_art_response resp))
                QImage_null) w') /\
  (forall (ws : World) (this : handle) (w0 : World) (b : bool) (w3 : World),
     GetNetworkStatistics ws = Returns this w0 ->
     WaitForFinished this w0 = Returns b w3 ->
     let stats := aggregate (entry (merged_response w3 (replies w3 this))) in
     GetNetworkStatisticsBlocking ws =
     Returns tt
       (with_log (fun l => l ++ [LogRequests Debug (fst stats);
                                 LogBytes Debug (snd stats)])
          (with_deleted (fun l => l ++ [this]) w3))).
Proof.
  intros Hthread Hwait resp w'.
  repeat apply conj;
    try (intros * Hasync; to_blocking_form;
         by rewrite (blocking_form_returns _ _ _ w w1 w2 reply true
                       Hthread Hasync Hwait)).
  intros ws this w0 b w3 Hget Hw stats.
  assert (Hk : exists ms, kind (deref w0 this) = BroadcastReply ms).
  { rewrite GetNetworkStatistics_spec in Hget. injection Hget as <- <-.
    eexists. by rewrite deref_new_broadcast. }
  destruct Hk as [ms Hk]. unfold WaitForFinished in Hw. rewrite Hk in Hw.
  unfold GetNetworkStatisticsBlocking, bind at 1. rewrite Hget.
  unfold bind at 1. by rewrite Hw.
Qed.

(** C9.  When the wait reports that the reply did not finish
    successfully, [SaveFileBlocking], [UpdateSongStatisticsBlocking],
    [UpdateSongRatingBlocking] and [IsMediaFileBlocking] return [false]
    and [LoadEmbeddedArtBlocking] returns the null image; the call
    returns normally, having released the reply. *)
Theorem blocking_wrappers_default_on_failure
    (w w1 w2 : World) (reply : handle) :
  not_on_object_thread w = true ->
  WaitForFinished reply w1 = Returns false w2 ->
  let w' := with_deleted (fun l => l ++ [reply]) w2 in
  (forall filename metadata,
     SaveFile filename metadata w = Returns reply w1 ->
     SaveFileBlocking filename metadata w = Returns false w') /\
  (forall metadata,
     UpdateSongStatistics metadata w = Returns reply w1 ->
     UpdateSongStatisticsBlocking metadata w = Returns false w') /\
  (forall metadata,
     UpdateSongRating metadata w = Returns reply w1 ->
     UpdateSongRatingBlocking metadata w = Returns false w') /\
  (forall filename,
     IsMediaFile filename w = Returns reply w1 ->
     IsMediaFileBlocking filename w = Returns false w') /\
  (forall filename,
     LoadEmbeddedArt filename w = Returns reply w1 ->
     LoadEmbeddedArtBlocking filename w = Returns QImage_null w').
Proof.
  intros Hthread Hwait w'.
  repeat apply conj; intros * Hasync; to_blocking_form;
    apply (blocking_form_returns _ _ _ w w1 w2 reply false Hthread Hasync Hwait).
Qed.

Lemma blocking_form_inv {A} (async : Op handle)
    (extract : Message -> A -> A) (init : A) (w w' : World) (a : A) :
  blocking_form async extract init w = Returns a w' ->
  exists reply w1 finished w2,
    not_on_object_thread w = true /\
    async w = Returns reply w1 /\
    WaitForFinished reply w1 = Returns finished w2 /\
    a = (if finished : bool
         then extract (message (deref w2 reply)) init else init) /\
    w' = with_deleted (fun l => l ++ [reply]) w2.
Proof.
  unfold blocking_form, bind, Q_ASSERT.
  destruct (not_on_object_thread w) eqn:Hthread; [|done].
  destruct (async w) as [reply w1| |] eqn:Hasync; [|done|done].
  destruct (WaitForFinished reply w1) as [finished w2| |] eqn:Hwait;
    [|done|done].
  intros Hret. exists reply, w1, finished, w2.
  destruct finished; cbn in Hret; injection Hret as <- <-; done.
Qed.

(** C10.  [ReadFileBlocking] hands back the caller's song initialised
    from the response when the wait reports the reply finished
    successfully, and the very song it was given when the wait reports
    failure; and a call that hands back another song than it was given
    is one whose wait reported success. *)
Theorem ReadFileBlocking_song (filename : string) (song : Song) (w : World) :
  (forall reply w1 w2 finished,
     not_on_object_thread w = true ->
     ReadFile filename w = Returns reply w1 ->
     WaitForFinished reply w1 = Returns finished w2 ->
     ReadFileBlocking filename song w =
     Returns
       (if finished : bool
        then InitFromProtobuf
               (ReadFileResponse_metadata
                  (read_file_response (message (deref w2 reply)))) song
        else song)
       (with_deleted (fun l => l ++ [reply]) w2)) /\
  (forall song' w',
     ReadFileBlocking filename song w = Returns song' w' ->
     song' <> song ->
     exists reply w1 w2,
       ReadFile filename w = Returns reply w1 /\
       WaitForFinished reply w1 = Returns true w2).
Proof.
  split.
  - intros reply w1 w2 finished Hthread Hasync Hwait. to_blocking_form.
    by rewrite (blocking_form_returns _ _ _ w w1 w2 reply finished
                  Hthread Hasync Hwait).
  - intros song' w'. to_blocking_form.
    intros (reply & w1 & finished & w2 & _ & Hasync & Hwait & -> & _)
             %blocking_form_inv Hne.
    destruct finished; [|done]. by exists reply, w1, w2.
Qed.

(** *** Which send operation each request takes *)



(** C7.  The constructor names the executable [clementine-tagreader] to
    the pool and connects the pool's [WorkerFailedToStart()] to the
    client's slot.  The slot writes one line to the log, at level
    [Error], that names the executable; it changes nothing else of the
    world and always returns. *)
Theorem WorkerFailedToStart_only_logs (w : World) :
  (exists w1,
     TagReaderClient_new w = Returns tt w1 /\
     SetExecutableName kWorkerExecutableName ∈ pool_calls w1 /\
     slot_connected w1 = true) /\
  deliver SpawnFailed w =
    (if slot_connected w then WorkerFailedToStart w else w) /\
  kWorkerExecutableName = "clementine-tagreader" /\
  exists items,
    kWorkerExecutableName ∈ items /\
    log (WorkerFailedToStart w) = log w ++ [LogText Error items] /\
    same_but_log w (WorkerFailedToStart w).
Proof.
  split; [|split; [|split]].
  - eexists. split; [reflexivity|]. split; [|reflexivity].
    cbn. apply elem_of_app. right. by left.
  - reflexivity.
  - reflexivity.
  - eexists. split; [|split; [reflexivity|]].
    + right. by left.
    + by repeat split.
Qed.

(** *** Invariants of every reachable world *)

(** A property of worlds that the environment, the pool's two send
    operations and the connection of [deleteLater()] preserve, and that
    does not look at the parts of the world the other operations change,
    is preserved by every step. *)
Section Invariant.

Variable P : World -> Prop.

Hypothesis P_frame : forall w w',
  heap w' = heap w -> pending w' = pending w ->
  connections w' = connections w -> emitted w' = emitted w ->
  P w -> P w'.
Hypothesis P_deliver : forall e w, P w -> P (deliver e w).
Hypothesis P_send : forall m, preserves P (SendMessageWithReply m).
Hypothesis P_broadcast : preserves P GetNetworkStatistics.
Hypothesis P_connect : forall reply, preserves P (connect_deleteLater reply).

Lemma preserves_ret {A} (a : A) : preserves P (ret a).
Proof. by intros w a' w' HP [= <- <-]. Qed.

Lemma preserves_bind {A B} (c : Op A) (k : A -> Op B) :
  preserves P c -> (forall a, preserves P (k a)) -> preserves P (bind c k).
Proof.
  intros Hc Hk w b w' HP. unfold bind.
  destruct (c w) as [a w1| |] eqn:Hcw; [|done|done].
  intros Hkw. eapply Hk; [|done]. by eapply Hc.
Qed.

Lemma preserves_if {A} (b : bool) (c1 c2 : Op A) :
  preserves P c1 -> preserves P c2 -> preserves P (if b then c1 else c2).
Proof. by destruct b. Qed.

Lemma preserves_pure {A} (f : World -> A) :
  preserves P (fun w => Returns (f w) w).
Proof. by intros w a w' HP [= <- <-]. Qed.

Lemma preserves_Q_ASSERT (cond : World -> bool) : preserves P (Q_ASSERT cond).
Proof.
  intros w [] w' HP. unfold Q_ASSERT. destruct (cond w); [|done].
  by intros [= <-].
Qed.

Lemma preserves_deleteLater (reply : handle) : preserves P (deleteLater reply).
Proof. intros w [] w' HP [= <-]. by apply (P_frame w). Qed.

Lemma preserves_WaitForSignal (sender : handle) :
  preserves P (WaitForSignal sender).
Proof.
  intros w [] w'. unfold WaitForSignal. generalize (future w). intros es.
  revert w. induction es as [|e es IH]; intros w HP; [done|].
  cbn [WaitForSignal_loop].
  assert (P (deliver e (with_future es w))) as Hstep.
  { apply P_deliver. by apply (P_frame w). }
  destruct (_ <? _); [by intros [= <-]|by apply IH].
Qed.

Lemma preserves_TagReaderReply_WaitForFinished (reply : handle) :
  preserves P (TagReaderReply_WaitForFinished reply).
Proof.
  intros w b w'. unfold TagReaderReply_WaitForFinished.
  generalize (future w). intros es.
  revert w. induction es as [|e es IH]; intros w HP; cbn [wait_resolved];
    (destruct (is_finished (deref w reply));
     [by intros [= <- <-]|]); [done|].
  apply IH. apply P_deliver. by apply (P_frame w).
Qed.

Lemma preserves_BroadcastReply_WaitForFinished (this : handle) :
  preserves P (BroadcastReply_WaitForFinished this).
Proof.
  apply preserves_bind; [apply preserves_WaitForSignal|].
  intros _. apply (preserves_pure (fun w => IsFinished w this)).
Qed.

Lemma preserves_WaitForFinished (reply : handle) :
  preserves P (WaitForFinished reply).
Proof.
  intros w b w'. unfold WaitForFinished.
  destruct (kind (deref w reply)).
  - apply preserves_TagReaderReply_WaitForFinished.
  - apply preserves_BroadcastReply_WaitForFinished.
Qed.

Lemma preserves_blocking_form {A} (m : Message)
    (extract : Message -> A -> A) (init : A) :
  preserves P (blocking_form (SendMessageWithReply m) extract init).
Proof.
  unfold blocking_form.
  apply preserves_bind; [apply preserves_Q_ASSERT|intros _].
  apply preserves_bind; [apply P_send|intros reply].
  apply preserves_bind; [apply preserves_WaitForFinished|intros finished].
  apply preserves_bind.
  - apply preserves_if; [|apply preserves_ret].
    apply preserves_bind;
      [apply (preserves_pure (fun w => message (deref w reply)))|].
    intros m'. apply preserves_ret.
  - intros a. apply preserves_bind; [apply preserves_deleteLater|].
    intros _. apply preserves_ret.
Qed.

Lemma preserves_UpdateSongsStatistics (songs : list Song) :
  preserves P (UpdateSongsStatistics songs).
Proof.
  induction songs as [|song songs IH]; [apply preserves_ret|].
  cbn [UpdateSongsStatistics].
  apply preserves_bind; [apply P_send|intros reply].
  apply preserves_bind; [apply P_connect|by intros _].
Qed.

Lemma preserves_UpdateSongsRating (songs : list Song) :
  preserves P (UpdateSongsRating songs).
Proof.
  induction songs as [|song songs IH]; [apply preserves_ret|].
  cbn [UpdateSongsRating].
  apply preserves_bind; [apply P_send|intros reply].
  apply preserves_bind; [apply P_connect|by intros _].
Qed.

Lemma preserves_GetNetworkStatisticsBlocking :
  preserves P GetNetworkStatisticsBlocking.
Proof.
  unfold GetNetworkStatisticsBlocking.
  apply preserves_bind; [apply P_broadcast|intros reply].
  apply preserves_bind;
    [apply preserves_BroadcastReply_WaitForFinished|intros _].
  apply preserves_bind; [apply preserves_deleteLater|intros _].
  intros w [] w' HP [= <-]. by apply (P_frame w).
Qed.

Lemma step_preserves (w w' : World) : step w w' -> P w -> P w'.
Proof.
  intros Hstep HP. revert HP.
  destruct Hstep as
    [ e w | t w | w w' H | w w' H | ? w h w' H | ? ? w h w' H | ? w h w' H
    | ? w w' H | ? w h w' H | ? w w' H | ? w h w' H | ? w h w' H
    | ? ? ? ? ? w h w' H | w h w' H | w w' H | ? ? w ? w' H | ? ? w ? w' H
    | ? w ? w' H | ? w ? w' H | ? w ? w' H | ? w ? w' H | ? w ? w' H
    | ? w w' H ]; intros HP.
  - by apply P_deliver.
  - by apply (P_frame w).
  - injection H as <-. by apply (P_frame w).
  - injection H as <-. by apply (P_frame w).
  - by eapply P_send.
  - by eapply P_send.
  - by eapply P_send.
  - by eapply preserves_UpdateSongsStatistics.
  - by eapply P_send.
  - by eapply preserves_UpdateSongsRating.
  - by eapply P_send.
  - by eapply P_send.
  - by eapply P_send.
  - by eapply P_broadcast.
  - by eapply preserves_GetNetworkStatisticsBlocking.
  - revert H. to_blocking_form. intros H.
    by eapply preserves_blocking_form, H.
  - revert H. to_blocking_form. intros H.
    by eapply preserves_blocking_form, H.
  - revert H. to_blocking_form. intros H.
    by eapply preserves_blocking_form, H.
  - revert H. to_blocking_form. intros H.
    by eapply preserves_blocking_form, H.
  - revert H. to_blocking_form. intros H.
    by eapply preserves_blocking_form, H.
  - revert H. to_blocking_form. intros H.
    by eapply preserves_blocking_form, H.
  - by eapply preserves_WaitForFinished.
  - by eapply preserves_deleteLater.
Qed.

Lemma steps_preserve (w w' : World) : rtc step w w' -> P w -> P w'.
Proof.
  induction 1 as [|w1 w2 w3 Hstep _ IH]; [done|].
  intros HP. apply IH. by apply (step_preserves w1).
Qed.

End Invariant.

(** Well-formedness is such a property. *)

Lemma wf_frame (w w' : World) (l : list Reply) :
  heap w' = heap w ++ l -> pending w' = pending w ->
  connections w' = connections w -> emitted w' = emitted w ->
  wf w -> wf w'.
Proof.
  intros Hh Hp Hc He [H1 H2 H3].
  split; rewrite ?Hh, ?Hp, ?Hc, ?He, length_app.
  - intros h Hin%H1. lia.
  - intros s b Hin%H2. lia.
  - intros h v Hin%H3. lia.
Qed.

Lemma wf_same (w w' : World) :
  heap w' = heap w -> pending w' = pending w ->
  connections w' = connections w -> emitted w' = emitted w ->
  wf w -> wf w'.
Proof. intros Hh. apply (wf_frame w w' []). by rewrite app_nil_r. Qed.

Lemma initial_world_wf (cur : Thread) (es : list Event) :
  wf (initial_world cur es).
Proof. split; cbn; intros *; intros H; by apply elem_of_nil in H. Qed.

Lemma run_slot_wf (sender : handle) (s : Slot) (w : World) :
  (sender, s) ∈ connections w -> wf w -> wf (run_slot s w).
Proof.
  intros Hin Hwf. destruct s as [b|r]; simpl; [|by apply (wf_same w)].
  unfold member_finished. destruct (IsFinished w b); [|done].
  destruct Hwf as [H1 H2 H3]. split; cbn; [done|done|].
  intros h v [Hold|Hnew%list_elem_of_singleton]%elem_of_app.
  - by eapply H3.
  - injection Hnew as -> ->. by eapply H2.
Qed.

Lemma run_slots_wf (sender : handle) (w : World) :
  wf w -> wf (run_slots sender w).
Proof.
  unfold run_slots.
  assert (forall cs w',
            (forall c, c ∈ cs -> c ∈ connections w') -> wf w' ->
            wf (foldl (fun w1 c =>
                         if bool_decide (fst c = sender)
                         then run_slot (snd c) w1 else w1) w' cs)) as Hgen.
  { induction cs as [|[s sl] cs IH]; intros w' Hsub Hwf; [done|].
    cbn [foldl fst snd]. apply IH.
    - intros c Hc. case_bool_decide as Hs; [|apply Hsub; by right].
      destruct (run_slot_frame sl w') as (_ & _ & ->). apply Hsub. by right.
    - case_bool_decide as Hs; [|done]. simpl in Hs. subst s.
      apply (run_slot_wf sender); [|done]. apply Hsub. by left. }
  intros Hwf. by apply Hgen.
Qed.

Lemma deliver_wf (e : Event) (w : World) : wf w -> wf (deliver e w).
Proof.
  intros Hwf. destruct e as [h ok resp| |].
  - destruct (decide (h ∈ pending w)) as [Hin|Hnin];
      [|by rewrite deliver_stale].
    rewrite deliver_resolved by done. apply run_slots_wf.
    destruct Hwf as [H1 H2 H3]. split; cbn; rewrite ?length_alter.
    + intros r [_ Hr]%list_elem_of_filter. by apply H1.
    + done.
    + intros r v [Hold|Hnew%list_elem_of_singleton]%elem_of_app.
      * by eapply H3.
      * injection Hnew as -> ->. by apply H1.
  - by apply (wf_same w).
  - simpl. destruct (slot_connected w); by apply (wf_same w).
Qed.

Lemma SendMessageWithReply_wf (m : Message) :
  preserves wf (SendMessageWithReply m).
Proof.
  intros w h w' [H1 H2 H3]. unfold SendMessageWithReply.
  destruct (ready_workers w =? 0); intros [= <- <-];
    split; cbn; rewrite length_app; cbn.
  - intros r Hr%H1. lia.
  - intros s b Hin%H2. lia.
  - intros r v [Hold%H3|Hnew%list_elem_of_singleton]%elem_of_app; [lia|].
    injection Hnew as -> ->. lia.
  - intros r [Hold%H1|Hnew%list_elem_of_singleton]%elem_of_app; lia.
  - intros s b Hin%H2. lia.
  - intros r v Hr%H3. lia.
Qed.

Lemma connect_deleteLater_wf (reply : handle) :
  preserves wf (connect_deleteLater reply).
Proof.
  intros w [] w' [H1 H2 H3] [= <-]. split; cbn; [done| |done].
  intros s b [Hold|Hnew%list_elem_of_singleton]%elem_of_app; [by eapply H2|].
  discriminate Hnew.
Qed.

Lemma broadcast_world_wf (w : World) : wf w -> wf (broadcast_world w).
Proof.
  intros [H1 H2 H3]. split; cbn; rewrite !length_app, length_replicate; cbn.
  - intros r [Hold%H1|Hnew%elem_of_seq]%elem_of_app; lia.
  - intros s b [Hold%H2|Hnew]%elem_of_app; [lia|].
    apply list_elem_of_fmap in Hnew as (m & [= -> ->] & _). lia.
  - intros r v Hr%H3. lia.
Qed.

Lemma GetNetworkStatistics_wf : preserves wf GetNetworkStatistics.
Proof.
  intros w h w' Hwf. rewrite GetNetworkStatistics_spec. intros [= <- <-].
  by apply broadcast_world_wf.
Qed.

Lemma steps_wf (w w' : World) : rtc step w w' -> wf w -> wf w'.
Proof.
  apply steps_preserve.
  - apply wf_same.
  - intros e w0. apply deliver_wf.
  - apply SendMessageWithReply_wf.
  - apply GetNetworkStatistics_wf.
  - apply connect_deleteLater_wf.
Qed.

(** Every world the program can reach from its start is well formed. *)
Lemma reachable_wf (cur : Thread) (es : list Event) (w : World) :
  rtc step (initial_world cur es) w -> wf w.
Proof. intros Hsteps. apply (steps_wf _ _ Hsteps), initial_world_wf. Qed.

(** The invariant of a broadcast reply is such a property as well. *)

Lemma broadcast_inv_extend (this : handle) (ms : list handle) (w w' : World)
    (l : list Reply) (ps : list handle) (cs : list (handle * Slot))
    (em : list (handle * bool)) :
  heap w' = heap w ++ l -> pending w' = pending w ++ ps ->
  connections w' = connections w ++ cs -> emitted w' = emitted w ++ em ->
  (forall p, p ∈ ps -> length (heap w) <= p) ->
  (forall c, c ∈ cs -> snd c <> MemberFinished this) ->
  (forall x, x ∈ em -> length (heap w) <= fst x) ->
  broadcast_inv this ms w -> broadcast_inv this ms w'.
Proof.
  intros Hh Hp Hc He Hps Hcs Hem [Hk Hnd Hv Ht Hcn Hpd Hemit].
  assert (Hthis : this < length (heap w)).
  { apply lookup_lt_is_Some. unfold deref in Hk.
    destruct (heap w !! this); [done|discriminate Hk]. }
  assert (Hold : forall h, h < length (heap w) -> deref w' h = deref w h).
  { intros h Hlt. unfold deref. by rewrite Hh, lookup_app_l. }
  assert (Hall : forall p : Reply -> bool,
            forallb (fun r => p (deref w' r)) ms =
            forallb (fun r => p (deref w r)) ms).
  { intros p. apply forallb_deref_ext. intros m Hm. by apply Hold, Hv. }
  split.
  - by rewrite Hold.
  - done.
  - intros m Hm%Hv. rewrite Hh, length_app. lia.
  - rewrite Hp. intros [Hin|Hin%Hps]%elem_of_app; [done|lia].
  - intros s. rewrite Hc, filter_app, length_app, Hcn.
    rewrite (filter_none _ cs); [simpl; lia|].
    intros c Hin ->. by apply (Hcs _ Hin).
  - intros m Hm. rewrite Hold by (by apply Hv). rewrite <- Hpd by done.
    rewrite Hp, elem_of_app. split; [|by left].
    intros [Hin|Hin%Hps]; [done|]. apply Hv in Hm. lia.
  - unfold all_finished, all_successful in *. rewrite !Hall, <- Hemit.
    unfold emitted_by. rewrite He, filter_app, map_app.
    rewrite (filter_none _ em); [by rewrite app_nil_r|].
    intros x Hin Hx%bool_decide_unpack. apply Hem in Hin. lia.
Qed.

Lemma SendMessageWithReply_broadcast_inv (this : handle) (ms : list handle)
    (m : Message) :
  preserves (broadcast_inv this ms) (SendMessageWithReply m).
Proof.
  intros w h w' Hinv. unfold SendMessageWithReply.
  destruct (ready_workers w =? 0); intros [= <- <-].
  - eapply (broadcast_inv_extend this ms w _ _ [] []
              [(length (heap w), false)]); try done; cbn.
    + by rewrite app_nil_r.
    + by rewrite app_nil_r.
    + intros p Hp. by apply elem_of_nil in Hp.
    + intros c Hc. by apply elem_of_nil in Hc.
    + by intros x ->%list_elem_of_singleton.
  - eapply (broadcast_inv_extend this ms w _ _ [length (heap w)] [] []);
      try done; cbn.
    + by rewrite app_nil_r.
    + by rewrite app_nil_r.
    + by intros p ->%list_elem_of_singleton.
    + intros c Hc. by apply elem_of_nil in Hc.
    + intros x Hx. by apply elem_of_nil in Hx.
Qed.

Lemma connect_deleteLater_broadcast_inv (this : handle) (ms : list handle)
    (reply : handle) :
  preserves (broadcast_inv this ms) (connect_deleteLater reply).
Proof.
  intros w [] w' Hinv [= <-].
  eapply (broadcast_inv_extend this ms w _ [] [] [(reply, DeleteLater reply)] []);
    try done; cbn; rewrite ?app_nil_r; try done.
  - intros p Hp. by apply elem_of_nil in Hp.
  - by intros c ->%list_elem_of_singleton.
  - intros x Hx. by apply elem_of_nil in Hx.
Qed.

Lemma GetNetworkStatistics_broadcast_inv (this : handle) (ms : list handle) :
  preserves (broadcast_inv this ms) GetNetworkStatistics.
Proof.
  intros w h w' Hinv. rewrite GetNetworkStatistics_spec. intros [= <- <-].
  assert (Hthis : this < length (heap w)).
  { apply lookup_lt_is_Some. pose proof (inv_kind _ _ _ Hinv) as Hk.
    unfold deref in Hk. destruct (heap w !! this); [done|discriminate Hk]. }
  eapply (broadcast_inv_extend this ms w _ _ _ _ []); try done; cbn.
  - by rewrite <- app_assoc.
  - by rewrite app_nil_r.
  - intros p Hp%elem_of_seq. lia.
  - intros c (r & -> & _)%list_elem_of_fmap. cbn. intros [= Heq]. lia.
  - intros x Hx. by apply elem_of_nil in Hx.
Qed.

Lemma steps_broadcast_inv (this : handle) (ms : list handle) (w w' : World) :
  rtc step w w' -> broadcast_inv this ms w -> broadcast_inv this ms w'.
Proof.
  apply steps_preserve.
  - apply broadcast_inv_frame.
  - intros e w0. apply deliver_broadcast_inv.
  - apply SendMessageWithReply_broadcast_inv.
  - apply GetNetworkStatistics_broadcast_inv.
  - apply connect_deleteLater_broadcast_inv.
Qed.

Lemma deliver_all_steps (es : list Event) (w : World) :
  rtc step w (deliver_all es w).
Proof.
  revert w. induction es as [|e es IH]; intros w; [apply rtc_refl|].
  eapply rtc_l; [apply (step_deliver e)|apply IH].
Qed.

(** *** The member list of a broadcast reply never changes *)

Lemma kinds_preserved_refl (w : World) : kinds_preserved w w.
Proof. by split. Qed.

Lemma kinds_preserved_trans (w1 w2 w3 : World) :
  kinds_preserved w1 w2 -> kinds_preserved w2 w3 -> kinds_preserved w1 w3.
Proof.
  intros [Hl1 Hk1] [Hl2 Hk2]. split; [lia|].
  intros h Hh. rewrite Hk2 by lia. by apply Hk1.
Qed.

Lemma kinds_preserved_heap (w w' : World) (l : list Reply) :
  heap w' = heap w ++ l -> kinds_preserved w w'.
Proof.
  intros Hh. split.
  - rewrite Hh, length_app. lia.
  - intros h Hlt. unfold deref. rewrite Hh. by rewrite lookup_app_l.
Qed.

Lemma kinds_preserved_same (w w' : World) :
  heap w' = heap w -> kinds_preserved w w'.
Proof.
  intros Hh. apply (kinds_preserved_heap w w' []). by rewrite app_nil_r.
Qed.

Lemma deliver_kinds (e : Event) (w : World) : kinds_preserved w (deliver e w).
Proof.
  destruct e as [h ok resp| |].
  - destruct (decide (h ∈ pending w)) as [Hin|Hnin].
    + destruct (deliver_resolved_fields h ok resp w Hin) as (Hh & _ & _).
      split; [by rewrite Hh, length_alter|].
      intros r Hr. destruct (decide (r = h)) as [->|Hne].
      * by rewrite (deref_alter_eq _ _ _ _ Hh Hr).
      * by rewrite (deref_alter_ne _ _ _ _ _ Hh Hne).
    + rewrite deliver_stale by done. apply kinds_preserved_refl.
  - by apply kinds_preserved_same.
  - simpl. destruct (slot_connected w); by apply kinds_preserved_same.
Qed.

Lemma steps_kinds (w w' : World) : rtc step w w' -> kinds_preserved w w'.
Proof.
  intros Hsteps.
  eapply (steps_preserve (kinds_preserved w));
    [| | | | |exact Hsteps|apply kinds_preserved_refl].
  - intros w1 w2 Hh _ _ _ H1.
    eapply kinds_preserved_trans; [exact H1|by apply kinds_preserved_same].
  - intros e w1 H1.
    eapply kinds_preserved_trans; [exact H1|apply deliver_kinds].
  - intros m w1 h w2 H1. unfold SendMessageWithReply.
    destruct (ready_workers w1 =? 0); intros [= <- <-];
      (eapply kinds_preserved_trans; [exact H1|]);
      by eapply kinds_preserved_heap.
  - intros w1 h w2 H1. rewrite GetNetworkStatistics_spec. intros [= <- <-].
    eapply kinds_preserved_trans; [exact H1|].
    eapply (kinds_preserved_heap _ _ (_ ++ _)). cbn. by rewrite <- app_assoc.
  - intros reply w1 [] w2 H1 [= <-].
    eapply kinds_preserved_trans; [exact H1|by apply kinds_preserved_same].
Qed.

(** C8.  The constructor of a broadcast reply stores the list of replies
    it is given, and whatever happens afterwards (an event of the
    environment, such as a response or a worker becoming ready, or a call of
    any member function of the client or of a reply that returns) leaves
    that list as it is: same members, same order. *)
Theorem BroadcastReply_members_fixed
    (request : Message) (rs : list handle) (w : World)
    (this : handle) (w0 w' : World) :
  new_BroadcastReply request rs w = (this, w0) ->
  rtc step w0 w' ->
  replies w0 this = rs /\ replies w' this = rs.
Proof.
  unfold new_BroadcastReply. intros [= <- <-] Hsteps.
  match goal with |- replies ?x _ = _ /\ _ => set (w0 := x) in * end.
  assert (Hk : kind (deref w0 (length (heap w))) = BroadcastReply rs).
  { by erewrite (deref_alloc w); [|reflexivity]. }
  split; unfold replies.
  - by rewrite Hk.
  - destruct (steps_kinds _ _ Hsteps) as [_ Hkinds].
    rewrite Hkinds, Hk; [done|].
    cbn. rewrite length_app. simpl. lia.
Qed.

(** *** A wait on a broadcast reply with members *)

Lemma run_slot_with_future (es : list Event) (s : Slot) (w : World) :
  run_slot s (with_future es w) = with_future es (run_slot s w).
Proof.
  destruct s as [b|r]; [|done]. simpl. unfold member_finished.
  change (IsFinished (with_future es w) b) with (IsFinished w b).
  by destruct (IsFinished w b).
Qed.

Lemma run_slots_with_future (es : list Event) (sender : handle) (w : World) :
  run_slots sender (with_future es w) = with_future es (run_slots sender w).
Proof.
  unfold run_slots. change (connections (with_future es w)) with (connections w).
  generalize (connections w). intros cs. revert w.
  induction cs as [|c cs IH]; intros w; [done|].
  cbn [foldl]. case_bool_decide; [|apply IH].
  rewrite run_slot_with_future. apply IH.
Qed.

Lemma deliver_with_future (es : list Event) (e : Event) (w : World) :
  deliver e (with_future es w) = with_future es (deliver e w).
Proof.
  destruct e as [h ok resp| |]; [|done|].
  - simpl. change (pending (with_future es w)) with (pending w).
    case_bool_decide; [|done].
    by rewrite <- run_slots_with_future.
  - simpl. change (slot_connected (with_future es w)) with (slot_connected w).
    by destruct (slot_connected w).
Qed.

Lemma all_finished_mono (e : Event) (w : World) (ms : list handle) :
  all_finished w ms = true -> all_finished (deliver e w) ms = true.
Proof.
  rewrite !all_finished_spec. intros H r Hr.
  by apply deliver_finished_mono, H.
Qed.

Lemma all_finished_deliver_all (es : list Event) (w : World)
    (ms : list handle) :
  all_finished w ms = true -> all_finished (deliver_all es w) ms = true.
Proof.
  revert w. induction es as [|e es IH]; intros w Hall; [done|].
  simpl. apply IH. by apply all_finished_mono.
Qed.

Lemma deliver_all_with_future (es l : list Event) (w : World) :
  deliver_all l (with_future es w) = with_future es (deliver_all l w).
Proof.
  revert w. induction l as [|x l IH]; intros w; [done|].
  cbn [deliver_all foldl]. rewrite deliver_with_future. apply IH.
Qed.

Lemma deliver_all_cons (e : Event) (es : list Event) (w : World) :
  deliver_all (e :: es) w = deliver_all es (deliver e w).
Proof. done. Qed.

Lemma WaitForSignal_loop_returns
    (this : handle) (ms : list handle) (es1 es2 : list Event) (e : Event)
    (w : World) :
  broadcast_inv this ms w ->
  all_finished (deliver_all es1 w) ms = false ->
  all_finished (deliver_all (es1 ++ [e]) w) ms = true ->
  WaitForSignal_loop this (es1 ++ e :: es2) w =
  Returns tt (with_future es2 (deliver_all (es1 ++ [e]) w)).
Proof.
  revert w. induction es1 as [|e1 es1 IH]; intros w Hinv Hbefore Hafter.
  - cbn [app WaitForSignal_loop] in *. rewrite deliver_with_future.
    change (deliver_all [e] w) with (deliver e w) in *.
    change (deliver_all [] w) with w in Hbefore.
    pose proof (deliver_broadcast_inv this ms e w Hinv) as Hinv'.
    change (emitted_by this (with_future es2 (deliver e w)))
      with (emitted_by this (deliver e w)).
    rewrite (inv_emitted _ _ _ Hinv), (inv_emitted _ _ _ Hinv').
    rewrite Hbefore, Hafter. cbn [andb].
    destruct ms as [|m ms]; [discriminate Hbefore|]. done.
  - rewrite <- app_comm_cons in *. rewrite deliver_all_cons in *.
    cbn [WaitForSignal_loop]. rewrite deliver_with_future.
    pose proof (deliver_broadcast_inv this ms e1 w Hinv) as Hinv'.
    change (emitted_by this (with_future (es1 ++ e :: es2) (deliver e1 w)))
      with (emitted_by this (deliver e1 w)).
    assert (all_finished (deliver e1 w) ms = false) as Hmid.
    { destruct (all_finished (deliver e1 w) ms) eqn:Hall; [|done].
      by rewrite (all_finished_deliver_all es1 _ _ Hall) in Hbefore. }
    assert (all_finished w ms = false) as Hstart.
    { destruct (all_finished w ms) eqn:Hall; [|done].
      by rewrite (all_finished_mono e1 _ _ Hall) in Hmid. }
    rewrite (inv_emitted _ _ _ Hinv), (inv_emitted _ _ _ Hinv').
    rewrite Hstart, Hmid. cbn [andb length Nat.ltb Nat.leb].
    rewrite (IH (with_future (es1 ++ e :: es2) (deliver e1 w))).
    + by rewrite deliver_all_with_future.
    + by apply (broadcast_inv_frame this ms (deliver e1 w)).
    + by rewrite deliver_all_with_future.
    + by rewrite deliver_all_with_future.
Qed.

(** The wait returns in the delivery that finishes the last member, and
    reports [true]. *)
Lemma BroadcastReply_WaitForFinished_returns
    (this : handle) (ms : list handle) (es1 es2 : list Event) (e : Event)
    (w : World) :
  broadcast_inv this ms w ->
  future w = es1 ++ e :: es2 ->
  all_finished (deliver_all es1 w) ms = false ->
  all_finished (deliver_all (es1 ++ [e]) w) ms = true ->
  BroadcastReply_WaitForFinished this w =
  Returns true (with_future es2 (deliver_all (es1 ++ [e]) w)).
Proof.
  intros Hinv Hfut Hbefore Hafter.
  unfold BroadcastReply_WaitForFinished, bind, WaitForSignal. rewrite Hfut.
  rewrite (WaitForSignal_loop_returns this ms) by done.
  f_equal.
  pose proof (deliver_all_broadcast_inv this ms (es1 ++ [e]) w Hinv) as Hinv'.
  change (IsFinished (with_future es2 (deliver_all (es1 ++ [e]) w)) this)
    with (IsFinished (deliver_all (es1 ++ [e]) w) this).
  by rewrite (IsFinished_all _ _ _ (inv_kind _ _ _ Hinv')).
Qed.

(** *** The broadcast reply, whatever happens around it *)

(** C1.  Take the broadcast reply [this] that [GetNetworkStatistics]
    builds over the replies of the [N] workers that are ready, and let
    anything happen afterwards: events of the environment and calls of
    the client.  The member list stays the one of the construction;
    [IsFinished()] holds exactly when all [N] members are finished;
    [this] has emitted [Finished(bool)] once if all members are finished
    and there is a member, and not at all otherwise, and the value it
    emitted is the conjunction of the members' success flags; a delivery
    makes [this] emit exactly when it finishes the last member. *)
Theorem BroadcastReply_finished_with_members
    (w : World) (this : handle) (w0 w' : World) :
  wf w ->
  GetNetworkStatistics w = Returns this w0 ->
  rtc step w0 w' ->
  let ms := replies w0 this in
  length ms = ready_workers w /\
  replies w' this = ms /\
  (IsFinished w' this = true <->
   forall r, r ∈ ms -> is_finished (deref w' r) = true) /\
  emitted_by this w' =
    (if IsFinished w' this && negb (Nat.eqb (length ms) 0)
     then [all_successful w' ms] else []) /\
  forall e,
    emitted_by this (deliver e w') =
    emitted_by this w' ++
      (if negb (IsFinished w' this) && IsFinished (deliver e w') this
       then [all_successful (deliver e w') ms] else []).
Proof.
  intros Hwf Hget Hsteps. rewrite GetNetworkStatistics_spec in Hget.
  injection Hget as <- <-.
  pose proof (broadcast_world_inv w Hwf) as Hinv0.
  set (this := length (heap w) + ready_workers w) in *.
  set (ms0 := seq (length (heap w)) (ready_workers w)) in *.
  assert (Hms : replies (broadcast_world w) this = ms0).
  { unfold replies. by rewrite (inv_kind _ _ _ Hinv0). }
  rewrite Hms. intros ms. subst ms.
  pose proof (steps_broadcast_inv this ms0 _ _ Hsteps Hinv0) as Hinv.
  assert (Hfin : forall w1, broadcast_inv this ms0 w1 ->
                 IsFinished w1 this = all_finished w1 ms0).
  { intros w1 H1. apply IsFinished_all, H1. }
  split; [|split; [|split; [|split]]].
  - unfold ms0. apply length_seq.
  - unfold replies. by rewrite (inv_kind _ _ _ Hinv).
  - rewrite (Hfin _ Hinv). apply all_finished_spec.
  - rewrite (Hfin _ Hinv). apply Hinv.
  - intros e.
    pose proof (deliver_broadcast_inv this ms0 e _ Hinv) as Hinv'.
    rewrite (Hfin _ Hinv), (Hfin _ Hinv').
    rewrite (inv_emitted _ _ _ Hinv'), (inv_emitted _ _ _ Hinv).
    destruct (all_finished w' ms0) eqn:Hall.
    + assert (all_finished (deliver e w') ms0 = true) as ->
        by (by apply all_finished_mono).
      cbn [negb andb]. rewrite app_nil_r.
      destruct (negb (length ms0 =? 0)); [|done]. cbn [andb]. f_equal.
      unfold all_successful. apply forallb_deref_ext.
      intros m Hm. apply deliver_deref_not_pending.
      intros Hp%(inv_pending _ _ _ Hinv); [|done].
      rewrite all_finished_spec in Hall. by rewrite Hall in Hp.
    + cbn [negb andb app].
      destruct (all_finished (deliver e w') ms0) eqn:Hall'; [|done].
      cbn [andb].
      assert (negb (length ms0 =? 0) = true) as ->; [|done].
      destruct ms0; [discriminate Hall|done].
Qed.

(** C3, at the input where the code departs from it.  A broadcast reply
    built over no member at all, as [GetNetworkStatistics] builds it
    when no worker is ready, satisfies [IsFinished()] at once, yet it
    never emits [Finished(bool)], whatever happens; so
    [WaitForFinished()] on it, which waits for that signal first, never
    returns, and neither does [GetNetworkStatisticsBlocking]. *)
Theorem empty_broadcast_never_signals (request : Message) (w : World) :
  wf w ->
  let this := fst (new_BroadcastReply request [] w) in
  let w0 := snd (new_BroadcastReply request [] w) in
  replies w0 this = [] /\
  IsFinished w0 this = true /\
  (forall w', rtc step w0 w' ->
     emitted_by this w' = [] /\
     BroadcastReply_WaitForFinished this w' = WaitsForever /\
     WaitForFinished this w' = WaitsForever) /\
  (ready_workers w = 0 ->
   GetNetworkStatistics w =
     Returns (length (heap w)) (broadcast_world w) /\
   replies (broadcast_world w) (length (heap w)) = [] /\
   GetNetworkStatisticsBlocking w = WaitsForever).
Proof.
  intros Hwf this w0.
  pose proof (new_BroadcastReply_empty_inv request w Hwf) as Hinv.
  fold w0 in Hinv. change (length (heap w)) with this in Hinv.
  assert (Hrep : replies w0 this = []).
  { unfold replies. by rewrite (inv_kind _ _ _ Hinv). }
  split; [|split; [|split]].
  - exact Hrep.
  - unfold IsFinished. by rewrite Hrep.
  - intros w' Hsteps.
    pose proof (steps_broadcast_inv this [] _ _ Hsteps Hinv) as Hinv'.
    assert (Hwait : BroadcastReply_WaitForFinished this w' = WaitsForever).
    { unfold BroadcastReply_WaitForFinished, bind, WaitForSignal.
      by rewrite WaitForSignal_loop_no_member. }
    split; [|split].
    + by rewrite (inv_emitted _ _ _ Hinv'), andb_false_r.
    + exact Hwait.
    + unfold WaitForFinished. by rewrite (inv_kind _ _ _ Hinv').
  - intros Hz.
    pose proof (broadcast_world_inv w Hwf) as Hinv'. rewrite Hz in Hinv'.
    cbn [seq] in Hinv'. rewrite Nat.add_0_r in Hinv'.
    split; [|split].
    + rewrite GetNetworkStatistics_spec. by rewrite Hz, Nat.add_0_r.
    + unfold replies. by rewrite (inv_kind _ _ _ Hinv').
    + unfold GetNetworkStatisticsBlocking, bind at 1.
      rewrite GetNetworkStatistics_spec, Hz, Nat.add_0_r.
      unfold bind at 1.
      unfold BroadcastReply_WaitForFinished, bind, WaitForSignal.
      by rewrite WaitForSignal_loop_no_member.
Qed.

(** *** What the statistics query logs *)

Lemma merged_response_entries (w : World) (rs : list handle) :
  entry (merged_response w rs) =
  concat (map (fun r => entry (network_statistics_response (message (deref w r))))
              rs).
Proof.
  unfold merged_response.
  assert (forall acc,
            entry (foldl (fun response r =>
                     MergeFrom response
                       (network_statistics_response (message (deref w r))))
                   acc rs) =
            entry acc ++
            concat (map (fun r => entry (network_statistics_response
                                           (message (deref w r)))) rs))
    as Hgen.
  { induction rs as [|r rs IH]; intros acc; cbn [foldl map concat].
    - by rewrite app_nil_r.
    - rewrite IH. cbn [MergeFrom entry]. by rewrite <- app_assoc. }
  by rewrite Hgen.
Qed.

(** When the query returns, the last two lines of the log are the two
    maps aggregated from the entries of the member replies, in the order
    of the members. *)
Lemma GetNetworkStatisticsBlocking_logs (w w' : World) :
  GetNetworkStatisticsBlocking w = Returns tt w' ->
  exists reply b w2,
    GetNetworkStatistics w = Returns reply (broadcast_world w) /\
    BroadcastReply_WaitForFinished reply (broadcast_world w) = Returns b w2 /\
    let entries :=
      concat (map (fun r => entry (network_statistics_response
                                     (message (deref w2 r))))
                  (replies w2 reply)) in
    log w' = log w2 ++ [LogRequests Debug (fst (aggregate entries));
                        LogBytes Debug (snd (aggregate entries))].
Proof.
  unfold GetNetworkStatisticsBlocking, bind at 1.
  rewrite GetNetworkStatistics_spec. unfold bind at 1.
  destruct (BroadcastReply_WaitForFinished _ (broadcast_world w))
    as [b w2| |] eqn:Hwait; [|done|done].
  intros [= <-]. eexists _, b, w2. split; [reflexivity|]. split; [exact Hwait|].
  cbn [log with_log with_deleted]. by rewrite merged_response_entries.
Qed.

(** *** More on the aggregation *)

Lemma entries_of_nil_iff (host : string) (entries : list Entry) :
  entries_of host entries = [] <->
  forall e, e ∈ entries -> authority (url e) <> host.
Proof.
  unfold entries_of. split.
  - intros Hnil e Hin Heq.
    by apply (filter_nil_not_elem_of _ _ e Hnil Heq).
  - intros Hno. apply filter_none. intros e Hin. by apply Hno.
Qed.

Lemma entries_total_app (f : Entry -> Z) (l1 l2 : list Entry) :
  entries_total f (l1 ++ l2) = (entries_total f l1 + entries_total f l2)%Z.
Proof.
  unfold entries_total. induction l1 as [|e l1 IH]; simpl; [done|].
  rewrite IH. lia.
Qed.

Lemma entries_total_perm (f : Entry -> Z) (l1 l2 : list Entry) :
  l1 ≡ₚ l2 -> entries_total f l1 = entries_total f l2.
Proof.
  unfold entries_total.
  induction 1 as [|x l l' _ IH|x y l|l l' l'' _ IH1 _ IH2]; simpl;
    [done|by rewrite IH|lia|congruence].
Qed.

Lemma byte_count_total (host : string) (entries : list Entry) :
  byte_count host entries =
  entries_total bytes_received (entries_of host entries).
Proof. done. Qed.

Lemma request_count_total (host : string) (entries : list Entry) :
  request_count host entries =
  entries_total (fun _ => 1%Z) (entries_of host entries).
Proof.
  unfold request_count, entries_total.
  induction (entries_of host entries) as [|e l IH]; simpl; [done|].
  rewrite <- IH. lia.
Qed.

Lemma entries_of_app (host : string) (l1 l2 : list Entry) :
  entries_of host (l1 ++ l2) = entries_of host l1 ++ entries_of host l2.
Proof. unfold entries_of. apply filter_app. Qed.

Lemma wrap_add (bits x y : Z) :
  wrap bits (wrap bits x + wrap bits y) = wrap bits (x + y).
Proof.
  rewrite wrap_add_l, Z.add_comm, wrap_add_l. f_equal. lia.
Qed.

(** X1.  The two maps of the aggregation have the same hosts, and these
    are exactly the authorities of the urls among the entries: no host
    is invented and none is left out, whatever the byte counts are. *)
Theorem aggregate_hosts (entries : list Entry) :
  dom (fst (aggregate entries)) = dom (snd (aggregate entries)) /\
  forall host,
    host ∈ dom (fst (aggregate entries)) <->
    exists e, e ∈ entries /\ authority (url e) = host.
Proof.
  assert (forall host,
            is_Some (fst (aggregate entries) !! host) <->
            exists e, e ∈ entries /\ authority (url e) = host) as Hfst.
  { intros host. destruct (aggregate_lookup entries host) as [-> _].
    destruct (decide (entries_of host entries = [])) as [Hnil|Hcons].
    - split; [by intros [? ?]|].
      intros (e & Hin & Heq). rewrite entries_of_nil_iff in Hnil.
      by destruct (Hnil e Hin).
    - split; [intros _|by eauto].
      destruct (entries_of host entries) as [|e l] eqn:Hl; [done|].
      assert (e ∈ entries_of host entries) as Hin by (rewrite Hl; left).
      apply list_elem_of_filter in Hin as [? ?]. eauto. }
  split.
  - apply set_eq. intros host. rewrite !elem_of_dom.
    destruct (aggregate_lookup entries host) as [-> ->].
    by destruct (decide _).
  - intros host. rewrite elem_of_dom. apply Hfst.
Qed.

(** X2.  The aggregation does not depend on the order of the entries:
    two lists with the same entries, in any order, give the same two
    maps. *)
Theorem aggregate_permutation (entries entries' : list Entry) :
  entries ≡ₚ entries' -> aggregate entries = aggregate entries'.
Proof.
  intros Hperm.
  assert (forall host, entries_of host entries ≡ₚ entries_of host entries')
    as Hof by (intros host; unfold entries_of; by apply filter_Permutation).
  assert (forall host,
            (entries_of host entries = [] <-> entries_of host entries' = []))
    as Hnil.
  { intros host. split; intros H.
    - apply Permutation_nil_r. by rewrite <- (Hof host), H.
    - apply Permutation_nil_r. by rewrite (Hof host), H. }
  apply injective_projections; apply map_eq; intros host;
    destruct (aggregate_lookup entries host) as [Hr Hb];
    destruct (aggregate_lookup entries' host) as [Hr' Hb'].
  - rewrite Hr, Hr'.
    rewrite !request_count_total, (entries_total_perm _ _ _ (Hof host)).
    destruct (decide (entries_of host entries = [])) as [H|H];
      destruct (decide (entries_of host entries' = [])) as [H'|H'];
      try done; first [by apply Hnil in H|by apply Hnil in H'].
  - rewrite Hb, Hb'.
    rewrite !byte_count_total, (entries_total_perm _ _ _ (Hof host)).
    destruct (decide (entries_of host entries = [])) as [H|H];
      destruct (decide (entries_of host entries' = [])) as [H'|H'];
      try done; first [by apply Hnil in H|by apply Hnil in H'].
Qed.

(** X3.  Aggregating the entries of two responses appended to each other
    gives the aggregates of the two responses merged: a host of one of
    them keeps its counters, a host of both gets the two request counts
    added as [int] and the two byte counts added as [qint64]. *)
Theorem aggregate_app (entries1 entries2 : list Entry) :
  fst (aggregate (entries1 ++ entries2)) =
    merge_counters 32 (fst (aggregate entries1)) (fst (aggregate entries2)) /\
  snd (aggregate (entries1 ++ entries2)) =
    merge_counters 64 (snd (aggregate entries1)) (snd (aggregate entries2)).
Proof.
  split; apply map_eq; intros host; unfold merge_counters;
    rewrite lookup_union_with;
    destruct (aggregate_lookup (entries1 ++ entries2) host) as [Hr Hb];
    destruct (aggregate_lookup entries1 host) as [Hr1 Hb1];
    destruct (aggregate_lookup entries2 host) as [Hr2 Hb2].
  - rewrite Hr, Hr1, Hr2. rewrite !request_count_total, entries_of_app.
    rewrite entries_total_app.
    destruct (decide (entries_of host entries1 = [])) as [H1|H1];
      destruct (decide (entries_of host entries2 = [])) as [H2|H2];
      rewrite ?H1, ?H2, ?app_nil_r; cbn [app];
      rewrite ?decide_True by done;
      rewrite ?decide_False by (try done; by intros [? ?]%app_eq_nil);
      cbn; unfold to_int; rewrite ?wrap_add, ?Z.add_0_r; done.
  - rewrite Hb, Hb1, Hb2. rewrite !byte_count_total, entries_of_app.
    rewrite entries_total_app.
    destruct (decide (entries_of host entries1 = [])) as [H1|H1];
      destruct (decide (entries_of host entries2 = [])) as [H2|H2];
      rewrite ?H1, ?H2, ?app_nil_r; cbn [app];
      rewrite ?decide_True by done;
      rewrite ?decide_False by (try done; by intros [? ?]%app_eq_nil);
      cbn; unfold to_qint64; rewrite ?wrap_add, ?Z.add_0_r; done.
Qed.

Lemma pairs_total_perm (l1 l2 : list (string * Z)) :
  l1 ≡ₚ l2 ->
  foldr (fun p s => (snd p + s)%Z) 0%Z l1 =
  foldr (fun p s => (snd p + s)%Z) 0%Z l2.
Proof.
  induction 1 as [|x l l' _ IH|x y l|l l' l'' _ IH1 _ IH2]; simpl;
    [done|by rewrite IH|lia|congruence].
Qed.

Lemma counters_total_insert (m : gmap string Z) (i : string) (x : Z) :
  m !! i = None ->
  counters_total (<[i:=x]> m) = (x + counters_total m)%Z.
Proof.
  intros Hi. unfold counters_total.
  by rewrite (pairs_total_perm _ _ (map_to_list_insert m i x Hi)).
Qed.

Lemma counters_total_delete (m : gmap string Z) (i : string) (x : Z) :
  m !! i = Some x ->
  counters_total m = (x + counters_total (delete i m))%Z.
Proof.
  intros Hi. unfold counters_total.
  by rewrite <- (pairs_total_perm _ _ (map_to_list_delete m i x Hi)).
Qed.

(** A map that holds, for every host of the entries, the sum of [f] over
    the entries of that host, adds up to the sum of [f] over all entries. *)
Lemma counters_total_exact (f : Entry -> Z) (entries : list Entry) :
  forall m : gmap string Z,
    (forall host,
       m !! host =
       if decide (entries_of host entries = []) then None
       else Some (entries_total f (entries_of host entries))) ->
    counters_total m = entries_total f entries.
Proof.
  induction entries as [|e es IH]; intros m Hm.
  - assert (m = ∅) as -> by (apply map_eq; intros host; by rewrite Hm).
    done.
  - set (host0 := authority (url e)).
    assert (Hof : forall host,
              entries_of host (e :: es) =
              if decide (host0 = host) then e :: entries_of host es
              else entries_of host es).
    { intros host. unfold entries_of. by rewrite filter_cons. }
    set (T := entries_total f (entries_of host0 es)).
    assert (Hm0 : m !! host0 = Some (f e + T)%Z).
    { rewrite Hm, Hof. destruct (decide (host0 = host0)); [|done].
      by rewrite decide_False by done. }
    rewrite (counters_total_delete m host0 _ Hm0).
    cbn [entries_total foldr]. fold (entries_total f es).
    destruct (decide (entries_of host0 es = [])) as [Hnil|Hcons].
    + rewrite <- (IH (delete host0 m)).
      * unfold T. rewrite Hnil. cbn. lia.
      * intros host. destruct (decide (host0 = host)) as [<-|Hne].
        -- by rewrite lookup_delete_eq, decide_True.
        -- rewrite lookup_delete_ne, Hm, Hof by done.
           by destruct (decide (host0 = host)).
    + rewrite <- (IH (<[host0 := T]> (delete host0 m))).
      * rewrite counters_total_insert by apply lookup_delete_eq. lia.
      * intros host. destruct (decide (host0 = host)) as [<-|Hne].
        -- by rewrite lookup_insert_eq, decide_False.
        -- rewrite lookup_insert_ne, lookup_delete_ne, Hm, Hof by done.
           by destruct (decide (host0 = host)).
Qed.

(** X4.  While the counters stay in range, no entry is dropped or counted
    twice: the request counts of all hosts add up to the number of
    entries, and the byte counts of all hosts add up to the bytes of all
    entries. *)
Theorem aggregate_totals (entries : list Entry) :
  (Z.of_nat (length entries) <= INT_MAX)%Z ->
  (forall host, INT64_MIN <= byte_count host entries <= INT64_MAX)%Z ->
  counters_total (fst (aggregate entries)) = Z.of_nat (length entries) /\
  counters_total (snd (aggregate entries)) =
    entries_total bytes_received entries.
Proof.
  intros Hlen Hsum. split.
  - rewrite (counters_total_exact (fun _ => 1%Z) entries).
    + unfold entries_total. clear. induction entries as [|e es IH]; [done|].
      cbn [foldr length]. rewrite IH. lia.
    + intros host. destruct (aggregate_lookup entries host) as [-> _].
      destruct (decide _); [done|]. rewrite <- request_count_total.
      rewrite to_int_in_range; [done|].
      pose proof (request_count_bounds host entries). lia.
  - apply counters_total_exact. intros host.
    destruct (aggregate_lookup entries host) as [_ ->].
    destruct (decide _); [done|]. rewrite <- byte_count_total.
    by rewrite to_qint64_in_range by apply Hsum.
Qed.

(** *** More on the wait on a broadcast reply *)

(** The broadcast reply of a statistics query keeps its invariant through
    everything that happens after its construction. *)
Lemma statistics_reply_inv (w : World) (this : handle) (w0 w1 : World) :
  wf w ->
  GetNetworkStatistics w = Returns this w0 ->
  rtc step w0 w1 ->
  broadcast_inv this (replies w0 this) w1.
Proof.
  intros Hwf Hget Hsteps. rewrite GetNetworkStatistics_spec in Hget.
  injection Hget as <- <-.
  pose proof (broadcast_world_inv w Hwf) as Hinv.
  unfold replies at 1. rewrite (inv_kind _ _ _ Hinv).
  by apply (steps_broadcast_inv _ _ _ _ Hsteps).
Qed.

Lemma WaitForSignal_loop_emitted (this : handle) (ms : list handle)
    (es : list Event) (w w' : World) :
  broadcast_inv this ms w ->
  WaitForSignal_loop this es w = Returns tt w' ->
  broadcast_inv this ms w' /\ emitted_by this w' <> [].
Proof.
  revert w. induction es as [|e es IH]; intros w Hinv; [done|].
  cbn [WaitForSignal_loop].
  assert (Hinv1 : broadcast_inv this ms (deliver e (with_future es w))).
  { apply deliver_broadcast_inv. by apply (broadcast_inv_frame this ms w). }
  destruct (_ <? _) eqn:Hlt.
  - intros [= <-]. split; [done|]. intros Hnil. rewrite Hnil in Hlt.
    apply Nat.ltb_lt in Hlt. simpl in Hlt. lia.
  - by apply IH.
Qed.

Lemma WaitForSignal_loop_missed (this : handle) (ms : list handle)
    (es : list Event) (w : World) :
  broadcast_inv this ms w ->
  all_finished w ms = true ->
  WaitForSignal_loop this es w = WaitsForever.
Proof.
  revert w. induction es as [|e es IH]; intros w Hinv Hall; [done|].
  cbn [WaitForSignal_loop].
  assert (Hinv0 : broadcast_inv this ms (with_future es w))
    by (by apply (broadcast_inv_frame this ms w)).
  pose proof (deliver_broadcast_inv this ms e _ Hinv0) as Hinv1.
  assert (Hall1 : all_finished (deliver e (with_future es w)) ms = true)
    by (by apply all_finished_mono).
  rewrite (inv_emitted _ _ _ Hinv), (inv_emitted _ _ _ Hinv1), Hall, Hall1.
  rewrite (IH _ Hinv1 Hall1).
  by destruct (negb _).
Qed.

(** X5.  Take the broadcast reply of a statistics query, at any later
    time.  When [WaitForFinished()] on it returns, it returns [true] and
    every member is finished, also when the [Finished(bool)] it waited for
    carried [false] because a member failed: the result of the wait says
    nothing about the success of the broadcast. *)
Theorem broadcast_wait_reports_true
    (w : World) (this : handle) (w0 w1 : World) (b : bool) (w' : World) :
  wf w ->
  GetNetworkStatistics w = Returns this w0 ->
  rtc step w0 w1 ->
  WaitForFinished this w1 = Returns b w' ->
  let ms := replies w0 this in
  b = true /\
  all_finished w' ms = true /\
  emitted_by this w' = [all_successful w' ms].
Proof.
  intros Hwf Hget Hsteps Hwait ms.
  pose proof (statistics_reply_inv w this w0 w1 Hwf Hget Hsteps) as Hinv.
  fold ms in Hinv. revert Hwait.
  unfold WaitForFinished. rewrite (inv_kind _ _ _ Hinv).
  unfold BroadcastReply_WaitForFinished, bind, WaitForSignal.
  destruct (WaitForSignal_loop this (future w1) w1) as [[] w2| |] eqn:Hloop;
    [|done|done].
  intros [= <- <-].
  destruct (WaitForSignal_loop_emitted _ _ _ _ _ Hinv Hloop) as [Hinv2 Hne].
  rewrite (IsFinished_all _ _ _ (inv_kind _ _ _ Hinv2)).
  rewrite (inv_emitted _ _ _ Hinv2) in Hne |- *.
  destruct (all_finished w2 ms); [|done]. by destruct (negb _).
Qed.

(** X6.  A wait that begins too late never ends: when every member of
    the broadcast reply of a statistics query is finished already,
    [WaitForFinished()] on it does not return, whatever the environment
    delivers afterwards. *)
Theorem broadcast_wait_after_finished
    (w : World) (this : handle) (w0 w1 : World) :
  wf w ->
  GetNetworkStatistics w = Returns this w0 ->
  rtc step w0 w1 ->
  all_finished w1 (replies w0 this) = true ->
  WaitForFinished this w1 = WaitsForever.
Proof.
  intros Hwf Hget Hsteps Hall.
  pose proof (statistics_reply_inv w this w0 w1 Hwf Hget Hsteps) as Hinv.
  unfold WaitForFinished. rewrite (inv_kind _ _ _ Hinv).
  unfold BroadcastReply_WaitForFinished, bind, WaitForSignal.
  by rewrite (WaitForSignal_loop_missed this _ _ _ Hinv Hall).
Qed.

(** *** A wrapper whose worker never answers *)

Lemma wait_resolved_never (h : handle) (es : list Event) (w : World) :
  h ∈ pending w ->
  is_finished (deref w h) = false ->
  no_response_for h es ->
  wait_resolved h es w = WaitsForever.
Proof.
  revert w. induction es as [|e es IH]; intros w Hin Hunf Hno;
    cbn [wait_resolved]; rewrite Hunf; [done|].
  set (w1 := with_future es w).
  assert (Hin1 : h ∈ pending w1) by done.
  assert (Hno1 : no_response_for h [e]).
  { intros ok' resp' Hel. apply (Hno ok' resp').
    apply list_elem_of_singleton in Hel as ->. by left. }
  destruct (deliver_other e h w1 Hno1 Hin1) as (Hin2 & Hd2).
  apply IH; [done|by rewrite Hd2|].
  intros ok' resp' Hel. apply (Hno ok' resp'). by right.
Qed.

Lemma blocking_form_unanswered {A} (m : Message)
    (extract : Message -> A -> A) (init : A) (w : World) :
  not_on_object_thread w = true ->
  ready_workers w <> 0 ->
  no_response_for (length (heap w)) (future w) ->
  blocking_form (SendMessageWithReply m) extract init w = WaitsForever.
Proof.
  intros Hthread Hready Hno.
  set (h := length (heap w)) in *.
  pose proof (SendMessageWithReply_ready m w Hready) as Hsend. fold h in Hsend.
  match type of Hsend with _ = Returns _ ?x => set (w1 := x) in * end.
  assert (Hd : deref w1 h = new_Reply m PlainReply) by (by apply deref_alloc).
  assert (Hw : WaitForFinished h w1 = WaitsForever).
  { unfold WaitForFinished. rewrite Hd. cbn [kind new_Reply].
    unfold TagReaderReply_WaitForFinished.
    apply wait_resolved_never.
    - cbn. apply elem_of_app. right. by left.
    - by rewrite Hd.
    - done. }
  unfold blocking_form, bind, Q_ASSERT. rewrite Hthread, Hsend. by rewrite Hw.
Qed.

(** X7.  The blocking wrappers have no timeout: called off the client's
    thread with a worker ready, a wrapper whose reply gets no response
    never returns. *)
Theorem blocking_wrappers_wait_forever (w : World) :
  not_on_object_thread w = true ->
  ready_workers w <> 0 ->
  no_response_for (length (heap w)) (future w) ->
  (forall filename song, ReadFileBlocking filename song w = WaitsForever) /\
  (forall filename metadata,
     SaveFileBlocking filename metadata w = WaitsForever) /\
  (forall metadata, UpdateSongStatisticsBlocking metadata w = WaitsForever) /\
  (forall metadata, UpdateSongRatingBlocking metadata w = WaitsForever) /\
  (forall filename, IsMediaFileBlocking filename w = WaitsForever) /\
  (forall filename, LoadEmbeddedArtBlocking filename w = WaitsForever).
Proof.
  intros Hthread Hready Hno.
  repeat split; intros; to_blocking_form; by apply blocking_form_unanswered.
Qed.

(** *** The batch updates *)

Lemma batch_sent_nil (w : World) : batch_sent [] w w.
Proof.
  split; cbn; rewrite ?app_nil_r; try done.
  by destruct (ready_workers w =? 0); rewrite app_nil_r.
Qed.

(** One round of the loop: the request is sent and the reply connected
    to its own [deleteLater()]. *)
Lemma batch_sent_one (m : Message) (w : World) :
  exists w1,
    (reply <- SendMessageWithReply m ;; connect_deleteLater reply) w =
      Returns tt w1 /\
    batch_sent [m] w w1.
Proof.
  unfold bind, SendMessageWithReply, connect_deleteLater, modify.
  destruct (ready_workers w =? 0) eqn:Hr; eexists; (split; [reflexivity|]);
    (split; cbn;
     [ rewrite length_app; simpl; lia
     | intros [|i] m' Hi; [|done]; injection Hi as <-;
       rewrite Nat.add_0_r;
       match goal with
       | |- context [deref ?x _] =>
           by rewrite (deref_alloc w x _ eq_refl)
       end
     | intros h Hh; unfold deref; cbn; by rewrite lookup_app_l
     | done | done | by rewrite ?Hr, ?app_nil_r | done | done | done | done
     | done ]).
Qed.

Lemma batch_sent_cons (m : Message) (ms : list Message) (w w1 w' : World) :
  batch_sent [m] w w1 -> batch_sent ms w1 w' -> batch_sent (m :: ms) w w'.
Proof.
  intros H1 H2.
  pose proof (batch_heap _ _ _ H1) as Hlen. cbn in Hlen.
  split.
  - rewrite (batch_heap _ _ _ H2), Hlen. cbn. lia.
  - intros [|i] m' Hi.
    + injection Hi as <-.
      destruct (batch_requests _ _ _ H1 0 m eq_refl) as [Hm Hk].
      rewrite (batch_old _ _ _ H2) by lia. done.
    + cbn in Hi. destruct (batch_requests _ _ _ H2 i m' Hi) as [Hm Hk].
      rewrite Hlen in Hm, Hk.
      by replace (length (heap w) + S i) with (length (heap w) + 1 + i) by lia.
  - intros h Hh. rewrite (batch_old _ _ _ H2) by lia.
    by apply (batch_old _ _ _ H1).
  - rewrite (batch_pool_calls _ _ _ H2), (batch_pool_calls _ _ _ H1).
    by rewrite <- app_assoc.
  - rewrite (batch_connections _ _ _ H2), (batch_connections _ _ _ H1), Hlen.
    rewrite <- app_assoc. cbn.
    by replace (length (heap w) + 1) with (S (length (heap w))) by lia.
  - rewrite (batch_pending _ _ _ H2), (batch_pending _ _ _ H1), Hlen.
    rewrite (batch_ready_workers _ _ _ H1).
    destruct (ready_workers w =? 0); [by rewrite !app_nil_r|].
    rewrite <- app_assoc. cbn.
    by replace (length (heap w) + 1) with (S (length (heap w))) by lia.
  - by rewrite (batch_ready_workers _ _ _ H2), (batch_ready_workers _ _ _ H1).
  - by rewrite (batch_future _ _ _ H2), (batch_future _ _ _ H1).
  - by rewrite (batch_deleted _ _ _ H2), (batch_deleted _ _ _ H1).
  - by rewrite (batch_log _ _ _ H2), (batch_log _ _ _ H1).
  - destruct (batch_threads _ _ _ H1) as [<- <-].
    apply (batch_threads _ _ _ H2).
Qed.

Lemma UpdateSongsStatistics_sent (songs : list Song) (w : World) :
  exists w',
    UpdateSongsStatistics songs w = Returns tt w' /\
    batch_sent (map song_statistics_request songs) w w'.
Proof.
  revert w. induction songs as [|song songs IH]; intros w.
  - exists w. split; [done|apply batch_sent_nil].
  - destruct (batch_sent_one (song_statistics_request song) w) as (w1 & H1 & Hb1).
    destruct (IH w1) as (w' & H' & Hb').
    exists w'. split; [|by apply (batch_sent_cons _ _ w w1 w')].
    revert H1 H'. cbn [UpdateSongsStatistics].
    unfold bind, UpdateSongStatistics. fold (song_statistics_request song).
    destruct (SendMessageWithReply _ w) as [h w2| |]; [|done|done].
    destruct (connect_deleteLater h w2) as [[] w3| |]; [|done|done].
    by intros [= ->].
Qed.

Lemma UpdateSongsRating_sent (songs : list Song) (w : World) :
  exists w',
    UpdateSongsRating songs w = Returns tt w' /\
    batch_sent (map song_rating_request songs) w w'.
Proof.
  revert w. induction songs as [|song songs IH]; intros w.
  - exists w. split; [done|apply batch_sent_nil].
  - destruct (batch_sent_one (song_rating_request song) w) as (w1 & H1 & Hb1).
    destruct (IH w1) as (w' & H' & Hb').
    exists w'. split; [|by apply (batch_sent_cons _ _ w w1 w')].
    revert H1 H'. cbn [UpdateSongsRating].
    unfold bind, UpdateSongRating. fold (song_rating_request song).
    destruct (SendMessageWithReply _ w) as [h w2| |]; [|done|done].
    destruct (connect_deleteLater h w2) as [[] w3| |]; [|done|done].
    by intros [= ->].
Qed.

(** X8.  The two batch updates are fire and forget.  On any thread and
    with or without a ready worker they return, having sent one request
    per song to a single worker, in the order of the list, and having
    connected each reply to its own [deleteLater()]; they wait for
    nothing, release nothing and log nothing. *)
Theorem batch_updates_send_and_connect (songs : list Song) (w : World) :
  (exists w',
     UpdateSongsStatistics songs w = Returns tt w' /\
     batch_sent (map song_statistics_request songs) w w') /\
  (exists w',
     UpdateSongsRating songs w = Returns tt w' /\
     batch_sent (map song_rating_request songs) w w').
Proof.
  split; [apply UpdateSongsStatistics_sent|apply UpdateSongsRating_sent].
Qed.

(** *** What is handed to [deleteLater()], and when *)

Lemma run_slots_deleted (sender : handle) (w : World) :
  deleted (run_slots sender w) =
  deleted w ++ released_on sender (connections w).
Proof.
  unfold run_slots. generalize (connections w). intros cs. revert w.
  induction cs as [|[s sl] cs IH]; intros w; [by rewrite app_nil_r|].
  cbn [foldl released_on omap list_omap fst snd]. rewrite IH.
  destruct sl as [this|r]; case_bool_decide; cbn [run_slot]; try done.
  - unfold member_finished. by destruct (IsFinished w this).
  - cbn. by rewrite <- app_assoc.
Qed.

Lemma deliver_deleted (e : Event) (w : World) :
  deleted (deliver e w) =
  deleted w ++
    match e with
    | Resolved h _ _ =>
        if bool_decide (h ∈ pending w) then released_on h (connections w)
        else []
    | _ => []
    end.
Proof.
  destruct e as [h ok resp| |]; cbn [deliver].
  - case_bool_decide; [|by rewrite app_nil_r].
    by rewrite run_slots_deleted.
  - by rewrite app_nil_r.
  - rewrite app_nil_r. by destruct (slot_connected w).
Qed.

Lemma deliver_connections (e : Event) (w : World) :
  connections (deliver e w) = connections w.
Proof.
  destruct e as [h ok resp| |]; cbn [deliver]; [|done|].
  - case_bool_decide; [|done].
    by rewrite (run_slots_proj connections) by (intros s w1; apply run_slot_frame).
  - by destruct (slot_connected w).
Qed.

Lemma deliver_pending (e : Event) (w : World) (h : handle) :
  h ∈ pending (deliver e w) -> h ∈ pending w.
Proof.
  destruct e as [h' ok resp| |]; cbn [deliver]; [|done|].
  - case_bool_decide; [|done].
    rewrite (run_slots_proj pending) by (intros s w1; apply run_slot_frame).
    cbn. rewrite list_elem_of_filter. tauto.
  - by destruct (slot_connected w).
Qed.

Lemma deliver_resolved_pending (h : handle) (ok : bool) (resp : Message)
    (w : World) :
  h ∉ pending (deliver (Resolved h ok resp) w).
Proof.
  destruct (decide (h ∈ pending w)) as [Hin|Hnin];
    [|by rewrite deliver_stale].
  destruct (deliver_resolved_fields h ok resp w Hin) as (_ & -> & _).
  rewrite list_elem_of_filter. tauto.
Qed.

Lemma released_on_cons (s : handle) (c : handle * Slot)
    (cs : list (handle * Slot)) :
  released_on s (c :: cs) =
  match snd c with
  | DeleteLater r =>
      if bool_decide (fst c = s) then r :: released_on s cs
      else released_on s cs
  | MemberFinished _ => released_on s cs
  end.
Proof.
  unfold released_on. cbn. destruct (snd c); [done|]. by case_bool_decide.
Qed.

Lemma count_released_on (h s : handle) (cs : list (handle * Slot)) :
  length (filter (fun r => r = h) (released_on s cs)) =
  length (filter (fun c => c = (s, DeleteLater h)) cs).
Proof.
  induction cs as [|[s' sl] cs IH]; [done|].
  rewrite (filter_cons (fun c => c = (s, DeleteLater h))), released_on_cons.
  cbn [fst snd]. destruct sl as [this|r].
  - rewrite decide_False by congruence. apply IH.
  - case_bool_decide as Hs.
    + rewrite filter_cons. destruct (decide (r = h)) as [->|Hr].
      * rewrite decide_True by congruence. cbn. by rewrite IH.
      * rewrite decide_False by congruence. apply IH.
    + rewrite decide_False by congruence. apply IH.
Qed.

Lemma release_count_deliver (h : handle) (e : Event) (w : World) :
  release_count h (deliver e w) =
  release_count h w +
    match e with
    | Resolved s _ _ =>
        if bool_decide (s ∈ pending w)
        then length (filter (fun c => c = (s, DeleteLater h)) (connections w))
        else 0
    | _ => 0
    end.
Proof.
  unfold release_count. rewrite deliver_deleted, filter_app, length_app.
  f_equal. destruct e as [s ok resp| |]; [|done|done].
  case_bool_decide; [|done]. apply count_released_on.
Qed.

(** While no response for [h] arrives, [h] stays with the pool and is
    not released, provided that no other reply releases it. *)
Lemma deliver_all_unanswered (h : handle) (es : list Event) (w : World) :
  (forall s, s <> h -> (s, DeleteLater h) ∉ connections w) ->
  no_response_for h es ->
  release_count h (deliver_all es w) = release_count h w /\
  connections (deliver_all es w) = connections w /\
  (h ∈ pending w -> h ∈ pending (deliver_all es w)).
Proof.
  intros Hcs. revert w Hcs.
  induction es as [|e es IH]; intros w Hcs Hno; [done|].
  rewrite deliver_all_cons.
  assert (Hno1 : no_response_for h [e]).
  { intros ok' resp' Hel. apply (Hno ok' resp').
    apply list_elem_of_singleton in Hel as ->. by left. }
  destruct (IH (deliver e w)) as (Hc & Hconn & Hpend).
  { by rewrite deliver_connections. }
  { intros ok' resp' Hel. apply (Hno ok' resp'). by right. }
  rewrite Hc, Hconn, deliver_connections. split; [|split; [done|]].
  - rewrite release_count_deliver. destruct e as [s ok resp| |]; [|lia|lia].
    case_bool_decide; [|lia]. rewrite filter_none; [simpl; lia|].
    intros c Hc1 ->. apply (Hcs s); [|done].
    intros ->. apply (Hno ok resp). by left.
  - intros Hin. apply Hpend. by apply deliver_other.
Qed.

(** Once the pool no longer waits for [h], nothing releases it again. *)
Lemma deliver_all_not_pending (h : handle) (es : list Event) (w : World) :
  (forall s, s <> h -> (s, DeleteLater h) ∉ connections w) ->
  h ∉ pending w ->
  release_count h (deliver_all es w) = release_count h w.
Proof.
  intros Hcs. revert w Hcs.
  induction es as [|e es IH]; intros w Hcs Hnin; [done|].
  rewrite deliver_all_cons, IH.
  - rewrite release_count_deliver. destruct e as [s ok resp| |]; [|lia|lia].
    case_bool_decide as Hs; [|lia]. rewrite filter_none; [simpl; lia|].
    intros c Hc1 ->. apply (Hcs s); [|done]. by intros ->.
  - by rewrite deliver_connections.
  - intros Hin. by apply Hnin, (deliver_pending e).
Qed.

(** A reply that only its own signal releases, once, is released exactly
    when its response arrives. *)
Lemma released_when_answered (h : handle) (ok : bool) (resp : Message)
    (es1 es2 : list Event) (w : World) :
  (forall s, s <> h -> (s, DeleteLater h) ∉ connections w) ->
  length (filter (fun c => c = (h, DeleteLater h)) (connections w)) = 1 ->
  h ∈ pending w ->
  no_response_for h es1 ->
  release_count h (deliver_all es1 w) = release_count h w /\
  release_count h (deliver_all (es1 ++ Resolved h ok resp :: es2) w) =
    S (release_count h w).
Proof.
  intros Hcs Hown Hin Hno.
  destruct (deliver_all_unanswered h es1 w Hcs Hno) as (Hc & Hconn & Hpend).
  split; [done|].
  unfold deliver_all at 1. rewrite foldl_app. fold (deliver_all es1 w).
  change (foldl _ ?x (?e :: ?es)) with (deliver_all es (deliver e x)).
  rewrite deliver_all_not_pending.
  - rewrite release_count_deliver, bool_decide_eq_true_2 by auto.
    rewrite Hconn, Hown, Hc. lia.
  - by rewrite deliver_connections, Hconn.
  - apply deliver_resolved_pending.
Qed.

(** The replies of a batch are released by their own signal only. *)
Lemma batch_sent_own_slot (requests : list Message) (w w' : World)
    (h : handle) :
  receivers_allocated w ->
  batch_sent requests w w' ->
  length (heap w) <= h < length (heap w) + length requests ->
  (forall s, s <> h -> (s, DeleteLater h) ∉ connections w') /\
  length (filter (fun c => c = (h, DeleteLater h)) (connections w')) = 1.
Proof.
  intros Halloc Hb Hh. rewrite (batch_connections _ _ _ Hb). split.
  - intros s Hs. rewrite elem_of_app, list_elem_of_fmap.
    intros [Hold|(i & Heq & _)].
    + apply Halloc in Hold. lia.
    + congruence.
  - rewrite filter_app, length_app, filter_none.
    + cbn. clear Hb. generalize (length requests) Hh. generalize (length (heap w)).
      intros base n Hr.
      assert (Hin : h ∈ seq base n) by (apply elem_of_seq; lia).
      pose proof (NoDup_count (seq base n) h (NoDup_seq base n)) as Hcount.
      rewrite decide_True in Hcount by done. rewrite <- Hcount.
      clear. induction (seq base n) as [|i l IH]; [done|].
      cbn [map]. rewrite !filter_cons.
      destruct (decide (i = h)) as [->|Hi].
      * rewrite decide_True by done. cbn. by rewrite IH.
      * rewrite decide_False by congruence. done.
    + intros c Hc ->. apply Halloc in Hc. lia.
Qed.

(** X9.  A reply that a batch update made for a ready worker is handed
    to [deleteLater()] exactly once, in the delivery of its response: not
    while other responses arrive before, and not again afterwards,
    whatever arrives. *)
Theorem batch_reply_released_once
    (songs : list Song) (w w' : World) (h : handle) (ok : bool)
    (resp : Message) (es1 es2 : list Event) :
  receivers_allocated w ->
  ready_workers w <> 0 ->
  UpdateSongsStatistics songs w = Returns tt w' \/
  UpdateSongsRating songs w = Returns tt w' ->
  length (heap w) <= h < length (heap w) + length songs ->
  no_response_for h es1 ->
  release_count h w' = release_count h w /\
  release_count h (deliver_all es1 w') = release_count h w /\
  release_count h (deliver_all (es1 ++ Resolved h ok resp :: es2) w') =
    S (release_count h w).
Proof.
  intros Halloc Hready Hcall Hh Hno.
  assert (exists requests,
            length requests = length songs /\ batch_sent requests w w')
    as (requests & Hlen & Hb).
  { destruct Hcall as [Hcall|Hcall].
    - destruct (UpdateSongsStatistics_sent songs w) as (w1 & H1 & Hb).
      rewrite Hcall in H1. injection H1 as <-.
      eexists. split; [|done]. by rewrite length_map.
    - destruct (UpdateSongsRating_sent songs w) as (w1 & H1 & Hb).
      rewrite Hcall in H1. injection H1 as <-.
      eexists. split; [|done]. by rewrite length_map. }
  rewrite <- Hlen in Hh.
  destruct (batch_sent_own_slot requests w w' h Halloc Hb Hh) as [Hcs Hown].
  assert (Hsame : release_count h w' = release_count h w).
  { unfold release_count. by rewrite (batch_deleted _ _ _ Hb). }
  rewrite <- Hsame. split; [done|].
  apply released_when_answered; [done|done| |done].
  rewrite (batch_pending _ _ _ Hb), (proj2 (Nat.eqb_neq _ _) Hready).
  apply elem_of_app. right. apply elem_of_seq. lia.
Qed.

(** A property that the environment preserves holds after a wait. *)
Section Environment.

Variable R : World -> Prop.

Hypothesis R_future : forall es w, R w -> R (with_future es w).
Hypothesis R_deliver : forall e w, R w -> R (deliver e w).

Lemma wait_resolved_env (reply : handle) (es : list Event) (w : World)
    (b : bool) (w' : World) :
  R w -> wait_resolved reply es w = Returns b w' -> R w'.
Proof.
  revert w. induction es as [|e es IH]; intros w HR; cbn [wait_resolved];
    (destruct (is_finished (deref w reply)); [by intros [= <- <-]|]); [done|].
  apply IH. by apply R_deliver, R_future.
Qed.

Lemma WaitForSignal_loop_env (sender : handle) (es : list Event) (w w' : World) :
  R w -> WaitForSignal_loop sender es w = Returns tt w' -> R w'.
Proof.
  revert w. induction es as [|e es IH]; intros w HR; [done|].
  cbn [WaitForSignal_loop].
  assert (R (deliver e (with_future es w))) by (by apply R_deliver, R_future).
  destruct (_ <? _); [by intros [= <-]|by apply IH].
Qed.

Lemma WaitForFinished_env (reply : handle) (w : World) (b : bool) (w' : World) :
  R w -> WaitForFinished reply w = Returns b w' -> R w'.
Proof.
  intros HR. unfold WaitForFinished. destruct (kind (deref w reply)).
  - apply wait_resolved_env, HR.
  - unfold BroadcastReply_WaitForFinished, bind, WaitForSignal.
    destruct (WaitForSignal_loop reply (future w) w) as [[] w1| |] eqn:Hloop;
      [|done|done].
    intros [= _ <-]. by apply (WaitForSignal_loop_env _ _ _ _ HR Hloop).
Qed.

End Environment.

Lemma deliver_pool_calls (e : Event) (w : World) :
  pool_calls (deliver e w) = pool_calls w.
Proof.
  destruct e as [h ok resp| |]; cbn [deliver]; [|done|].
  - case_bool_decide; [|done].
    rewrite (run_slots_proj pool_calls); [done|].
    intros [this|r] w1; [|done]. cbn. unfold member_finished.
    by destruct (IsFinished w1 this).
  - by destruct (slot_connected w).
Qed.

Lemma release_count_deleteLater (h : handle) (w : World) :
  release_count h (with_deleted (fun l => l ++ [h]) w) = S (release_count h w).
Proof.
  unfold release_count. cbn. rewrite filter_app, length_app, filter_cons.
  rewrite decide_True by done. cbn. lia.
Qed.

Lemma release_count_deleteLater_ne (h r : handle) (w : World) :
  r <> h ->
  release_count h (with_deleted (fun l => l ++ [r]) w) = release_count h w.
Proof.
  intros Hne. unfold release_count. cbn.
  rewrite filter_app, length_app, filter_cons.
  rewrite decide_False by done. cbn. lia.
Qed.

(** What a wait leaves alone: the calls on the pool, the heap's size,
    the connections, and the releases of an object that no connection
    releases. *)
Lemma WaitForFinished_footprint (reply h : handle) (w : World) (b : bool)
    (w' : World) :
  (forall s, (s, DeleteLater h) ∉ connections w) ->
  WaitForFinished reply w = Returns b w' ->
  pool_calls w' = pool_calls w /\ connections w' = connections w /\
  length (heap w') = length (heap w) /\
  release_count h w' = release_count h w.
Proof.
  intros Hcs.
  apply (WaitForFinished_env
           (fun w2 => pool_calls w2 = pool_calls w /\
                      connections w2 = connections w /\
                      length (heap w2) = length (heap w) /\
                      release_count h w2 = release_count h w)); [| |done].
  - by intros es w2.
  - intros e w2 (Hp & Hc & Hl & Hr).
    rewrite deliver_pool_calls, deliver_connections, deliver_length.
    repeat split; try done.
    rewrite release_count_deliver, Hr. destruct e as [s ok resp| |]; [|lia|lia].
    case_bool_decide; [|lia]. rewrite filter_none; [simpl; lia|].
    intros c Hin ->. apply (Hcs s). by rewrite <- Hc.
Qed.

Lemma blocking_form_releases {A} (m : Message)
    (extract : Message -> A -> A) (init : A) (w : World) :
  receivers_allocated w ->
  releases_its_reply (blocking_form (SendMessageWithReply m) extract init) w.
Proof.
  intros Halloc a w' Hret.
  apply blocking_form_inv in Hret
    as (reply & w1 & finished & w2 & _ & Hsend & Hwait & _ & ->).
  assert (reply = length (heap w) /\
          pool_calls w1 = pool_calls w ++ [SendMessageCall m] /\
          length (heap w1) = S (length (heap w)) /\
          connections w1 = connections w /\
          deleted w1 = deleted w) as (-> & Hp & Hl & Hc & Hd).
  { revert Hsend. unfold SendMessageWithReply.
    destruct (ready_workers w =? 0); intros [= <- <-]; cbn;
      rewrite length_app; cbn; repeat split; lia. }
  assert (Hcs : forall s, (s, DeleteLater (length (heap w))) ∉ connections w1).
  { intros s Hin. rewrite Hc in Hin. apply Halloc in Hin. lia. }
  destruct (WaitForFinished_footprint _ _ _ _ _ Hcs Hwait)
    as (Hp2 & Hc2 & Hl2 & Hr2).
  cbn zeta. rewrite release_count_deleteLater, Hr2.
  cbn. rewrite Hp2, Hp, Hl2, Hl, Hc2, Hc.
  repeat split; [by exists m|]. unfold release_count. by rewrite Hd.
Qed.

(** X10.  A blocking wrapper that returns has cleaned up after itself:
    it sent one request to a single worker, and the one reply the pool
    made for it was handed to [deleteLater()] exactly once, whatever else
    the environment delivered during the wait; no connection is left
    behind. *)
Theorem blocking_wrappers_release_reply (w : World) :
  receivers_allocated w ->
  (forall filename song,
     releases_its_reply (ReadFileBlocking filename song) w) /\
  (forall filename metadata,
     releases_its_reply (SaveFileBlocking filename metadata) w) /\
  (forall metadata,
     releases_its_reply (UpdateSongStatisticsBlocking metadata) w) /\
  (forall metadata,
     releases_its_reply (UpdateSongRatingBlocking metadata) w) /\
  (forall filename, releases_its_reply (IsMediaFileBlocking filename) w) /\
  (forall filename, releases_its_reply (LoadEmbeddedArtBlocking filename) w).
Proof.
  intros Halloc.
  split; [|split; [|split; [|split; [|split]]]]; intros;
    to_blocking_form; by apply blocking_form_releases.
Qed.

(** *** The statistics query, end to end *)

Lemma GetNetworkStatisticsBlocking_inv (w w' : World) :
  GetNetworkStatisticsBlocking w = Returns tt w' ->
  exists b w2,
    BroadcastReply_WaitForFinished (length (heap w) + ready_workers w)
      (broadcast_world w) = Returns b w2 /\
    let this := length (heap w) + ready_workers w in
    let stats := aggregate (entry (merged_response w2 (replies w2 this))) in
    w' = with_log (fun l => l ++ [LogRequests Debug (fst stats);
                                  LogBytes Debug (snd stats)])
           (with_deleted (fun l => l ++ [this]) w2).
Proof.
  unfold GetNetworkStatisticsBlocking, bind.
  rewrite GetNetworkStatistics_spec.
  destruct (BroadcastReply_WaitForFinished _ _) as [b w2| |] eqn:Hwait;
    [|done|done].
  unfold deleteLater, modify. intros [= <-]. by exists b, w2.
Qed.

(** X11.  The statistics query releases the broadcast reply and none of
    its members: when it returns, the broadcast reply was handed to
    [deleteLater()] exactly once, and the replies of the workers were not
    handed to it and have no connection that would do so later. *)
Theorem statistics_releases_broadcast_only (w w' : World) :
  receivers_allocated w ->
  GetNetworkStatisticsBlocking w = Returns tt w' ->
  exists this w0,
    GetNetworkStatistics w = Returns this w0 /\
    replies w' this = replies w0 this /\
    length (replies w' this) = ready_workers w /\
    release_count this w' = S (release_count this w) /\
    forall m,
      m ∈ replies w' this ->
      release_count m w' = release_count m w /\
      forall s, (s, DeleteLater m) ∉ connections w'.
Proof.
  intros Halloc Hret.
  apply GetNetworkStatisticsBlocking_inv in Hret as (b & w2 & Hwait & ->).
  set (this := length (heap w) + ready_workers w) in *.
  set (ms := seq (length (heap w)) (ready_workers w)).
  set (w0 := broadcast_world w) in *.
  exists this, w0. split; [apply GetNetworkStatistics_spec|].
  assert (Hk0 : kind (deref w0 this) = BroadcastReply ms)
    by (unfold w0, this; by rewrite deref_new_broadcast).
  assert (Hcs0 : forall s h, length (heap w) <= h ->
                             (s, DeleteLater h) ∉ connections w0).
  { intros s h Hh. cbn. rewrite elem_of_app, list_elem_of_fmap.
    intros [Hold|(i & Heq & _)]; [|congruence].
    apply Halloc in Hold. lia. }
  assert (Hthis : this < length (heap w0)).
  { cbn. rewrite !length_app, length_replicate. cbn. unfold this. lia. }
  assert (connections w2 = connections w0 /\
          kind (deref w2 this) = BroadcastReply ms /\
          length (heap w2) = length (heap w0) /\
          forall h, length (heap w) <= h ->
                    release_count h w2 = release_count h w)
    as (Hc2 & Hk2 & Hl2 & Hr2).
  { revert Hwait. unfold BroadcastReply_WaitForFinished, bind, WaitForSignal.
    destruct (WaitForSignal_loop this (future w0) w0) as [[] w1| |] eqn:Hloop;
      [|done|done].
    intros [= _ <-]. revert Hloop.
    apply (WaitForSignal_loop_env
             (fun w1 => connections w1 = connections w0 /\
                        kind (deref w1 this) = BroadcastReply ms /\
                        length (heap w1) = length (heap w0) /\
                        forall h, length (heap w) <= h ->
                                  release_count h w1 = release_count h w)).
    - by intros es w3.
    - intros e w3 (Hc & Hk & Hl & Hr).
      rewrite deliver_connections, deliver_length.
      split; [done|]. split; [|split; [done|]].
      + destruct (deliver_kinds e w3) as [_ Hkinds].
        rewrite Hkinds; [done|]. by rewrite Hl.
      + intros h Hh. rewrite release_count_deliver, (Hr h Hh).
        destruct e as [s ok resp| |]; [|lia|lia].
        case_bool_decide; [|lia]. rewrite filter_none; [simpl; lia|].
        intros c Hin ->. apply (Hcs0 s h Hh). by rewrite <- Hc.
    - by repeat split. }
  assert (Hrep : replies
            (with_log
               (fun l => l ++
                  [LogRequests Debug
                     (fst (aggregate (entry (merged_response w2
                                               (replies w2 this)))));
                   LogBytes Debug
                     (snd (aggregate (entry (merged_response w2
                                               (replies w2 this)))))])
               (with_deleted (fun l => l ++ [this]) w2)) this = ms).
  { unfold replies.
    change (deref (with_log _ (with_deleted _ w2)) this) with (deref w2 this).
    by rewrite Hk2. }
  rewrite Hrep. unfold replies at 1. rewrite Hk0.
  split; [done|]. split; [apply length_seq|]. split.
  - change (release_count this (with_log ?f ?x)) with (release_count this x).
    rewrite release_count_deleteLater, Hr2; [done|unfold this; lia].
  - intros m Hm. apply elem_of_seq in Hm. split.
    + change (release_count m (with_log ?f ?x)) with (release_count m x).
      rewrite release_count_deleteLater_ne by (unfold this; lia).
      apply Hr2. lia.
    + intros s.
      change (connections (with_log ?f (with_deleted ?g w2)))
        with (connections w2).
      rewrite Hc2. apply Hcs0. lia.
Qed.

Lemma deliver_resolved_log (h : handle) (ok : bool) (resp : Message)
    (w : World) :
  log (deliver (Resolved h ok resp) w) = log w.
Proof.
  cbn [deliver]. case_bool_decide; [|done].
  rewrite (run_slots_proj log); [done|].
  intros [this|r] w1; [|done]. cbn. unfold member_finished.
  by destruct (IsFinished w1 this).
Qed.

(** The responses for distinct replies the pool waits for, delivered in
    any order: each of the replies holds its response afterwards, and no
    other object has changed. *)
Lemma deliver_all_answers (arrivals : list (handle * (bool * Message))) :
  forall w : World,
    NoDup (map fst arrivals) ->
    (forall a, a ∈ arrivals ->
               fst a ∈ pending w /\ fst a < length (heap w)) ->
    let w1 := deliver_all (map Resolved_of arrivals) w in
    (forall h ok resp,
       (h, (ok, resp)) ∈ arrivals -> deref w1 h = resolve ok resp (deref w h)) /\
    (forall h, h ∉ map fst arrivals -> deref w1 h = deref w h) /\
    log w1 = log w.
Proof.
  induction arrivals as [|[h [ok resp]] rest IH]; intros w Hnd Hpend.
  { split; [|done]. intros h ok resp Hin. by apply elem_of_nil in Hin. }
  cbn [map fst] in Hnd. apply NoDup_cons in Hnd as [Hh Hnd].
  cbn [map]. change (Resolved_of (h, (ok, resp))) with (Resolved h ok resp).
  rewrite deliver_all_cons.
  set (w' := deliver (Resolved h ok resp) w).
  destruct (Hpend (h, (ok, resp))) as [Hin Hlt]; [by left|]. cbn in Hin, Hlt.
  destruct (deliver_resolved_fields h ok resp w Hin) as (Hheap & Hp & _).
  fold w' in Hheap, Hp.
  destruct (IH w' Hnd) as (Hres & Hoth & Hlog).
  { intros a Ha. destruct (Hpend a) as [Hin' Hlt']; [by right|].
    split; [|unfold w'; by rewrite deliver_length].
    rewrite Hp. apply list_elem_of_filter. split; [|done].
    intros Heq. apply Hh. rewrite <- Heq. apply list_elem_of_fmap. by exists a. }
  cbn zeta in *. split; [|split].
  - intros h' ok' resp' Hel. apply elem_of_cons in Hel as [Heq|Hel].
    + injection Heq as -> -> ->. rewrite (Hoth h Hh).
      by apply (deref_alter_eq w w' _ h Hheap).
    + rewrite (Hres h' ok' resp' Hel). f_equal.
      apply (deref_alter_ne w w' _ h _ Hheap).
      intros ->. apply Hh. apply list_elem_of_fmap. by exists (h, (ok', resp')).
  - intros h' Hnin. rewrite not_elem_of_cons in Hnin. destruct Hnin as [Hne Hnin].
    rewrite (Hoth h' Hnin). by apply (deref_alter_ne w w' _ h _ Hheap).
  - rewrite Hlog. apply deliver_resolved_log.
Qed.

(** X12.  The statistics query, end to end.  Every worker that was ready
    answers once, in any order and successfully or not: the query
    returns right after the last answer and logs the two maps of the
    counters for the entries of all answers, taken in the order of the
    workers.  The success flags of the answers play no part. *)
Theorem GetNetworkStatisticsBlocking_answered
    (w : World) (this : handle) (w0 : World)
    (answers : list (bool * Message))
    (arrivals : list (handle * (bool * Message))) (es2 : list Event) :
  wf w ->
  ready_workers w <> 0 ->
  GetNetworkStatistics w = Returns this w0 ->
  length answers = ready_workers w ->
  arrivals ≡ₚ zip (replies w0 this) answers ->
  future w = map Resolved_of arrivals ++ es2 ->
  let entries :=
    concat (map (fun a => entry (network_statistics_response (snd a)))
                answers) in
  exists w',
    GetNetworkStatisticsBlocking w = Returns tt w' /\
    future w' = es2 /\
    log w' = log w ++ [LogRequests Debug (fst (aggregate entries));
                       LogBytes Debug (snd (aggregate entries))].
Proof.
  intros Hwf Hready Hget Hlen Hperm Hfut entries.
  rewrite GetNetworkStatistics_spec in Hget. injection Hget as <- <-.
  set (this := length (heap w) + ready_workers w) in *.
  set (ms := seq (length (heap w)) (ready_workers w)).
  set (w0 := broadcast_world w) in *.
  pose proof (broadcast_world_inv w Hwf) as Hinv. fold this ms w0 in Hinv.
  assert (Hrep0 : replies w0 this = ms).
  { unfold replies. by rewrite (inv_kind _ _ _ Hinv). }
  rewrite Hrep0 in Hperm.
  assert (Hlen_ms : length ms = length answers)
    by (unfold ms; by rewrite length_seq).
  assert (Hfst : map fst arrivals ≡ₚ ms).
  { rewrite Hperm. by rewrite fst_zip by lia. }
  assert (Hnd : NoDup (map fst arrivals)).
  { rewrite Hfst. apply NoDup_seq. }
  assert (Hnew : forall m, m ∈ ms ->
            deref w0 m = new_Reply network_statistics_message PlainReply).
  { intros m Hm. apply elem_of_seq in Hm. by apply deref_new_member. }
  assert (Hpend : forall l a, a ∈ l -> l ⊆ arrivals ->
            fst a ∈ pending w0 /\ fst a < length (heap w0)).
  { intros l a Ha Hl.
    assert (Hm : fst a ∈ ms).
    { rewrite <- Hfst. apply list_elem_of_fmap. exists a. split; [done|].
      by apply Hl. }
    split; [|by apply (inv_valid _ _ _ Hinv)].
    apply (inv_pending _ _ _ Hinv); [done|]. by rewrite (Hnew _ Hm). }
  (* the arrivals end with a last one *)
  assert (arrivals <> []) as Hne.
  { intros ->. apply Permutation_length in Hfst.
    revert Hfst. unfold ms. rewrite length_seq. cbn. lia. }
  destruct (exists_last Hne) as (a1 & x & ->).
  assert (Hbefore :
            all_finished (deliver_all (map Resolved_of a1) w0) ms = false).
  { destruct (all_finished _ ms) eqn:Hall; [|done]. exfalso.
    rewrite all_finished_spec in Hall.
    assert (Hx : fst x ∈ ms).
    { rewrite <- Hfst, map_app. apply elem_of_app. right. by left. }
    specialize (Hall _ Hx).
    destruct (deliver_all_answers a1 w0) as (_ & Hoth & _).
    { rewrite map_app in Hnd. by apply NoDup_app in Hnd as (? & _ & _). }
    { intros a Ha. apply (Hpend a1); [done|].
      intros y Hy. apply elem_of_app. by left. }
    cbn zeta in Hoth. rewrite Hoth, (Hnew _ Hx) in Hall; [done|].
    rewrite map_app in Hnd. apply NoDup_app in Hnd as (_ & Hdisj & _).
    intros Hin. apply (Hdisj _ Hin). by left. }
  destruct (deliver_all_answers (a1 ++ [x]) w0 Hnd) as (Hres & Hoth & Hlog).
  { intros a Ha. by apply (Hpend (a1 ++ [x])). }
  cbn zeta in Hres, Hoth, Hlog.
  assert (Hmsg : forall m ok resp,
            (m, (ok, resp)) ∈ zip ms answers ->
            deref (deliver_all (map Resolved_of (a1 ++ [x])) w0) m =
            resolve ok resp (deref w0 m)).
  { intros m ok resp Hin. apply Hres. by rewrite Hperm. }
  assert (Hafter :
            all_finished (deliver_all (map Resolved_of a1 ++ [Resolved_of x]) w0)
                         ms = true).
  { change [Resolved_of x] with (map Resolved_of [x]). rewrite <- map_app.
    apply all_finished_spec. intros m Hm.
    assert (m ∈ map fst (a1 ++ [x])) as Hin by (by rewrite Hfst).
    apply list_elem_of_fmap in Hin as ([m' [ok resp]] & -> & Hin).
    cbn [fst]. by rewrite (Hres _ _ _ Hin). }
  assert (Hfut0 : future w0 = map Resolved_of a1 ++ Resolved_of x :: es2).
  { change (future w0) with (future w). rewrite Hfut, map_app.
    by rewrite <- app_assoc. }
  pose proof (BroadcastReply_WaitForFinished_returns this ms _ es2 _ w0
                Hinv Hfut0 Hbefore Hafter) as Hwait.
  change [Resolved_of x] with (map Resolved_of [x]) in Hwait.
  rewrite <- map_app in Hwait.
  set (w1 := deliver_all (map Resolved_of (a1 ++ [x])) w0) in *.
  eexists. split; [|split].
  - unfold GetNetworkStatisticsBlocking, bind.
    rewrite GetNetworkStatistics_spec. fold this w0. rewrite Hwait.
    unfold deleteLater, modify. reflexivity.
  - done.
  - set (w2 := with_deleted (fun l => l ++ [this]) (with_future es2 w1)).
    assert (Hrep : replies w2 this = ms).
    { unfold replies. change (deref w2 this) with (deref w1 this).
      rewrite Hoth, (inv_kind _ _ _ Hinv); [done|].
      rewrite Hfst. unfold ms, this. rewrite elem_of_seq. lia. }
    assert (Hentries : entry (merged_response w2 (replies w2 this)) = entries).
    { rewrite merged_response_entries, Hrep. unfold entries. f_equal.
      rewrite <- (fst_zip ms answers) at 1 by lia.
      rewrite <- (snd_zip ms answers) at 2 by lia.
      rewrite <- !list_fmap_compose. apply list_fmap_ext.
      intros i [m [ok resp]] Hi. cbn.
      change (deref w2 m) with (deref w1 m).
      rewrite (Hmsg m ok resp); [done|by eapply list_elem_of_lookup_2]. }
    rewrite Hentries. cbn [log with_log].
    change (log w2) with (log w1). rewrite Hlog. done.
Qed.

End Properties.

(** ** The properties on the concrete inputs *)

Section Checks.

#[local] Existing Instance plain_externals.

Lemma three_workers_wf : wf three_workers.
Proof. split; cbn; intros *; intros H; by apply elem_of_nil in H. Defined.

Lemma no_worker_wf : wf no_worker.
Proof. split; cbn; intros *; intros H; by apply elem_of_nil in H. Defined.

(** Three workers, two succeed and one fails: the broadcast reply emits
    [Finished(false)], and nothing before the third response. *)
Lemma three_workers_two_succeed_one_fails :
  emitted_by 3 (deliver_all two_succeed_one_fails
                            (broadcast_world three_workers)) = [false] /\
  emitted_by 3 (deliver_all (take 2 two_succeed_one_fails)
                            (broadcast_world three_workers)) = [].
Proof.
  split.
  - pose proof (BroadcastReply_finished_with_members three_workers 3
           (broadcast_world three_workers) _
           three_workers_wf eq_refl
           (deliver_all_steps two_succeed_one_fails _)) as (_ & _ & _ & H & _).
    exact H.
  - pose proof (BroadcastReply_finished_with_members three_workers 3
           (broadcast_world three_workers) _
           three_workers_wf eq_refl
           (deliver_all_steps (take 2 two_succeed_one_fails) _))
      as (_ & _ & _ & H & _).
    exact H.
Defined.

Lemma example_within_bounds :
  (Z.of_nat (length example_entries) <= INT_MAX)%Z /\
  (forall host, INT64_MIN <= byte_count host example_entries <= INT64_MAX)%Z.
Proof.
  split; [by vm_compute|].
  intros host. unfold byte_count, entries_of, example_entries.
  rewrite !filter_cons, filter_nil.
  cbn [url bytes_received authority plain_externals].
  repeat case_decide; by vm_compute.
Defined.

(** The example of the design document. *)
Lemma aggregate_example :
  fst (aggregate example_entries) = {[ "a.com" := 2%Z; "b.com" := 1%Z ]} /\
  snd (aggregate example_entries) = {[ "a.com" := 150%Z; "b.com" := 10%Z ]}.
Proof.
  destruct example_within_bounds as [Hlen Hsum].
  pose proof (aggregate_counts_and_sums example_entries Hlen Hsum) as H.
  split; apply map_eq; intros host; destruct (H host) as [Hr Hb];
    [rewrite Hr|rewrite Hb];
    (destruct (decide (host = "a.com")) as [->|Ha]; [by vm_compute|]);
    (destruct (decide (host = "b.com")) as [->|Hb']; [by vm_compute|]);
    rewrite lookup_insert_ne, lookup_singleton_ne by done;
    unfold entries_of, example_entries; rewrite !filter_cons, filter_nil;
    cbn [url bytes_received authority plain_externals];
    change (plain_authority "http://a.com/x") with "a.com";
    change (plain_authority "http://a.com/y") with "a.com";
    change (plain_authority "http://b.com/z") with "b.com";
    (destruct (decide ("a.com" = host)); [congruence|]);
    (destruct (decide ("b.com" = host)); [congruence|]); done.
Defined.

(** Two entries of [2 ^ 62] bytes for one host: their sum is no [qint64]. *)
Lemma aggregate_bytes_overflow :
  byte_count "a.com" overflowing_entries = (2 ^ 63)%Z /\
  snd (aggregate overflowing_entries) !! "a.com" = Some (- 2 ^ 63)%Z /\
  snd (aggregate overflowing_entries) !! "a.com"
    <> Some (byte_count "a.com" overflowing_entries).
Proof. split; [|split]; by vm_compute. Qed.

(** No worker is ready: the broadcast reply is over no member, counts as
    finished, and the statistics query never returns. *)
Lemma no_worker_statistics_never_return :
  replies (broadcast_world no_worker) 0 = [] /\
  IsFinished (broadcast_world no_worker) 0 = true /\
  GetNetworkStatisticsBlocking no_worker = WaitsForever.
Proof.
  destruct (empty_broadcast_never_signals network_statistics_message
              no_worker no_worker_wf) as (_ & _ & _ & H).
  destruct (H eq_refl) as (_ & Hrep & Hblock).
  split; [exact Hrep|]. split; [reflexivity|exact Hblock].
Defined.

(** On the client's thread a wrapper stops at its assertion. *)
Lemma SaveFileBlocking_on_client_thread :
  SaveFileBlocking "/music/a.mp3" a_song three_workers = AssertionFailed.
Proof.
  destruct (blocking_wrappers_assert_thread three_workers eq_refl)
    as (_ & H & _).
  apply H.
Defined.

(** On the client's thread the statistics query goes through. *)
Lemma statistics_on_client_thread :
  let w := with_future two_succeed_one_fails three_workers in
  current_thread w = object_thread w /\
  exists w', GetNetworkStatisticsBlocking w = Returns tt w'.
Proof. split; [reflexivity|]. eexists. by vm_compute. Qed.

(** A save that the worker answers with success. *)
Lemma SaveFileBlocking_answered :
  exists w',
    SaveFileBlocking "/music/a.mp3" a_song
      (caller (Resolved 0 true (save_response true))) = Returns true w'.
Proof.
  set (w := caller (Resolved 0 true (save_response true))).
  set (w1 := world_of (SaveFile "/music/a.mp3" a_song w)).
  set (w2 := world_of (WaitForFinished 0 w1)).
  destruct (blocking_wrappers_extract_response w w1 w2 0 eq_refl eq_refl)
    as (_ & H & _).
  eexists. exact (H "/music/a.mp3" a_song eq_refl).
Defined.

(** The statistics query takes nothing from the message of its own
    reply: three workers report the entries of the example, and when the
    query returns the broadcast reply [3] still holds the empty message,
    without any entry, while the two maps that were logged hold the
    entries of the members' messages. *)
Lemma statistics_not_from_reply_message :
  let answers :=
    [Resolved 1 true (statistics_response (take 1 example_entries));
     Resolved 0 true (statistics_response (drop 1 example_entries));
     Resolved 2 true (statistics_response [])] in
  let w := with_future answers three_workers in
  let w' := world_of (GetNetworkStatisticsBlocking w) in
  GetNetworkStatisticsBlocking w = Returns tt w' /\
  replies w' 3 = [0; 1; 2] /\
  message (deref w' 3) = Message_empty /\
  entry (network_statistics_response (message (deref w' 3))) = [] /\
  log w' = [LogRequests Debug {[ "a.com" := 2%Z; "b.com" := 1%Z ]};
            LogBytes Debug {[ "a.com" := 150%Z; "b.com" := 10%Z ]}].
Proof. repeat apply conj; by vm_compute. Qed.

(** A save that the worker answers with a failure of the transport. *)
Lemma SaveFileBlocking_failed :
  exists w',
    SaveFileBlocking "/music/a.mp3" a_song
      (caller (Resolved 0 false Message_empty)) = Returns false w'.
Proof.
  set (w := caller (Resolved 0 false Message_empty)).
  set (w1 := world_of (SaveFile "/music/a.mp3" a_song w)).
  set (w2 := world_of (WaitForFinished 0 w1)).
  destruct (blocking_wrappers_default_on_failure w w1 w2 0 eq_refl eq_refl)
    as (H & _).
  eexists. exact (H "/music/a.mp3" a_song eq_refl).
Defined.

(** A read that succeeds renames the song; a read that fails leaves it. *)
Lemma ReadFileBlocking_answered_and_failed :
  (exists w',
     ReadFileBlocking "/music/a.mp3" a_song
       (caller (Resolved 0 true (read_response "New title")))
     = Returns ("New title", "/music/a.mp3") w') /\
  (exists w',
     ReadFileBlocking "/music/a.mp3" a_song
       (caller (Resolved 0 false Message_empty))
     = Returns a_song w').
Proof.
  split.
  - set (w := caller (Resolved 0 true (read_response "New title"))).
    set (w1 := world_of (ReadFile "/music/a.mp3" w)).
    set (w2 := world_of (WaitForFinished 0 w1)).
    destruct (ReadFileBlocking_song "/music/a.mp3" a_song w) as [H _].
    eexists. exact (H 0 w1 w2 true eq_refl eq_refl eq_refl).
  - set (w := caller (Resolved 0 false Message_empty)).
    set (w1 := world_of (ReadFile "/music/a.mp3" w)).
    set (w2 := world_of (WaitForFinished 0 w1)).
    destruct (ReadFileBlocking_song "/music/a.mp3" a_song w) as [H _].
    eexists. exact (H 0 w1 w2 false eq_refl eq_refl eq_refl).
Defined.

(** A broadcast over three workers keeps its three members while a
    fourth worker becomes ready, the responses arrive and another
    request is sent. *)
Lemma broadcast_keeps_members :
  let w0 := broadcast_world three_workers in
  let w1 := deliver WorkerReady w0 in
  let w2 := deliver (Resolved 0 true Message_empty) w1 in
  let w3 := deliver (Resolved 2 false Message_empty) w2 in
  let w4 := deliver (Resolved 1 true Message_empty) w3 in
  let w5 := world_of (IsMediaFile "/music/a.mp3" w4) in
  replies w0 3 = [0; 1; 2] /\ replies w5 3 = [0; 1; 2].
Proof.
  intros w0 w1 w2 w3 w4 w5.
  apply (BroadcastReply_members_fixed network_statistics_message [0; 1; 2]
           (world_of (BroadcastMessageWithReply network_statistics_message
                        three_workers)) 3 w0 w5 eq_refl).
  apply (rtc_l step w0 w1 w5 (step_deliver WorkerReady w0)).
  apply (rtc_l step w1 w2 w5 (step_deliver _ w1)).
  apply (rtc_l step w2 w3 w5 (step_deliver _ w2)).
  apply (rtc_l step w3 w4 w5 (step_deliver _ w3)).
  apply (rtc_l step w4 w5 w5); [|apply rtc_refl].
  apply (step_IsMediaFile "/music/a.mp3" w4 4 w5). by vm_compute.
Defined.

(** Three workers report the entries of the example between them: the
    statistics query logs the two maps of the design document. *)
Lemma statistics_example_logged :
  let answers :=
    [Resolved 1 true (statistics_response (take 1 example_entries));
     Resolved 0 true (statistics_response (drop 1 example_entries));
     Resolved 2 true (statistics_response [])] in
  log (world_of (GetNetworkStatisticsBlocking
                   (with_future answers three_workers))) =
  [LogRequests Debug {[ "a.com" := 2%Z; "b.com" := 1%Z ]};
   LogBytes Debug {[ "a.com" := 150%Z; "b.com" := 10%Z ]}].
Proof. by vm_compute. Qed.

(** The entries of the example in reverse give the same two maps. *)
Lemma aggregate_example_reversed :
  aggregate (rev example_entries) = aggregate example_entries.
Proof.
  apply (aggregate_permutation (rev example_entries) example_entries).
  symmetry. apply Permutation_rev.
Defined.

(** The counters of the example add up to its three entries and their
    160 bytes. *)
Lemma aggregate_example_totals :
  counters_total (fst (aggregate example_entries)) = 3%Z /\
  counters_total (snd (aggregate example_entries)) = 160%Z.
Proof.
  destruct example_within_bounds as [Hlen Hsum].
  exact (aggregate_totals example_entries Hlen Hsum).
Defined.

Lemma three_workers_receivers (es : list Event) (cur obj : Thread) :
  receivers_allocated (with_threads cur obj (with_future es three_workers)).
Proof. intros s r H. by apply elem_of_nil in H. Defined.

Lemma three_workers_future_wf (es : list Event) :
  wf (with_future es three_workers).
Proof. split; cbn; intros *; intros H; by apply elem_of_nil in H. Defined.

(** Two workers succeed and one fails: the wait on the broadcast reply
    returns [true] although the reply has emitted [Finished(false)]. *)
Lemma broadcast_wait_with_a_failure :
  let w0 := broadcast_world (with_future two_succeed_one_fails three_workers) in
  let w' := world_of (WaitForFinished 3 w0) in
  WaitForFinished 3 w0 = Returns true w' /\ emitted_by 3 w' = [false].
Proof.
  intros w0 w'.
  assert (Hwait : WaitForFinished 3 w0 = Returns true w') by (by vm_compute).
  split; [exact Hwait|].
  destruct (broadcast_wait_reports_true
              (with_future two_succeed_one_fails three_workers) 3 w0 w0 true w'
              (three_workers_future_wf _) eq_refl (rtc_refl _ _) Hwait)
    as (_ & _ & H).
  rewrite H. by vm_compute.
Defined.

(** All three workers have answered before the wait begins: the wait
    does not end, although more events follow. *)
Lemma broadcast_wait_too_late :
  let w := with_future [WorkerReady; Resolved 0 true Message_empty]
             three_workers in
  WaitForFinished 3 (deliver_all two_succeed_one_fails (broadcast_world w)) =
  WaitsForever.
Proof.
  intros w.
  apply (broadcast_wait_after_finished w 3 (broadcast_world w)
           (deliver_all two_succeed_one_fails (broadcast_world w))
           (three_workers_future_wf _) eq_refl (deliver_all_steps _ _)).
  by vm_compute.
Defined.

(** A save whose worker never answers. *)
Lemma SaveFileBlocking_unanswered :
  SaveFileBlocking "/music/a.mp3" a_song
    (with_threads 1 0 (with_future [WorkerReady; SpawnFailed] three_workers)) =
  WaitsForever.
Proof.
  set (w := with_threads 1 0 (with_future [WorkerReady; SpawnFailed]
                                three_workers)).
  assert (Hno : no_response_for (length (heap w)) (future w)).
  { intros ok resp Hin. cbn in Hin.
    apply elem_of_cons in Hin as [Hin|Hin]; [discriminate Hin|].
    apply list_elem_of_singleton in Hin. discriminate Hin. }
  destruct (blocking_wrappers_wait_forever w eq_refl
              (fun H : ready_workers w = 0 => O_S 2 (eq_sym H)) Hno)
    as (_ & H & _).
  apply H.
Defined.

(** A batch over two songs on three workers: the second reply is
    released when its response arrives, not by the response for the
    first and not again by a second response. *)
Lemma batch_example_released_once :
  let w' := world_of (UpdateSongsStatistics [a_song; a_song] three_workers) in
  let es1 := [Resolved 0 true Message_empty] in
  let es2 := [Resolved 1 true Message_empty] in
  release_count 1 w' = 0 /\
  release_count 1 (deliver_all es1 w') = 0 /\
  release_count 1
    (deliver_all (es1 ++ Resolved 1 false Message_empty :: es2) w') = 1.
Proof.
  intros w' es1 es2.
  apply (batch_reply_released_once [a_song; a_song] three_workers w' 1 false
           Message_empty es1 es2).
  - intros s r H. by apply elem_of_nil in H.
  - exact (fun H : ready_workers three_workers = 0 => O_S 2 (eq_sym H)).
  - left. by vm_compute.
  - cbn. lia.
  - intros ok resp Hin. apply list_elem_of_singleton in Hin. discriminate Hin.
Defined.

(** A save that is answered: its reply is released once. *)
Lemma SaveFileBlocking_releases_reply :
  let w := caller (Resolved 0 true (save_response true)) in
  let w' := world_of (SaveFileBlocking "/music/a.mp3" a_song w) in
  release_count 0 w' = 1 /\ connections w' = [] /\ length (heap w') = 1.
Proof.
  intros w w'.
  assert (Hret : SaveFileBlocking "/music/a.mp3" a_song w = Returns true w')
    by (by vm_compute).
  destruct (blocking_wrappers_release_reply w (three_workers_receivers _ 1 0))
    as (_ & H & _).
  destruct (H "/music/a.mp3" a_song true w' Hret) as (_ & Hl & Hc & Hr).
  split; [exact Hr|]. split; [exact Hc|exact Hl].
Defined.

(** The statistics query over three workers releases the broadcast reply
    [3] and none of the replies [0], [1] and [2]. *)
Lemma statistics_example_releases :
  let w := with_future two_succeed_one_fails three_workers in
  let w' := world_of (GetNetworkStatisticsBlocking w) in
  exists this w0,
    GetNetworkStatistics w = Returns this w0 /\
    replies w' this = replies w0 this /\
    length (replies w' this) = 3 /\
    release_count this w' = 1 /\
    forall m,
      m ∈ replies w' this ->
      release_count m w' = 0 /\
      forall s, (s, DeleteLater m) ∉ connections w'.
Proof.
  intros w w'.
  assert (Hret : GetNetworkStatisticsBlocking w = Returns tt w')
    by (by vm_compute).
  exact (statistics_releases_broadcast_only w w'
           (three_workers_receivers _ 0 0) Hret).
Defined.

(** Three workers report the entries of the example between them, the
    second one with a failure and before the first: the statistics query
    logs the two maps of the example and leaves the events that follow. *)
Lemma statistics_example_answered :
  let w := with_future (map Resolved_of example_arrivals ++ [WorkerReady])
             three_workers in
  exists w',
    GetNetworkStatisticsBlocking w = Returns tt w' /\
    future w' = [WorkerReady] /\
    log w' = [LogRequests Debug {[ "a.com" := 2%Z; "b.com" := 1%Z ]};
              LogBytes Debug {[ "a.com" := 150%Z; "b.com" := 10%Z ]}].
Proof.
  intros w.
  assert (Hperm : example_arrivals ≡ₚ
                  zip (replies (broadcast_world w) 3) example_answers).
  { change (replies (broadcast_world w) 3) with [0; 1; 2]. apply perm_swap. }
  destruct (GetNetworkStatisticsBlocking_answered w 3 (broadcast_world w)
              example_answers example_arrivals [WorkerReady]
              (three_workers_future_wf _)
              (fun H : ready_workers w = 0 => O_S 2 (eq_sym H))
              eq_refl eq_refl Hperm eq_refl)
    as (w' & Hret & Hfut & Hlog).
  exists w'. split; [exact Hret|]. split; [exact Hfut|].
  rewrite Hlog. by vm_compute.
Defined.

End Checks.
